(** * The renter's repair scheduler (modules/renter/repair.go)

    A shallow embedding of the repair matrix builder and of the dispatch
    loop of [managedRepairIteration], followed by the properties that the
    design document states about them.

    Conventions of the embedding.
    - [uint64] chunk and piece indices are [N]; Go [int]s (lengths, the
      keys and counters of [gapCounts]) are [Z]; no arithmetic in this
      file can leave the 64-bit range, so no wrap-around is written.
    - [types.FileContractID] is a 32-byte hash compared with [==]; it is
      read as the number its bytes spell.
    - A Go map that the code ranges over ([availableWorkers],
      [activeWorkers], [repairMatrix]) is a list without repeated keys;
      its order stands for the order in which [range] happens to visit
      the keys.  Every statement quantifies over all such lists, hence
      over every order the runtime may pick.  The map
      [potentialContractGaps] is built and ranged over inside the builder,
      once per chunk and per call; the order of that range is an input of
      the call ([GoSet.visit]).
    - A Go map that is only looked up or folded with an order-insensitive
      operation ([gapCounts], [r.workerPool], [pieceMap]) is a [gmap].
    - [time.Time] and [time.Duration] are [Z] nanoseconds; the zero
      [time.Time] is [0].
    - Channels and the stop signal are inputs: each [select] reads what
      the environment record or the event list offers.  A run-time panic
      is an explicit outcome. *)

From stdpp Require Import gmap strings list fin_maps.
From Stdlib Require Import ZArith.

Local Open Scope Z_scope.

(** ** Identifiers and the gap model *)

Abbreviation FileContractID := N (only parsing).

(** [chunkGaps]: the contracts and pieces a chunk is missing.  The loop
    of [managedRepairIteration] also reads and assigns [chunkGaps.numGaps]
    without calling it; that stored value is the third field, which Go
    zero-initialises. *)
Record chunkGaps := ChunkGaps {
  contracts : list FileContractID;
  pieces : list N;
  numGapsField : Z
}.

Record chunkID := ChunkID {
  chunkIndex : N;
  filename : string
}.

#[global] Instance chunkID_eq_dec : EqDecision chunkID.
Proof. solve_decision. Defined.

#[global] Instance chunkGaps_eq_dec : EqDecision chunkGaps.
Proof. solve_decision. Defined.

(** [len] of a slice or map, as a Go [int]. *)
Definition len {A} (l : list A) : Z := Z.of_nat (length l).

(** [func (cg *chunkGaps) numGaps() int] *)
Definition numGaps (cg : chunkGaps) : Z :=
  if len (contracts cg) <=? len (pieces cg)
  then len (contracts cg)
  else len (pieces cg).

(** ** Files as the builder reads them *)

Record pieceData := PieceData { Chunk : N; Piece : N }.

Record fileContract := FileContract {
  ID : FileContractID;
  Pieces : list pieceData
}.

(** [numChunks] is [file.numChunks()], [NumPieces] is
    [file.erasureCode.NumPieces()]. *)
Record file := File {
  name : string;
  numChunks : N;
  NumPieces : nat;
  fileContracts : list fileContract
}.

(** ** Go maps that are ranged over *)

Module GoSet.
(** [m[k] = struct{}{}] *)
Definition add (k : FileContractID) (m : list FileContractID) : list FileContractID :=
  if decide (k ∈ m) then m else m ++ [k].

(** [delete(m, k)] *)
Definition del (k : FileContractID) (m : list FileContractID) : list FileContractID :=
  filter (λ x, x ≠ k) m.

(** [for k := range m] over a map built inside a function: the runtime
    visits the keys [m] in an order of its own.  [order] lists keys in the
    order the runtime comes to them; keys of [m] it does not list follow.
    Every order of [m] is [visit order m] for some [order] (that order
    itself), and [visit] never adds, drops or repeats a key. *)
Definition visit (order m : list FileContractID) : list FileContractID :=
  filter (λ x, x ∈ m) (remove_dups order)
  ++ filter (λ x, x ∉ remove_dups order) m.
End GoSet.

(** [repairMatrix map[chunkID]*chunkGaps]: every entry owns its record,
    so a write through the pointer is a write to the entry. *)
Abbreviation matrix := (list (chunkID * chunkGaps)) (only parsing).

Module Matrix.
Fixpoint lookup (cid : chunkID) (m : matrix) : option chunkGaps :=
  match m with
  | [] => None
  | (k, v) :: m' => if decide (k = cid) then Some v else lookup cid m'
  end.

(** [repairMatrix[cid] = &gaps] *)
Fixpoint store (cid : chunkID) (g : chunkGaps) (m : matrix) : matrix :=
  match m with
  | [] => [(cid, g)]
  | (k, v) :: m' =>
      if decide (k = cid) then (k, g) :: m' else (k, v) :: store cid g m'
  end.
End Matrix.

(** ** The gap-count histogram [gapCounts map[int]int] *)

Module Hist.
(** [gapCounts[k]] : a missing key reads as 0. *)
Definition get (h : gmap Z Z) (k : Z) : Z := default 0 (h !! k).

(** [gapCounts[k] = gapCounts[k] + d] *)
Definition bump (k d : Z) (h : gmap Z Z) : gmap Z Z := <[k := get h k + d]> h.

(** The [for i, gaps := range gapCounts] loop that finds the largest
    key with a positive counter. *)
Definition maxGaps (h : gmap Z Z) : Z :=
  map_fold (λ i gaps acc, if (acc <? i) && (0 <? gaps) then i else acc) 0 h.
End Hist.

(** ** addFileToRepairMatrix *)

(** [m[k] = append(m[k], x)] on a map of slices. *)
Definition appendAt {A} (k : N) (x : A) (m : gmap N (list A)) : gmap N (list A) :=
  <[k := default [] (m !! k) ++ [x]]> m.

(** The chunk indices [0 .. chunkCount-1] of the two [for i := uint64(0)]
    loops. *)
Definition chunkRange (f : file) : list N :=
  map N.of_nat (seq 0 (N.to_nat (numChunks f))).

(** The first two loops: the per-chunk piece and contract lists.  The
    source declares them as [completedPieces] and [utilizedContracts] and
    then reads them as [pieceMap] and [contractMap]; the embedding takes
    each pair of names for one map. *)
Definition pieceMap (f : file) : gmap N (list N) :=
  foldl (λ pm c, foldl (λ pm p, appendAt (Chunk p) (Piece p) pm) pm (Pieces c))
        (foldl (λ pm i, <[i := []]> pm) ∅ (chunkRange f))
        (fileContracts f).

Definition contractMap (f : file) : gmap N (list FileContractID) :=
  foldl (λ cm c, foldl (λ cm p, appendAt (Chunk p) (ID c) cm) cm (Pieces c))
        (foldl (λ cm i, <[i := []]> cm) ∅ (chunkRange f))
        (fileContracts f).

(** [potentialPieceGaps[piece] = true] for every stored piece; an index
    outside the slice panics. *)
Fixpoint markPieces (potential : list bool) (stored : list N) : option (list bool) :=
  match stored with
  | [] => Some potential
  | p :: stored' =>
      if decide (N.to_nat p < length potential)%nat
      then markPieces (<[N.to_nat p := true]> potential) stored'
      else None
  end.

(** [for j, piece := range potentialPieceGaps { if !piece { append j } }] *)
Fixpoint unmarked (j : N) (potential : list bool) : list N :=
  match potential with
  | [] => []
  | b :: potential' =>
      if b then unmarked (N.succ j) potential'
      else j :: unmarked (N.succ j) potential'
  end.

(** The gap record the builder computes for chunk [i], or [None] when
    marking the pieces panics.  [order cid] is the order in which the
    range over [potentialContractGaps] visits the keys while the record of
    chunk [cid] is merged, in this call. *)
Definition chunkGapsOf (order : chunkID → list FileContractID)
    (f : file) (availableWorkers : list FileContractID) (i : N)
  : option chunkGaps :=
  let potentialContractGaps :=
    foldl (λ s fcid, GoSet.del fcid s)
          (foldl (λ s c, GoSet.add c s) [] availableWorkers)
          (default [] (contractMap f !! i)) in
  potential ← markPieces (repeat false (NumPieces f)) (default [] (pieceMap f !! i));
  Some {| contracts := GoSet.visit (order (ChunkID i (name f))) potentialContractGaps;
          pieces := unmarked 0 potential;
          numGapsField := 0 |}.

(** [len(pieceMap[i]) < file.erasureCode.NumPieces()] *)
Definition incomplete (f : file) (i : N) : bool :=
  len (default [] (pieceMap f !! i)) <? Z.of_nat (NumPieces f).

(** One turn of the last loop of the builder. *)
Definition addChunk (order : chunkID → list FileContractID)
    (f : file) (availableWorkers : list FileContractID)
    (acc : option (matrix * gmap Z Z)) (i : N) : option (matrix * gmap Z Z) :=
  '(repairMatrix, gapCounts) ← acc;
  if incomplete f i then
    gaps ← chunkGapsOf order f availableWorkers i;
    Some (Matrix.store (ChunkID i (name f)) gaps repairMatrix,
          Hist.bump (numGaps gaps) 1 gapCounts)
  else Some (repairMatrix, gapCounts).

(** [addFileToRepairMatrix]; [None] is a panic.  The matrix and the
    histogram are locals of [managedRepairIteration], which the panic
    unwinds: nothing of a run that panics is left to look at. *)
Definition addFileToRepairMatrix (order : chunkID → list FileContractID)
    (f : file) (availableWorkers : list FileContractID)
    (repairMatrix : matrix) (gapCounts : gmap Z Z) : option (matrix * gmap Z Z) :=
  foldl (addChunk order f availableWorkers) (Some (repairMatrix, gapCounts)) (chunkRange f).

(** [createRepairMatrix]: the files of [r.files] in the order the range
    visits them, [tracking] telling which names [r.tracking] holds.  Each
    call of the builder ranges anew: [order k] is the range order of the
    call made for the [k]-th file. *)
Definition createRepairMatrix (order : nat → chunkID → list FileContractID)
    (files : list file) (tracking : string → bool)
    (availableWorkers : list FileContractID) : option (matrix * gmap Z Z) :=
  foldl (λ acc '(k, f),
           '(repairMatrix, gapCounts) ← acc;
           if tracking (name f)
           then addFileToRepairMatrix (order k) f availableWorkers repairMatrix gapCounts
           else Some (repairMatrix, gapCounts))
        (Some ([], ∅)) (imap pair files).

(** ** Workers, work items and the scheduler's state *)

(** A worker of [r.workerPool]; its [uploadChan] shows as the work items
    sent to it. *)
Record worker := Worker { recentUploadFailure : Z }.

(** [time.Hour] in nanoseconds. *)
Definition Hour : Z := 3600 * 1000000000.

(** What [pieces[j]] holds after the encryption loop: the ciphertext, or
    whatever [EncryptBytes] returned together with its error. *)
Inductive pieceBytes := Ciphertext | FailedEncryption.

(** [uploadWork]; the file handle and the result channel are the same for
    every item of an epoch and are left out. *)
Record uploadWork := UploadWork {
  uwChunkIndex : N;
  uwFile : string;
  uwPieceIndex : N;
  uwData : pieceBytes
}.

(** A completed [worker.uploadChan <- uw]: the receiving worker and the
    item. *)
Abbreviation send := (FileContractID * uploadWork)%type (only parsing).

(** [finishedUpload] read from [resultChan], with the reading of
    [time.Now()] taken if the failure is recorded; or the stop signal
    winning the [select]. *)
Inductive event :=
| Finished (workerID : FileContractID) (err : bool) (now : Z)
| StopFired.

(** The variables the loop of [managedRepairIteration] keeps, and
    [r.workerPool]. *)
Record sched := Sched {
  repairMatrix : matrix;
  gapCounts : gmap Z Z;
  availableWorkers : list FileContractID;
  activeWorkers : list FileContractID;
  retiredWorkers : list FileContractID;
  workerPool : gmap N worker
}.

(** What the renter, the disk and the coders answer while a chunk is
    prepared. *)
Record world := World {
  files : string → bool;            (* r.files[filename] exists *)
  tracking : string → bool;         (* r.tracking[filename] exists *)
  openRepairPath : string → bool;   (* os.Open(meta.RepairPath) succeeds *)
  readAt : chunkID → bool;          (* nil, io.EOF or io.ErrUnexpectedEOF *)
  encode : chunkID → option nat;    (* len(pieces), or an error *)
  encryptBytes : chunkID → N → bool (* EncryptBytes of piece i succeeds *)
}.

(** The inputs of one turn of the [for] loop. *)
Record iterEnv := IterEnv {
  theWorld : world;
  stopAtStart : bool;        (* StopChan is ready at the first select *)
  stopAtSend : nat → bool;   (* the select of the i-th send takes StopChan *)
  sinceStart : Z;            (* time.Since(startTime) *)
  results : list event;      (* what the waiting select receives, in order *)
  newFiles : list file;      (* files pending on r.newFiles at the drain *)
  rangeOrder : nat → chunkID → list FileContractID
                             (* the builder's range orders at the drain *)
}.

(** ** One chunk of the scan *)

(** The two nested loops that collect [usefulWorkers]. *)
Definition usefulWorkers (available cs : list FileContractID) : list FileContractID :=
  w ← available; c ← cs; if decide (w = c) then [w] else [].

(** The search-and-splice loop
    [contracts = append(contracts[:j], contracts[j+1:]...); break]. *)
Fixpoint removeFirst (x : FileContractID) (l : list FileContractID) : list FileContractID :=
  match l with
  | [] => []
  | y :: l' => if decide (y = x) then l' else y :: removeFirst x l'
  end.

Definition purgeRetired (retired cs : list FileContractID) : list FileContractID :=
  foldl (λ cs retire, removeFirst retire cs) cs retired.

(** The branch taken under [maxGaps >= 4 && len(usefulWorkers) < 4]. *)
Definition deprioritize (retired : list FileContractID) (cg : chunkGaps) (h : gmap Z Z)
  : chunkGaps * gmap Z Z :=
  let cg1 := {| contracts := purgeRetired retired (contracts cg);
                pieces := pieces cg;
                numGapsField := numGapsField cg |} in
  if (len (contracts cg1) <? len (pieces cg1)) && (len (contracts cg1) <? numGaps cg1)
  then
    let oldNumGaps := numGaps cg1 in
    let cg2 := {| contracts := contracts cg1;
                  pieces := pieces cg1;
                  numGapsField := len (contracts cg1) |} in
    (cg2, Hist.bump (numGaps cg2) 1 (Hist.bump oldNumGaps (-1) h))
  else (cg1, h).

(** The [uploadWork] literal built for piece [piece] of chunk [cid]. *)
Definition workItem (w : world) (cid : chunkID) (piece : N) : uploadWork :=
  {| uwChunkIndex := chunkIndex cid;
     uwFile := filename cid;
     uwPieceIndex := piece;
     uwData := if encryptBytes w cid piece then Ciphertext else FailedEncryption |}.

Inductive loopEnd := LoopDone | LoopStopped | LoopPanicked.

Record dispatchResult := DispatchResult {
  drEnd : loopEnd;
  drCount : nat;                          (* the final value of i *)
  drAvailable : list FileContractID;
  drContracts : list FileContractID;
  drSent : list send
}.

(** The loop that gives each piece to a worker.  [work] pairs
    [usefulWorkers[i]] with [chunkGaps.pieces[i]], so it ends where the
    shorter of the two ends; [nEncoded] is [len(pieces)] of the encoded
    chunk. *)
Fixpoint dispatch (w : world) (stopAt : nat → bool) (pool : gmap N worker)
    (cid : chunkID) (nEncoded : nat) (i : nat)
    (work : list (FileContractID * N))
    (available cs : list FileContractID) (sent : list send) : dispatchResult :=
  match work with
  | [] => DispatchResult LoopDone i available cs sent
  | (uwID, piece) :: work' =>
      if decide (N.to_nat piece < nEncoded)%nat then
        match pool !! uwID with
        | None => DispatchResult LoopPanicked i available cs sent
        | Some _ =>
            if stopAt i then DispatchResult LoopStopped i available cs sent
            else
              let uw := workItem w cid piece in
              dispatch w stopAt pool cid nEncoded (S i) work'
                       (GoSet.del uwID available) (removeFirst uwID cs)
                       (sent ++ [(uwID, uw)])
        end
      else DispatchResult LoopPanicked i available cs sent
  end.

Inductive chunkOutcome :=
| Skipped (cg : chunkGaps) (h : gmap Z Z)                      (* continue *)
| Dispatched (cg : chunkGaps) (h : gmap Z Z)
             (available : list FileContractID) (sent : list send)  (* break *)
| SendStopped (cg : chunkGaps)
              (available : list FileContractID) (sent : list send) (* return *)
| Panicked (cg : chunkGaps)
           (available : list FileContractID) (sent : list send).   (* panic *)

(** The body of [for chunkID, chunkGaps := range repairMatrix]. *)
Definition scanChunk (w : world) (stopAt : nat → bool) (pool : gmap N worker)
    (maxGaps : Z) (retired available : list FileContractID) (h : gmap Z Z)
    (cid : chunkID) (cg : chunkGaps) : chunkOutcome :=
  let useful := usefulWorkers available (contracts cg) in
  if (4 <=? maxGaps) && (len useful <? 4) then
    let '(cg', h') := deprioritize retired cg h in Skipped cg' h'
  else if negb (files w (filename cid)) then Skipped cg h
  else if negb (tracking w (filename cid)) then Skipped cg h
  else if negb (openRepairPath w (filename cid)) then Skipped cg h
  else if negb (readAt w cid) then Skipped cg h
  else
    match encode w cid with
    | None => Skipped cg h
    | Some nEncoded =>
        (* The encryption loop: its [continue] resumes that loop, so an
           error of EncryptBytes leaves the chunk on its way. *)
        let r := dispatch w stopAt pool cid nEncoded 0
                          (zip useful (pieces cg)) available (contracts cg) [] in
        match drEnd r with
        | LoopPanicked =>
            (* the items sent before the panic are sent, and their workers
               and contracts deleted *)
            Panicked {| contracts := drContracts r;
                        pieces := pieces cg;
                        numGapsField := numGapsField cg |}
                     (drAvailable r) (drSent r)
        | LoopStopped =>
            SendStopped {| contracts := drContracts r;
                           pieces := pieces cg;
                           numGapsField := numGapsField cg |}
                        (drAvailable r) (drSent r)
        | LoopDone =>
            let pieces' := drop (drCount r) (pieces cg) in
            let oldNumGaps := numGapsField cg in
            let newNumGaps := if len (drContracts r) <? len pieces'
                              then len (drContracts r) else len pieces' in
            Dispatched {| contracts := drContracts r;
                          pieces := pieces';
                          numGapsField := newNumGaps |}
                       (Hist.bump newNumGaps 1 (Hist.bump oldNumGaps (-1) h))
                       (drAvailable r) (drSent r)
        end
    end.

(** ** The scan of the repair matrix *)

Record scanResult := ScanResult {
  srEnd : loopEnd;          (* LoopDone: the range ended or a break left it *)
  srMatrix : matrix;
  srGapCounts : gmap Z Z;
  srAvailable : list FileContractID;
  srSent : list send
}.

(** [for chunkID, chunkGaps := range repairMatrix]: the entries are
    visited in list order until one is dispatched. *)
Fixpoint scan (w : world) (stopAt : nat → bool) (pool : gmap N worker)
    (maxGaps : Z) (retired available : list FileContractID) (h : gmap Z Z)
    (todo : matrix) : scanResult :=
  match todo with
  | [] => ScanResult LoopDone [] h available []
  | (cid, cg) :: todo' =>
      match scanChunk w stopAt pool maxGaps retired available h cid cg with
      | Skipped cg' h' =>
          let r := scan w stopAt pool maxGaps retired available h' todo' in
          ScanResult (srEnd r) ((cid, cg') :: srMatrix r)
                     (srGapCounts r) (srAvailable r) (srSent r)
      | Dispatched cg' h' available' sent =>
          ScanResult LoopDone ((cid, cg') :: todo') h' available' sent
      | SendStopped cg' available' sent =>
          ScanResult LoopStopped ((cid, cg') :: todo') h available' sent
      | Panicked cg' available' sent =>
          ScanResult LoopPanicked ((cid, cg') :: todo') h available' sent
      end
  end.

(** ** Waiting for workers *)

(** "Determine the number of workers we need in 'available'." *)
Definition needWorkers (maxGaps nActive nAvailable : Z) : Z :=
  let exclude := maxGaps - 4 in
  let exclude := if exclude <? 0 then 0 else exclude in
  let need := nActive - exclude in
  let need := if need <=? nAvailable then nAvailable + 1 else need in
  if nActive <? need then nActive else need.

(** The body of the waiting loop after a [finishedUpload] was received. *)
Definition handleResult (s : sched) (need : Z)
    (workerID : FileContractID) (err : bool) (now : Z) : sched * Z :=
  if err then
    match workerPool s !! workerID with
    | Some _ =>
        ({| repairMatrix := repairMatrix s;
            gapCounts := gapCounts s;
            availableWorkers := availableWorkers s;
            activeWorkers := GoSet.del workerID (activeWorkers s);
            retiredWorkers := retiredWorkers s ++ [workerID];
            workerPool := <[workerID := {| recentUploadFailure := now |}]> (workerPool s) |},
         need - 1)
    | None => (s, need)
    end
  else
    ({| repairMatrix := repairMatrix s;
        gapCounts := gapCounts s;
        availableWorkers := GoSet.add workerID (availableWorkers s);
        activeWorkers := activeWorkers s;
        retiredWorkers := retiredWorkers s;
        workerPool := workerPool s |},
     need).

Inductive waitEnd := WaitDone | WaitStopped | WaitBlocked.

(** [for len(availableWorkers) < need]: [WaitBlocked] is the select still
    waiting when the recorded events are used up. *)
Fixpoint waitForWorkers (events : list event) (s : sched) (need : Z)
  : waitEnd * sched * Z :=
  if len (availableWorkers s) <? need then
    match events with
    | [] => (WaitBlocked, s, need)
    | StopFired :: _ => (WaitStopped, s, need)
    | Finished workerID err now :: events' =>
        let '(s', need') := handleResult s need workerID err now in
        waitForWorkers events' s' need'
    end
  else (WaitDone, s, need).

(** The non-blocking drain of [r.newFiles]; [order k] is the range order
    of the call of the builder for the [k]-th file received. *)
Definition drainNewFiles (order : nat → chunkID → list FileContractID)
    (pending : list file) (s : sched) : option sched :=
  '(m, h) ← foldl (λ acc '(k, f), '(m, h) ← acc;
                            addFileToRepairMatrix (order k) f (activeWorkers s) m h)
                  (Some (repairMatrix s, gapCounts s)) (imap pair pending);
  Some {| repairMatrix := m;
          gapCounts := h;
          availableWorkers := availableWorkers s;
          activeWorkers := activeWorkers s;
          retiredWorkers := retiredWorkers s;
          workerPool := workerPool s |}.

(** ** One turn of the [for] loop *)

(** How a statement of the loop body completes. *)
Inductive completion := Normal | BreakLoop.

(** The first [select] of the loop.  A [break] inside a [select] ends the
    [select] statement, not the enclosing [for]: both cases complete
    normally. *)
Definition stopCheck (stopFired : bool) : completion :=
  if stopFired then Normal else Normal.

Inductive status :=
| Continue     (* the loop takes another turn *)
| EpochEnd     (* a break left the loop; the function returns *)
| Stopped      (* a select took StopChan and returned *)
| Blocked      (* still waiting on resultChan *)
| Panic.

(** How a turn ends: the scheduler's state and the work items that went
    out to the workers, also when the turn is cut short.  After a panic
    of the scan the state is the one the panic interrupts; after a panic
    of the builder it is the one the drain started from. *)
Record outcome := Outcome {
  oStatus : status;
  oState : sched;
  oSent : list send
}.

Definition afterScan (s : sched) (r : scanResult) : sched :=
  {| repairMatrix := srMatrix r;
     gapCounts := srGapCounts r;
     availableWorkers := srAvailable r;
     activeWorkers := activeWorkers s;
     retiredWorkers := retiredWorkers s;
     workerPool := workerPool s |}.

Definition scanMatrix (env : iterEnv) (s : sched) : scanResult :=
  scan (theWorld env) (stopAtSend env) (workerPool s)
       (Hist.maxGaps (gapCounts s)) (retiredWorkers s) (availableWorkers s)
       (gapCounts s) (repairMatrix s).

(** The number of available workers the turn waits for, and [newMatrix]. *)
Definition needOf (env : iterEnv) (maxGaps : Z) (s : sched) : Z * bool :=
  let need := needWorkers maxGaps (len (activeWorkers s)) (len (availableWorkers s)) in
  if Hour <? sinceStart env then (len (activeWorkers s), true) else (need, false).

Definition iteration (env : iterEnv) (s : sched) : outcome :=
  match stopCheck (stopAtStart env) with
  | BreakLoop => Outcome EpochEnd s []
  | Normal =>
      let maxGaps := Hist.maxGaps (gapCounts s) in
      if maxGaps =? 0 then Outcome EpochEnd s []
      else
        let r := scanMatrix env s in
        let s1 := afterScan s r in
        match srEnd r with
        | LoopPanicked => Outcome Panic s1 (srSent r)
        | LoopStopped => Outcome Stopped s1 (srSent r)
        | LoopDone =>
            let '(need, newMatrix) := needOf env maxGaps s1 in
            match waitForWorkers (results env) s1 need with
            | (WaitStopped, s2, _) => Outcome Stopped s2 (srSent r)
            | (WaitBlocked, s2, _) => Outcome Blocked s2 (srSent r)
            | (WaitDone, s2, _) =>
                if newMatrix then Outcome EpochEnd s2 (srSent r)
                else
                  match drainNewFiles (rangeOrder env) (newFiles env) s2 with
                  | None => Outcome Panic s2 (srSent r)
                  | Some s3 => Outcome Continue s3 (srSent r)
                  end
            end
        end
  end.

(** The [for] loop over the recorded turns; running out of them leaves
    the loop as it stands ([Continue]). *)
Fixpoint repairLoop (envs : list iterEnv) (s : sched) (sent : list send) : outcome :=
  match envs with
  | [] => Outcome Continue s sent
  | env :: envs' =>
      let o := iteration env s in
      match oStatus o with
      | Continue => repairLoop envs' (oState o) (sent ++ oSent o)
      | st => Outcome st (oState o) (sent ++ oSent o)
      end
  end.

(** ** The start of an epoch *)

(** The first loop of [managedRepairIteration]; [clock id] is the reading
    of [time.Now()] when worker [id] is tested. *)
Definition eligibleWorkers (pool : gmap N worker) (clock : FileContractID → Z)
  : list FileContractID :=
  (map_to_list pool) ≫= λ '(id, wk),
    if recentUploadFailure wk + Hour <? clock id then [id] else [].

Record epochEnv := EpochEnv {
  clock : FileContractID → Z;
  rFiles : list file;          (* r.files, in range order *)
  rTracking : string → bool;   (* membership in r.tracking *)
  turns : list iterEnv;
  buildOrder : nat → chunkID → list FileContractID
                               (* the builder's range orders at the start *)
}.

Definition startOfEpoch (e : epochEnv) (pool : gmap N worker) : option sched :=
  let availableWorkers := eligibleWorkers pool (clock e) in
  '(repairMatrix, gapCounts) ←
    createRepairMatrix (buildOrder e) (rFiles e) (rTracking e) availableWorkers;
  Some {| repairMatrix := repairMatrix;
          gapCounts := gapCounts;
          availableWorkers := availableWorkers;
          activeWorkers := availableWorkers;
          retiredWorkers := [];
          workerPool := pool |}.

(** [managedRepairIteration].  With [maxGaps == 0] the function waits on
    one select and returns, whichever case fires. *)
Definition managedRepairIteration (e : epochEnv) (pool : gmap N worker) : option outcome :=
  s ← startOfEpoch e pool;
  if Hist.maxGaps (gapCounts s) =? 0 then Some (Outcome EpochEnd s [])
  else Some (repairLoop (turns e) s []).

(** ** Concrete inputs used to exercise the statements *)

Module Sample.
(** Five workers that never failed. *)
Definition pool5 : gmap N worker :=
  list_to_map [(1%N, Worker 0); (2%N, Worker 0); (3%N, Worker 0);
               (4%N, Worker 0); (5%N, Worker 0)].

(** A world in which every file is tracked and readable, every chunk
    encodes into 5 pieces and every encryption succeeds. *)
Definition okWorld : world :=
  World (λ _, true) (λ _, true) (λ _, true) (λ _, true)
        (λ _, Some 5%nat) (λ _ _, true).

(** The same world, except that [EncryptBytes] fails on every piece. *)
Definition badKeyWorld : world :=
  World (λ _, true) (λ _, true) (λ _, true) (λ _, true)
        (λ _, Some 5%nat) (λ _ _, false).

(** A file of two chunks, five pieces each, none uploaded yet. *)
Definition fileF : file := File "f" 2 5 [].

Definition chunk0 : chunkID := ChunkID 0 "f".
Definition chunk1 : chunkID := ChunkID 1 "f".

(** A chunk missing pieces 0..4 on contracts 1..5. *)
Definition gaps5 : chunkGaps := ChunkGaps [1; 2; 3; 4; 5]%N [0; 1; 2; 3; 4]%N 0.

(** A chunk missing pieces 3 and 4 on contracts 1 and 2. *)
Definition gaps2 : chunkGaps := ChunkGaps [1; 2]%N [3; 4]%N 2.

(** A run in which every range over [potentialContractGaps] visits the
    keys in the order they were inserted. *)
Definition asInserted : chunkID → list FileContractID := λ _, [].
Definition allAsInserted : nat → chunkID → list FileContractID := λ _, asInserted.

(** A run in which those ranges visit the keys from the largest to the
    smallest of the first five identifiers. *)
Definition descending : chunkID → list FileContractID := λ _, [5; 4; 3; 2; 1]%N.

Definition neverStop : nat → bool := λ _, false.
Definition alwaysStop : nat → bool := λ _, true.
End Sample.

Module Sample2.
(** A scheduler state in the middle of an epoch: worker 3 has retired,
    worker 5 is busy, chunk 1 still misses five pieces. *)
Definition midEpoch : sched :=
  {| repairMatrix := [(Sample.chunk1, Sample.gaps5)];
     gapCounts := {[5 := 1]};
     availableWorkers := [1; 2; 4]%N;
     activeWorkers := [1; 2; 4; 5]%N;
     retiredWorkers := [3%N];
     workerPool := Sample.pool5 |}.

(** A turn that starts more than an hour after the epoch did; worker 5
    reports success while the scheduler waits. *)
Definition lateTurn : iterEnv :=
  IterEnv Sample.okWorld false Sample.neverStop (Hour + 1)
          [Finished 5 false 0] [] Sample.allAsInserted.

(** A turn within the first hour; worker 5 reports success. *)
Definition earlyTurn : iterEnv :=
  IterEnv Sample.okWorld false Sample.neverStop 0
          [Finished 5 false 0] [] Sample.allAsInserted.

(** The pool after worker 3 failed five nanoseconds past the first
    hour. *)
Definition poolFailed3 : gmap N worker :=
  <[3%N := Worker (Hour + 5)]> Sample.pool5.

Definition epoch0 : epochEnv :=
  EpochEnv (λ _, 2 * Hour) [Sample.fileF] (λ _, true) [] Sample.allAsInserted.
End Sample2.

(** ** What a run of the builder stores *)

(** The entries a run of [addFileToRepairMatrix] computes for the chunks
    [l] of [f]: one per under-redundant chunk, in loop order; [None] when
    one of them panics. *)
Fixpoint freshEntries (order : chunkID → list FileContractID)
    (f : file) (availableWorkers : list FileContractID) (l : list N)
  : option (list (chunkID * chunkGaps)) :=
  match l with
  | [] => Some []
  | i :: l' =>
      if incomplete f i then
        gaps ← chunkGapsOf order f availableWorkers i;
        es ← freshEntries order f availableWorkers l';
        Some ((ChunkID i (name f), gaps) :: es)
      else freshEntries order f availableWorkers l'
  end.

(** How many of the entries [es] have gap count [k]. *)
Definition gapCountOf (es : list (chunkID * chunkGaps)) (k : Z) : Z :=
  len (filter (λ e, numGaps e.2 = k) es).

(** Storing, and counting, a list of entries one after the other. *)
Definition storeAll (m : list (chunkID * chunkGaps)) (es : list (chunkID * chunkGaps))
  : list (chunkID * chunkGaps) :=
  foldl (λ m e, Matrix.store e.1 e.2 m) m es.

Definition bumpAll (h : gmap Z Z) (es : list (chunkID * chunkGaps)) : gmap Z Z :=
  foldl (λ h e, Hist.bump (numGaps e.2) 1 h) h es.

Arguments storeAll : simpl never.
Arguments bumpAll : simpl never.

(** ** Gap records up to the order of their contracts *)

(** Two gap records with the same missing pieces, the same stored count
    and the same missing contracts, the contracts possibly in another
    order: what two ranges over the same [potentialContractGaps] make. *)
Definition sameGaps (g g' : chunkGaps) : Prop :=
  contracts g ≡ₚ contracts g' ∧ pieces g = pieces g'
  ∧ numGapsField g = numGapsField g'.

(** Two matrices that list the same chunks in the same order, their gap
    records the same up to the order of the contracts. *)
Definition sameMatrix (m m' : list (chunkID * chunkGaps)) : Prop :=
  Forall2 (λ e e', e.1 = e'.1 ∧ sameGaps e.2 e'.2) m m'.

(** ** The histogram invariant *)

(** Every bucket of the histogram holds the number of chunks of the
    repair matrix whose gap count, min(|missing pieces|, |missing
    contracts|), is the bucket's key. *)
Definition histogramMatches (s : sched) : Prop :=
  ∀ k, Hist.get (gapCounts s) k = gapCountOf (repairMatrix s) k.

Module Sample3.
(** A turn during which the stop signal has already fired: the first
    select finds StopChan ready, and so does every later select. *)
Definition stoppedTurn : iterEnv :=
  IterEnv Sample.okWorld true Sample.alwaysStop 0 [StopFired] [] Sample.allAsInserted.

(** The stop signal has fired, and each select around a send finds the
    worker ready too and happens to take the send. *)
Definition stoppedTurnSending : iterEnv :=
  IterEnv Sample.okWorld true Sample.neverStop 0 [StopFired] [] Sample.allAsInserted.

(** The start of an epoch over [Sample.fileF] with five idle workers. *)
Definition freshEpoch : sched :=
  {| repairMatrix := [(Sample.chunk0, Sample.gaps5); (Sample.chunk1, Sample.gaps5)];
     gapCounts := {[5 := 2]};
     availableWorkers := [1; 2; 3; 4; 5]%N;
     activeWorkers := [1; 2; 3; 4; 5]%N;
     retiredWorkers := [];
     workerPool := Sample.pool5 |}.

(** An epoch over [Sample.fileF]: in the first turn all five pieces of
    chunk 0 are handed out, worker 3 fails, workers 1, 2 and 4 succeed;
    the second turn finds three useful workers for chunk 1 and then
    waits until the process is stopped. *)
Definition turn1 : iterEnv :=
  IterEnv Sample.okWorld false Sample.neverStop 0
          [Finished 3 true 100; Finished 1 false 0;
           Finished 2 false 0; Finished 4 false 0] [] Sample.allAsInserted.

Definition turn2 : iterEnv :=
  IterEnv Sample.okWorld false Sample.neverStop 0 [StopFired] [] Sample.allAsInserted.

Definition epoch : epochEnv :=
  EpochEnv (λ _, 2 * Hour) [Sample.fileF] (λ _, true) [turn1; turn2] Sample.allAsInserted.

(** One chunk with two missing pieces and two idle workers that can
    take them; maxGaps is 2. *)
Definition smallRepair : sched :=
  {| repairMatrix := [(Sample.chunk0, Sample.gaps2)];
     gapCounts := {[2 := 1]};
     availableWorkers := [1; 2; 3]%N;
     activeWorkers := [1; 2; 3]%N;
     retiredWorkers := [];
     workerPool := Sample.pool5 |}.

(** A turn in which [EncryptBytes] fails on every piece. *)
Definition badKeyTurn : iterEnv :=
  IterEnv Sample.badKeyWorld false Sample.neverStop 0 [] [] Sample.allAsInserted.

(** A first turn of [epoch] in which workers 1, 2, 4 and 5 report
    success while worker 3 is still uploading, and the turn after it,
    in which no result arrives before the process is stopped. *)
Definition busyTurn1 : iterEnv :=
  IterEnv Sample.okWorld false Sample.neverStop 0
          [Finished 1 false 0; Finished 2 false 0;
           Finished 4 false 0; Finished 5 false 0] [] Sample.allAsInserted.

Definition busyTurn2 : iterEnv :=
  IterEnv Sample.okWorld false Sample.neverStop 0 [StopFired] [] Sample.allAsInserted.
End Sample3.

(** ** The steps of an epoch *)

Definition withMatrix (s : sched) (m : list (chunkID * chunkGaps)) (h : gmap Z Z) : sched :=
  {| repairMatrix := m;
     gapCounts := h;
     availableWorkers := availableWorkers s;
     activeWorkers := activeWorkers s;
     retiredWorkers := retiredWorkers s;
     workerPool := workerPool s |}.

(** The scheduler together with the workers that hold a work item they
    have not answered yet.  A worker answers each item it received with
    one [finishedUpload] carrying its own identity, so a result can only
    come from a worker of that list. *)
Abbreviation epochState := (sched * list FileContractID)%type (only parsing).

Inductive epochStep : epochState → epochState → Prop :=
| StepScan env s inFlight :
    (* the scan of a turn, with whatever it dispatched *)
    srEnd (scanMatrix env s) ≠ LoopPanicked →
    epochStep (s, inFlight)
              (afterScan s (scanMatrix env s),
               inFlight ++ (srSent (scanMatrix env s)).*1)
| StepResult s inFlight need workerID err now :
    (* one result taken from resultChan *)
    workerID ∈ inFlight →
    epochStep (s, inFlight)
              ((handleResult s need workerID err now).1,
               removeFirst workerID inFlight)
| StepNewFile order s inFlight f m h :
    (* one file taken from r.newFiles *)
    addFileToRepairMatrix order f (activeWorkers s) (repairMatrix s) (gapCounts s) =
      Some (m, h) →
    epochStep (s, inFlight) (withMatrix s m h, inFlight)
| StepRange s inFlight m available active :
    (* the next range over a map may visit it in another order *)
    m ≡ₚ repairMatrix s →
    available ≡ₚ availableWorkers s →
    active ≡ₚ activeWorkers s →
    epochStep (s, inFlight)
              ({| repairMatrix := m;
                  gapCounts := gapCounts s;
                  availableWorkers := available;
                  activeWorkers := active;
                  retiredWorkers := retiredWorkers s;
                  workerPool := workerPool s |},
               inFlight).

(** What holds of the worker sets between the steps of an epoch whose
    eligible workers are [eligible]. *)
Record epochInv (eligible : list FileContractID) (s : sched)
    (inFlight : list FileContractID) : Prop := EpochInv {
  invAvailableNoDup : NoDup (availableWorkers s);
  invAvailableActive : availableWorkers s ⊆ activeWorkers s;
  invActiveEligible : activeWorkers s ⊆ eligible;
  invInFlightNoDup : NoDup inFlight;
  invInFlightActive : inFlight ⊆ activeWorkers s;
  invInFlightBusy : ∀ id, id ∈ inFlight → id ∉ availableWorkers s;
  invContractsNoDup : Forall (λ e, NoDup (contracts e.2)) (repairMatrix s)
}.

(** The results offered to a waiting turn answer work items that are in
    flight, one item per result. *)
Fixpoint answers (inFlight : list FileContractID) (events : list event) : Prop :=
  match events with
  | [] => True
  | StopFired :: _ => True
  | Finished workerID _ _ :: events' =>
      workerID ∈ inFlight ∧ answers (removeFirst workerID inFlight) events'
  end.

(** ** What a file has stored, read off its contracts *)

(** Some contract of [f] records piece [p] of chunk [i]. *)
Definition storedPiece (f : file) (i p : N) : Prop :=
  ∃ c pd, c ∈ fileContracts f ∧ pd ∈ Pieces c ∧ Chunk pd = i ∧ Piece pd = p.

(** Contract [id] of [f] records some piece of chunk [i]. *)
Definition holdsChunk (f : file) (i : N) (id : FileContractID) : Prop :=
  ∃ c pd, c ∈ fileContracts f ∧ pd ∈ Pieces c ∧ Chunk pd = i ∧ ID c = id.

(** Chunk [cid] is an under-redundant chunk of [f] and [gaps] is the
    record the builder computes for it from the workers [W]. *)
Definition entryOf (order : chunkID → list FileContractID)
    (f : file) (W : list FileContractID)
    (cid : chunkID) (gaps : chunkGaps) : Prop :=
  ∃ i, cid = ChunkID i (name f) ∧ (i < numChunks f)%N ∧ incomplete f i = true
       ∧ chunkGapsOf order f W i = Some gaps.

Module Sample4.
(** One chunk of three pieces; contract 7 holds piece 1. *)
Definition fileG : file :=
  File "g" 1 3 [FileContract 7 [PieceData 0 1]].

(** The same file with a piece index that the erasure code does not
    have. *)
Definition fileBad : file :=
  File "bad" 1 3 [FileContract 7 [PieceData 0 3]].

(** Two workers, in no pool order in particular. *)
Definition pool2 : gmap N worker := list_to_map [(7%N, Worker 0); (8%N, Worker 0)].

(** A world in which every chunk encodes into three pieces only, so that
    [pieces[chunkGaps.pieces[i]]] is out of range for the piece indices 3
    and 4, and a turn in that world. *)
Definition shortWorld : world :=
  World (λ _, true) (λ _, true) (λ _, true) (λ _, true)
        (λ _, Some 3%nat) (λ _ _, true).

Definition panicTurn : iterEnv :=
  IterEnv shortWorld false Sample.neverStop 0 [] [] Sample.allAsInserted.
End Sample4.

(** * Properties *)

(** Case analysis on the comparisons of a Go condition. *)
Ltac go_cond :=
  repeat case_match;
  repeat match goal with
         | H : (_ <? _) = true |- _ => apply Z.ltb_lt in H
         | H : (_ <? _) = false |- _ => apply Z.ltb_ge in H
         | H : (_ <=? _) = true |- _ => apply Z.leb_le in H
         | H : (_ <=? _) = false |- _ => apply Z.leb_gt in H
         | H : (_ =? _) = true |- _ => apply Z.eqb_eq in H
         | H : (_ =? _) = false |- _ => apply Z.eqb_neq in H
         end.

(** ** Arithmetic of the gap count and of [need] *)

Lemma numGaps_min cg : numGaps cg = Z.min (len (contracts cg)) (len (pieces cg)).
Proof. unfold numGaps. go_cond; lia. Qed.

Lemma needWorkers_spec maxGaps nActive nAvailable :
  needWorkers maxGaps nActive nAvailable =
  Z.min (Z.max (nActive - Z.max (maxGaps - 4) 0) (nAvailable + 1)) nActive.
Proof. unfold needWorkers; cbv zeta. go_cond; lia. Qed.

(** [maxGaps] is the largest key with a positive counter, or 0: the
    order in which the range visits [gapCounts] does not show. *)
Lemma maxGaps_spec (h : gmap Z Z) :
  0 ≤ Hist.maxGaps h
  ∧ (∀ k, 0 < Hist.get h k → k ≤ Hist.maxGaps h)
  ∧ (Hist.maxGaps h = 0 ∨ 0 < Hist.get h (Hist.maxGaps h)).
Proof.
  unfold Hist.maxGaps.
  apply (map_fold_weak_ind
           (λ r (m : gmap Z Z),
              0 ≤ r ∧ (∀ k, 0 < Hist.get m k → k ≤ r) ∧ (r = 0 ∨ 0 < Hist.get m r))).
  - split_and!; [done| |by left]. intros k. unfold Hist.get. rewrite lookup_empty. simpl. lia.
  - intros i x m r Hi (H0 & Hmax & Hr).
    assert (∀ k, Hist.get (<[i:=x]> m) k = if decide (i = k) then x else Hist.get m k) as Hget.
    { intros k. unfold Hist.get. rewrite lookup_insert. by case_decide. }
    assert (Hist.get m i = 0) as Hmi by (unfold Hist.get; by rewrite Hi).
    destruct (Z.ltb_spec r i) as [Hlt|Hge]; destruct (Z.ltb_spec 0 x) as [Hx|Hx]; simpl.
    + split_and!; [lia| |right; rewrite Hget, decide_True by done; lia].
      intros k. rewrite Hget. case_decide; [lia|]. intros Hk%Hmax. lia.
    + split_and!; [done| |].
      * intros k. rewrite Hget. case_decide; [lia|]. apply Hmax.
      * destruct Hr as [->|Hr]; [by left|right].
        rewrite Hget. case_decide; [subst; lia|done].
    + split_and!; [done| |].
      * intros k. rewrite Hget. case_decide; [lia|]. apply Hmax.
      * destruct Hr as [->|Hr]; [by left|right].
        rewrite Hget. case_decide; [subst; lia|done].
    + split_and!; [done| |].
      * intros k. rewrite Hget. case_decide; [lia|]. apply Hmax.
      * destruct Hr as [->|Hr]; [by left|right].
        rewrite Hget. case_decide; [subst; lia|done].
Qed.

(** ** Sets of workers *)

Lemma elem_of_del k x m : x ∈ GoSet.del k m ↔ x ∈ m ∧ x ≠ k.
Proof. unfold GoSet.del. rewrite list_elem_of_filter. tauto. Qed.

Lemma elem_of_add k x m : x ∈ GoSet.add k m ↔ x = k ∨ x ∈ m.
Proof.
  unfold GoSet.add. case_decide.
  - split; [tauto | intros [->|]; done].
  - rewrite elem_of_app, list_elem_of_singleton. tauto.
Qed.

Lemma NoDup_del k m : NoDup m → NoDup (GoSet.del k m).
Proof. apply NoDup_filter. Qed.

Lemma NoDup_add k m : NoDup m → NoDup (GoSet.add k m).
Proof.
  unfold GoSet.add. intros Hm. case_decide; [done|].
  apply NoDup_app. split_and!; [done| |apply NoDup_singleton].
  intros x Hx ->%list_elem_of_singleton. done.
Qed.

(** A range visits every key of the map once, whatever its order. *)
Lemma elem_of_visit order m x : x ∈ GoSet.visit order m ↔ x ∈ m.
Proof.
  unfold GoSet.visit. rewrite elem_of_app, !list_elem_of_filter.
  destruct (decide (x ∈ remove_dups order)); tauto.
Qed.

Lemma NoDup_visit order m : NoDup m → NoDup (GoSet.visit order m).
Proof.
  intros Hm. unfold GoSet.visit. apply NoDup_app. split_and!.
  - apply NoDup_filter, NoDup_remove_dups.
  - intros x [_ Hx]%list_elem_of_filter [Hnx _]%list_elem_of_filter. done.
  - by apply NoDup_filter.
Qed.

Lemma visit_Permutation order m : NoDup m → GoSet.visit order m ≡ₚ m.
Proof.
  intros Hm. apply NoDup_Permutation; [by apply NoDup_visit|done|].
  intros x. apply elem_of_visit.
Qed.

Lemma remove_dups_NoDup (l : list FileContractID) : NoDup l → remove_dups l = l.
Proof.
  induction 1 as [|x l Hx Hl IH]; simpl; [done|].
  destruct (decide_rel elem_of x l); [done|by rewrite IH].
Qed.

(** Every order of the keys is the order of some range. *)
Lemma visit_any_order order m : NoDup order → order ≡ₚ m → GoSet.visit order m = order.
Proof.
  intros Hnd Hperm. unfold GoSet.visit. rewrite (remove_dups_NoDup order Hnd).
  assert (filter (λ x, x ∈ m) order = order) as ->.
  { assert (∀ x, x ∈ order → x ∈ m) as Hall by (intros x; by rewrite Hperm).
    clear Hnd Hperm. induction order as [|x order IH]; [done|].
    rewrite filter_cons, decide_True by (apply Hall; left).
    f_equal. apply IH. intros y Hy. apply Hall. by right. }
  assert (filter (λ x, x ∉ order) m = []) as ->; [|by rewrite app_nil_r].
  assert (∀ x, x ∈ m → x ∈ order) as Hall by (intros x; by rewrite Hperm).
  clear Hperm. induction m as [|x m IH]; [done|].
  rewrite filter_cons, decide_False by (intros Hx; apply Hx, Hall; left).
  apply IH. intros y Hy. apply Hall. by right.
Qed.

Lemma elem_of_removeFirst x y l : x ∈ removeFirst y l → x ∈ l.
Proof.
  induction l as [|z l IH]; simpl; [done|].
  destruct (decide (z = y)); rewrite !elem_of_cons; tauto.
Qed.

Lemma elem_of_removeFirst_ne x y l : x ≠ y → x ∈ l → x ∈ removeFirst y l.
Proof.
  intros Hne. induction l as [|z l IH]; simpl; [done|].
  destruct (decide (z = y)) as [->|]; rewrite !elem_of_cons; intuition congruence.
Qed.

Lemma NoDup_removeFirst y l : NoDup l → NoDup (removeFirst y l).
Proof.
  induction 1 as [|z l Hz Hl IH]; simpl; [constructor|].
  case_decide; [done|]. constructor; [|done].
  intros Hin. by apply elem_of_removeFirst in Hin.
Qed.

Lemma not_elem_of_removeFirst y l : NoDup l → y ∉ removeFirst y l.
Proof.
  induction 1 as [|z l Hz Hl IH]; simpl; [apply not_elem_of_nil|].
  destruct (decide (z = y)) as [->|Hzy]; [done|].
  rewrite elem_of_cons. intros [?|?]; [congruence|done].
Qed.

Lemma elem_of_foldl_del ids x m :
  x ∈ foldl (λ a id, GoSet.del id a) m ids ↔ x ∈ m ∧ x ∉ ids.
Proof.
  revert m. induction ids as [|id ids IH]; intros m; simpl.
  - split; [intros; split; [done|apply not_elem_of_nil] | tauto].
  - rewrite IH, elem_of_del, not_elem_of_cons. tauto.
Qed.

Lemma NoDup_foldl_del ids m :
  NoDup m → NoDup (foldl (λ a id, GoSet.del id a) m ids).
Proof. revert m. induction ids; simpl; auto using NoDup_del. Qed.

Lemma NoDup_foldl_add W acc :
  NoDup acc → NoDup (foldl (λ s c, GoSet.add c s) acc W).
Proof. revert acc. induction W; simpl; auto using NoDup_add. Qed.

Lemma chunkGapsOf_NoDup {order} f W i gaps :
  chunkGapsOf order f W i = Some gaps → NoDup (contracts gaps).
Proof.
  unfold chunkGapsOf. cbv zeta.
  destruct (markPieces _ _); simpl; [|done]. intros [= <-]. simpl.
  apply NoDup_visit, NoDup_foldl_del, NoDup_foldl_add. constructor.
Qed.

(** Whatever the order of the range, the record lists the keys left in
    [potentialContractGaps]. *)
Lemma chunkGapsOf_contracts_Permutation {order} f W i gaps :
  chunkGapsOf order f W i = Some gaps →
  contracts gaps ≡ₚ foldl (λ s fcid, GoSet.del fcid s)
                          (foldl (λ s c, GoSet.add c s) [] W)
                          (default [] (contractMap f !! i)).
Proof.
  unfold chunkGapsOf. cbv zeta.
  destruct (markPieces _ _); simpl; [|done]. intros [= <-]. simpl.
  apply visit_Permutation, NoDup_foldl_del, NoDup_foldl_add. constructor.
Qed.

Lemma elem_of_foldl_removeFirst ids x cs :
  x ∈ foldl (λ c id, removeFirst id c) cs ids → x ∈ cs.
Proof.
  revert cs. induction ids as [|id ids IH]; intros cs; simpl; [done|].
  intros H%IH. by apply elem_of_removeFirst in H.
Qed.

Lemma NoDup_foldl_removeFirst ids cs :
  NoDup cs → NoDup (foldl (λ c id, removeFirst id c) cs ids).
Proof. revert cs. induction ids; simpl; auto using NoDup_removeFirst. Qed.

Lemma not_elem_of_foldl_removeFirst ids x cs :
  NoDup cs → x ∈ ids → x ∉ foldl (λ c id, removeFirst id c) cs ids.
Proof.
  revert cs. induction ids as [|id ids IH]; intros cs Hcs; simpl.
  - by intros ?%not_elem_of_nil.
  - intros [->|Hin]%elem_of_cons.
    + intros H%elem_of_foldl_removeFirst. by apply not_elem_of_removeFirst in H.
    + apply IH; [by apply NoDup_removeFirst | done].
Qed.

(** ** The useful workers of a chunk *)

Lemma elem_of_usefulWorkers x available cs :
  x ∈ usefulWorkers available cs ↔ x ∈ available ∧ x ∈ cs.
Proof.
  unfold usefulWorkers. rewrite list_elem_of_bind. split.
  - intros (w & Hin & Hw). apply list_elem_of_bind in Hin as (c & Hin & Hc).
    case_decide; [|by apply not_elem_of_nil in Hin].
    apply list_elem_of_singleton in Hin. by subst.
  - intros [Ha Hc]. exists x. split; [|done].
    apply list_elem_of_bind. exists x. split; [|done].
    case_decide; [|done]. by apply list_elem_of_singleton.
Qed.

Lemma NoDup_matches (w : N) (cs : list N) :
  NoDup cs → NoDup (cs ≫= λ c, if decide (w = c) then [w] else []).
Proof.
  induction 1 as [|c cs Hc Hcs IH]; simpl; [constructor|].
  case_decide; simpl; [|done]. subst. constructor; [|done].
  intros (c' & Hin & Hc')%list_elem_of_bind.
  case_decide; [by subst | by apply not_elem_of_nil in Hin].
Qed.

Lemma NoDup_usefulWorkers available cs :
  NoDup available → NoDup cs → NoDup (usefulWorkers available cs).
Proof.
  intros Ha Hcs. unfold usefulWorkers.
  induction Ha as [|w available Hw Ha IH]; simpl; [constructor|].
  apply NoDup_app. split_and!; [by apply NoDup_matches| |done].
  intros x (c & Hin & Hc)%list_elem_of_bind Hx.
  case_decide; [|by apply not_elem_of_nil in Hin].
  apply list_elem_of_singleton in Hin. subst.
  by apply (elem_of_usefulWorkers _ available cs) in Hx as [? _].
Qed.

(** ** The dispatch loop *)

Lemma fst_zip_take {A B} (l : list A) (k : list B) :
  (zip l k).*1 = take (length k) l.
Proof.
  revert k. induction l as [|x l IH]; intros [|y k]; simpl; try done.
  by rewrite IH.
Qed.

Lemma take_min_length {A} (l : list A) n :
  take (n `min` length l)%nat l = take n l.
Proof.
  destruct (decide (n ≤ length l)%nat).
  - by rewrite Nat.min_l.
  - rewrite Nat.min_r, firstn_all by lia. by rewrite take_ge by lia.
Qed.

(** With no stop signal taken, every worker in the pool and every piece
    index inside the encoded chunk, the loop runs through all of [work]. *)
Lemma dispatch_done w stopAt pool cid nEncoded work :
  (∀ i, stopAt i = false) →
  Forall (λ wp, is_Some (pool !! wp.1) ∧ (N.to_nat wp.2 < nEncoded)%nat) work →
  ∀ i available cs sent,
    dispatch w stopAt pool cid nEncoded i work available cs sent =
    DispatchResult LoopDone (i + length work)
      (foldl (λ a id, GoSet.del id a) available work.*1)
      (foldl (λ c id, removeFirst id c) cs work.*1)
      (sent ++ map (λ wp, (wp.1, workItem w cid wp.2)) work).
Proof.
  intros Hstop. induction 1 as [|[id p] work [[wk Hwk] Hp] _ IH];
    intros i available cs sent; simpl in *.
  - by rewrite Nat.add_0_r, app_nil_r.
  - rewrite decide_True, Hwk, Hstop by done.
    rewrite IH, <- app_assoc. simpl. f_equal. lia.
Qed.

(** Whatever ends the loop, it only removes workers from [available] and
    contracts from the chunk, and it sends to workers it removes. *)
Lemma dispatch_shrinks w stopAt pool cid nEncoded work :
  ∀ i available cs sent,
    let r := dispatch w stopAt pool cid nEncoded i work available cs sent in
    ∃ done : list (FileContractID * N),
      done `prefix_of` work ∧
      drAvailable r = foldl (λ a id, GoSet.del id a) available done.*1 ∧
      drContracts r = foldl (λ c id, removeFirst id c) cs done.*1 ∧
      (drSent r).*1 = sent.*1 ++ done.*1.
Proof.
  induction work as [|[id p] work IH]; intros i available cs sent; simpl.
  - exists []. by rewrite app_nil_r.
  - case_decide; [|exists []; split; [apply prefix_nil|by rewrite app_nil_r]].
    destruct (pool !! id); [|exists []; split; [apply prefix_nil|by rewrite app_nil_r]].
    destruct (stopAt i); [exists []; split; [apply prefix_nil|by rewrite app_nil_r]|].
    destruct (IH (S i) (GoSet.del id available) (removeFirst id cs)
                 (sent ++ [(id, workItem w cid p)]))
      as (done & Hpre & Ha & Hc & Hs).
    exists ((id, p) :: done). split_and!; simpl.
    + by apply prefix_cons.
    + done.
    + done.
    + rewrite Hs, fmap_app, <- app_assoc. done.
Qed.

(** The gate of the scan: [maxGaps >= 4 && len(usefulWorkers) < 4]. *)
Lemma scanChunk_gate_closed w stopAt pool maxGaps retired available h cid cg :
  4 ≤ maxGaps →
  len (usefulWorkers available (contracts cg)) < 4 →
  scanChunk w stopAt pool maxGaps retired available h cid cg =
  let '(cg', h') := deprioritize retired cg h in Skipped cg' h'.
Proof.
  intros H1%Z.leb_le H2%Z.ltb_lt. unfold scanChunk; cbv zeta.
  by rewrite H1, H2.
Qed.

(** The guard of the histogram update in the deprioritising branch can
    never hold: [numGaps()] is at most [len(contracts)]. *)
Lemma deprioritize_purges retired cg h :
  deprioritize retired cg h =
  ({| contracts := purgeRetired retired (contracts cg);
      pieces := pieces cg;
      numGapsField := numGapsField cg |}, h).
Proof.
  unfold deprioritize; cbv zeta. rewrite numGaps_min; simpl.
  destruct (_ <? _) eqn:E1; [|done].
  destruct (_ <? Z.min _ _) eqn:E2; [|done].
  apply Z.ltb_lt in E1, E2. lia.
Qed.

Lemma scanChunk_accepted w stopAt pool maxGaps retired available h cid cg nEncoded :
  let useful := usefulWorkers available (contracts cg) in
  let n := (length useful `min` length (pieces cg))%nat in
  let contracts' := foldl (λ c id, removeFirst id c) (contracts cg) (take n useful) in
  let pieces' := drop n (pieces cg) in
  let newNumGaps := if len contracts' <? len pieces' then len contracts' else len pieces' in
  ¬ (4 ≤ maxGaps ∧ len useful < 4) →
  files w (filename cid) = true →
  tracking w (filename cid) = true →
  openRepairPath w (filename cid) = true →
  readAt w cid = true →
  encode w cid = Some nEncoded →
  (∀ i, stopAt i = false) →
  (∀ id, id ∈ useful → is_Some (pool !! id)) →
  (∀ p, p ∈ pieces cg → (N.to_nat p < nEncoded)%nat) →
  scanChunk w stopAt pool maxGaps retired available h cid cg =
  Dispatched {| contracts := contracts'; pieces := pieces'; numGapsField := newNumGaps |}
             (Hist.bump newNumGaps 1 (Hist.bump (numGapsField cg) (-1) h))
             (foldl (λ a id, GoSet.del id a) available (take n useful))
             (map (λ wp, (wp.1, workItem w cid wp.2)) (zip useful (pieces cg))).
Proof.
  intros useful n contracts' pieces' newNumGaps Hgate Hf Ht Ho Hr He Hstop Hpool Hidx.
  unfold scanChunk; cbv zeta. fold useful.
  replace ((4 <=? maxGaps) && (len useful <? 4)) with false; cycle 1.
  { symmetry. apply andb_false_iff.
    destruct (Z.leb_spec 4 maxGaps), (Z.ltb_spec (len useful) 4); auto.
    exfalso. apply Hgate. lia. }
  rewrite Hf, Ht, Ho, Hr, He. simpl negb. cbv iota.
  rewrite (dispatch_done w stopAt pool cid nEncoded (zip useful (pieces cg)) Hstop).
  2:{ apply Forall_forall. intros [id p] Hin. simpl.
      split; [apply Hpool|apply Hidx].
      - by apply elem_of_zip_l in Hin.
      - by apply elem_of_zip_r in Hin. }
  simpl. rewrite fst_zip_take, length_zip.
  assert (take (length (pieces cg)) useful = take n useful) as ->.
  { unfold n. rewrite Nat.min_comm. by rewrite take_min_length. }
  done.
Qed.

(** Every work item of a scan belongs to one and the same chunk. *)
Lemma dispatch_sent_for w stopAt pool cid nEncoded work :
  ∀ i available cs sent,
    Forall (λ x : FileContractID * uploadWork,
              uwChunkIndex x.2 = chunkIndex cid ∧ uwFile x.2 = filename cid) sent →
    Forall (λ x : FileContractID * uploadWork,
              uwChunkIndex x.2 = chunkIndex cid ∧ uwFile x.2 = filename cid)
           (drSent (dispatch w stopAt pool cid nEncoded i work available cs sent)).
Proof.
  induction work as [|[id p] work IH]; intros i available cs sent Hsent; simpl; [done|].
  case_decide; [|done]. destruct (pool !! id); [|done]. destruct (stopAt i); [done|].
  apply IH. apply Forall_app. split; [done|]. by repeat constructor.
Qed.

Lemma scan_dispatches_one_chunk w stopAt pool maxGaps retired available h todo :
  let r := scan w stopAt pool maxGaps retired available h todo in
  srSent r = [] ∨
  ∃ cid, cid ∈ todo.*1 ∧
         Forall (λ x : FileContractID * uploadWork,
                   uwChunkIndex x.2 = chunkIndex cid ∧ uwFile x.2 = filename cid)
                (srSent r).
Proof.
  revert h. induction todo as [|[cid cg] todo IH]; intros h; simpl; [by left|].
  assert (∀ nEncoded,
            Forall (λ x : FileContractID * uploadWork,
                      uwChunkIndex x.2 = chunkIndex cid ∧ uwFile x.2 = filename cid)
                   (drSent (dispatch w stopAt pool cid nEncoded 0
                              (zip (usefulWorkers available (contracts cg)) (pieces cg))
                              available (contracts cg) []))) as Hsent.
  { intros nEncoded. by apply dispatch_sent_for. }
  unfold scanChunk; cbv zeta.
  destruct (_ && _).
  { rewrite deprioritize_purges. simpl. destruct (IH h) as [Hnil|(c & Hc & Hall)]; [by left|].
    right. exists c. split; [by right|done]. }
  repeat (match goal with |- context [if negb ?b then _ else _] => destruct b; simpl end;
          [|destruct (IH h) as [Hnil|(c & Hc & Hall)];
            [by left|right; exists c; split; [by right|done]]]).
  destruct (encode w cid) as [nEncoded|]; simpl;
    [|destruct (IH h) as [Hnil|(c & Hc & Hall)];
      [by left|right; exists c; split; [by right|done]]].
  specialize (Hsent nEncoded).
  destruct (drEnd _); simpl; right; exists cid; (split; [left|done]).
Qed.

(** ** Dispatching to an accepted chunk *)

(** X26.  When the scan reaches a chunk that passes the batching gate and
    whose file is present, tracked, readable, encoded and encrypted
    without error (and no send is pre-empted by the stop signal, every
    useful worker is in the pool and every missing piece index lies in
    the encoded chunk), it sends exactly min(|usefulWorkers|, |missing
    pieces|) work items, the i-th carrying piece missing-pieces[i] to
    usefulWorkers[i]; each of these workers leaves Available and loses
    one occurrence in the chunk's missing contracts (all of them when the
    contracts are duplicate-free); that many pieces are dropped from the
    front of the missing pieces; and the scan stops there, leaving the
    remaining chunks untouched.  The count stored in the record becomes
    the minimum of the two lengths; the histogram bucket that loses one
    is the bucket of the count that was stored in the record, which is 0
    for a record fresh from the builder and so need not be the bucket
    that counted the chunk. *)
Theorem scan_dispatches_accepted_chunk
    w stopAt pool maxGaps retired available h cid cg todo nEncoded :
  let useful := usefulWorkers available (contracts cg) in
  let n := (length useful `min` length (pieces cg))%nat in
  ¬ (4 ≤ maxGaps ∧ len useful < 4) →
  files w (filename cid) = true →
  tracking w (filename cid) = true →
  openRepairPath w (filename cid) = true →
  readAt w cid = true →
  encode w cid = Some nEncoded →
  (∀ p, (N.to_nat p < nEncoded)%nat → encryptBytes w cid p = true) →
  (∀ i, stopAt i = false) →
  (∀ id, id ∈ useful → is_Some (pool !! id)) →
  (∀ p, p ∈ pieces cg → (N.to_nat p < nEncoded)%nat) →
  ∃ cg' h' available' sent,
    scan w stopAt pool maxGaps retired available h ((cid, cg) :: todo) =
      ScanResult LoopDone ((cid, cg') :: todo) h' available' sent
    ∧ length sent = n
    ∧ (∀ i id p, useful !! i = Some id → pieces cg !! i = Some p →
         sent !! i = Some (id, UploadWork (chunkIndex cid) (filename cid) p Ciphertext))
    ∧ (∀ id, id ∈ available' ↔ id ∈ available ∧ id ∉ take n useful)
    ∧ contracts cg' = foldl (λ c id, removeFirst id c) (contracts cg) (take n useful)
    ∧ (NoDup (contracts cg) → ∀ id, id ∈ take n useful → id ∉ contracts cg')
    ∧ pieces cg' = drop n (pieces cg)
    ∧ numGapsField cg' = Z.min (len (pieces cg')) (len (contracts cg'))
    ∧ h' = Hist.bump (numGapsField cg') 1 (Hist.bump (numGapsField cg) (-1) h).
Proof.
  intros useful n Hgate Hf Ht Ho Hr He Henc Hstop Hpool Hidx.
  pose proof (scanChunk_accepted w stopAt pool maxGaps retired available h cid cg
                nEncoded Hgate Hf Ht Ho Hr He Hstop Hpool Hidx) as Hsc.
  cbv zeta in Hsc. fold useful in Hsc. fold n in Hsc.
  eexists _, _, _, _. split; [simpl; rewrite Hsc; reflexivity|].
  simpl. split_and!.
  - rewrite length_map, length_zip. done.
  - intros i id p Hu Hp. rewrite list_lookup_fmap.
    rewrite (proj2 (lookup_zip_with_Some pair useful (pieces cg) i (id, p))); [|eauto].
    simpl. unfold workItem. rewrite Henc; [done|].
    apply Hidx. by eapply list_elem_of_lookup_2.
  - intros id. apply elem_of_foldl_del.
  - done.
  - intros Hnd id Hin. by apply not_elem_of_foldl_removeFirst.
  - done.
  - go_cond; lia.
  - done.
Qed.

Lemma scan_dispatches_accepted_chunk_witness :
  ∃ cg' h' available' sent,
    scan Sample.okWorld Sample.neverStop Sample.pool5 5 [] [4; 2; 5; 3; 1]%N {[5 := 2]}
         [(Sample.chunk0, ChunkGaps [4; 2; 5; 3; 1]%N [0; 1; 2; 3; 4]%N 0);
          (Sample.chunk1, Sample.gaps5)] =
      ScanResult LoopDone [(Sample.chunk0, cg'); (Sample.chunk1, Sample.gaps5)]
                 h' available' sent
    ∧ length sent = 5%nat
    ∧ sent !! 1%nat = Some (2%N, UploadWork 0 "f" 1 Ciphertext)
    ∧ pieces cg' = []
    ∧ numGapsField cg' = 0
    ∧ h' = Hist.bump 0 1 (Hist.bump 0 (-1) {[5 := 2]}).
Proof.
  destruct (scan_dispatches_accepted_chunk
              Sample.okWorld Sample.neverStop Sample.pool5 5 [] [4; 2; 5; 3; 1]%N {[5 := 2]}
              Sample.chunk0 (ChunkGaps [4; 2; 5; 3; 1]%N [0; 1; 2; 3; 4]%N 0)
              [(Sample.chunk1, Sample.gaps5)] 5%nat)
    as (cg' & h' & available' & sent & Hscan & Hlen & Hitem & _ & Hc & _ & Hp & Hfield & Hh).
  - intros [_ H]. vm_compute in H. discriminate H.
  - reflexivity.
  - reflexivity.
  - reflexivity.
  - reflexivity.
  - reflexivity.
  - reflexivity.
  - reflexivity.
  - intros id Hin. vm_compute in Hin.
    repeat (apply elem_of_cons in Hin as [->|Hin]; [by eexists|]).
    by apply not_elem_of_nil in Hin.
  - intros p Hin. simpl in Hin.
    repeat (apply elem_of_cons in Hin as [->|Hin]; [simpl; lia|]).
    by apply not_elem_of_nil in Hin.
  - assert (numGapsField cg' = 0) as Hzero
      by (rewrite Hfield, Hp, Hc; vm_compute; reflexivity).
    exists cg', h', available', sent.
    split_and!; [exact Hscan|exact Hlen| |exact Hp|exact Hzero|].
    + apply (Hitem 1%nat); reflexivity.
    + rewrite Hh, Hzero. reflexivity.
Defined.

(** ** The batching threshold *)

(** X27.  With maxGaps >= 4, a scanned chunk that has fewer than 4 useful
    workers is skipped: nothing is sent for it, its missing contracts lose
    the retired workers, and the scan goes on with the remaining chunks;
    its pieces, the count stored in its record, the histogram and the
    worker sets stay as they are, also when the purge has lowered the
    chunk's gap count.  With maxGaps < 4 the chunk passes the gate
    whatever the number of useful workers: once its file is present,
    tracked, readable and encoded (and the sends go through),
    min(|usefulWorkers|, |missing pieces|) work items are sent for it, so
    at least one as soon as a useful worker and a missing piece exist. *)
Theorem batching_gate_outcome
    w stopAt pool maxGaps retired available h cid cg todo :
  let useful := usefulWorkers available (contracts cg) in
  (4 ≤ maxGaps → len useful < 4 →
     let cg' := {| contracts := purgeRetired retired (contracts cg);
                   pieces := pieces cg;
                   numGapsField := numGapsField cg |} in
     let rest := scan w stopAt pool maxGaps retired available h todo in
     scanChunk w stopAt pool maxGaps retired available h cid cg = Skipped cg' h
     ∧ scan w stopAt pool maxGaps retired available h ((cid, cg) :: todo) =
       ScanResult (srEnd rest) ((cid, cg') :: srMatrix rest)
                  (srGapCounts rest) (srAvailable rest) (srSent rest))
  ∧ (maxGaps < 4 →
     ∀ nEncoded,
       files w (filename cid) = true →
       tracking w (filename cid) = true →
       openRepairPath w (filename cid) = true →
       readAt w cid = true →
       encode w cid = Some nEncoded →
       (∀ i, stopAt i = false) →
       (∀ id, id ∈ useful → is_Some (pool !! id)) →
       (∀ p, p ∈ pieces cg → (N.to_nat p < nEncoded)%nat) →
       ∃ cg' h' available' sent,
         scanChunk w stopAt pool maxGaps retired available h cid cg =
           Dispatched cg' h' available' sent
         ∧ length sent = (length useful `min` length (pieces cg))%nat
         ∧ (useful ≠ [] → pieces cg ≠ [] → sent ≠ [])).
Proof.
  intros useful. split.
  - intros Hmax Hfew cg' rest.
    assert (scanChunk w stopAt pool maxGaps retired available h cid cg = Skipped cg' h)
      as Hskip.
    { rewrite scanChunk_gate_closed by done. by rewrite deprioritize_purges. }
    split; [done|]. simpl. by rewrite Hskip.
  - intros Hmax nEncoded Hf Ht Ho Hr He Hstop Hpool Hidx.
    eexists _, _, _, _. split.
    + apply (scanChunk_accepted w stopAt pool maxGaps retired available h cid cg nEncoded);
        try done. lia.
    + split; [by rewrite length_map, length_zip|].
      fold useful. destruct useful as [|u us]; [done|].
      destruct (pieces cg) as [|p ps]; done.
Qed.

Lemma batching_gate_outcome_witness :
  scanChunk Sample.okWorld Sample.neverStop Sample.pool5 5 [3%N] [1; 2; 4]%N {[5 := 1]}
            Sample.chunk1 Sample.gaps5 =
    Skipped (ChunkGaps [1; 2; 4; 5]%N [0; 1; 2; 3; 4]%N 0) {[5 := 1]}
  ∧ ∃ cg' h' available' sent,
      scanChunk Sample.okWorld Sample.neverStop Sample.pool5 2 [] [1; 2; 3]%N {[2 := 1]}
                Sample.chunk0 Sample.gaps2 = Dispatched cg' h' available' sent
      ∧ length sent = 2%nat.
Proof.
  split.
  - apply (batching_gate_outcome
             Sample.okWorld Sample.neverStop Sample.pool5 5 [3%N] [1; 2; 4]%N {[5 := 1]}
             Sample.chunk1 Sample.gaps5 []).
    + lia.
    + vm_compute. reflexivity.
  - destruct (batching_gate_outcome
                Sample.okWorld Sample.neverStop Sample.pool5 2 [] [1; 2; 3]%N {[2 := 1]}
                Sample.chunk0 Sample.gaps2 []) as [_ Hopen].
    destruct (Hopen ltac:(lia) 5%nat) as (cg' & h' & available' & sent & Hsc & Hlen & _);
      try reflexivity.
    + intros id Hin. vm_compute in Hin.
      apply elem_of_cons in Hin as [->|Hin]; [by eexists|].
      apply list_elem_of_singleton in Hin as ->. by eexists.
    + intros p Hin. unfold Sample.gaps2 in Hin. simpl in Hin.
      apply elem_of_cons in Hin as [->|Hin]; [simpl; lia|].
      apply list_elem_of_singleton in Hin as ->. simpl; lia.
    + exists cg', h', available', sent. split; [exact Hsc|exact Hlen].
Defined.

(** ** The wait threshold and the one-hour limit *)

(** C6.  In a turn that reaches the wait (work is left and the scan was
    neither stopped nor panicked): within the first hour the scheduler
    waits for need = max(len(Active) - max(maxGaps - 4, 0),
    len(Available) + 1) capped at len(Active) available workers and, once
    the wait completes, folds the new files and takes another turn; after
    more than an hour it waits for len(Active) workers instead and, once
    that wait completes, leaves the loop, which ends the epoch. *)
Theorem C6_need_and_timeout env s :
  let maxGaps := Hist.maxGaps (gapCounts s) in
  let r := scanMatrix env s in
  let s1 := afterScan s r in
  let nActive := len (activeWorkers s1) in
  let nAvailable := len (availableWorkers s1) in
  let need := Z.min (Z.max (nActive - Z.max (maxGaps - 4) 0) (nAvailable + 1)) nActive in
  maxGaps ≠ 0 →
  srEnd r = LoopDone →
  (sinceStart env ≤ Hour →
     needOf env maxGaps s1 = (need, false)
     ∧ ∀ s2 need',
         waitForWorkers (results env) s1 need = (WaitDone, s2, need') →
         iteration env s =
           match drainNewFiles (rangeOrder env) (newFiles env) s2 with
           | None => Outcome Panic s2 (srSent r)
           | Some s3 => Outcome Continue s3 (srSent r)
           end)
  ∧ (Hour < sinceStart env →
     needOf env maxGaps s1 = (nActive, true)
     ∧ ∀ s2 need',
         waitForWorkers (results env) s1 nActive = (WaitDone, s2, need') →
         iteration env s = Outcome EpochEnd s2 (srSent r)).
Proof.
  intros maxGaps r s1 nActive nAvailable need Hmax Hend.
  assert (iteration env s =
          let '(need, newMatrix) := needOf env maxGaps s1 in
          match waitForWorkers (results env) s1 need with
          | (WaitStopped, s2, _) => Outcome Stopped s2 (srSent r)
          | (WaitBlocked, s2, _) => Outcome Blocked s2 (srSent r)
          | (WaitDone, s2, _) =>
              if newMatrix then Outcome EpochEnd s2 (srSent r)
              else match drainNewFiles (rangeOrder env) (newFiles env) s2 with
                   | None => Outcome Panic s2 (srSent r)
                   | Some s3 => Outcome Continue s3 (srSent r)
                   end
          end) as Hit.
  { unfold iteration. fold maxGaps. fold r. fold s1.
    destruct (stopAtStart env); simpl;
      (destruct (Z.eqb_spec maxGaps 0); [done|]); by rewrite Hend. }
  split; intros Htime.
  - assert (needOf env maxGaps s1 = (need, false)) as Hneed.
    { unfold needOf. rewrite needWorkers_spec.
      destruct (Z.ltb_spec Hour (sinceStart env)); [lia|done]. }
    split; [done|]. intros s2 need' Hwait. by rewrite Hit, Hneed, Hwait.
  - assert (needOf env maxGaps s1 = (nActive, true)) as Hneed.
    { unfold needOf. destruct (Z.ltb_spec Hour (sinceStart env)); [done|lia]. }
    split; [done|]. intros s2 need' Hwait. by rewrite Hit, Hneed, Hwait.
Qed.

Lemma C6_need_and_timeout_witness :
  needOf Sample2.earlyTurn 5 (afterScan Sample2.midEpoch (scanMatrix Sample2.earlyTurn Sample2.midEpoch)) = (4, false)
  ∧ oStatus (iteration Sample2.earlyTurn Sample2.midEpoch) = Continue
  ∧ needOf Sample2.lateTurn 5 (afterScan Sample2.midEpoch (scanMatrix Sample2.lateTurn Sample2.midEpoch)) = (4, true)
  ∧ oStatus (iteration Sample2.lateTurn Sample2.midEpoch) = EpochEnd.
Proof.
  destruct (C6_need_and_timeout Sample2.earlyTurn Sample2.midEpoch) as [Hearly _];
    [vm_compute; discriminate | vm_compute; reflexivity |].
  destruct (C6_need_and_timeout Sample2.lateTurn Sample2.midEpoch) as [_ Hlate];
    [vm_compute; discriminate | vm_compute; reflexivity |].
  destruct Hearly as [Hn1 Hi1]; [vm_compute; discriminate|].
  destruct Hlate as [Hn2 Hi2]; [vm_compute; reflexivity|].
  split_and!.
  - exact Hn1.
  - erewrite Hi1; [|vm_compute; reflexivity]. vm_compute. reflexivity.
  - exact Hn2.
  - erewrite Hi2; [|vm_compute; reflexivity]. reflexivity.
Defined.

(** ** Eligibility at the start of an epoch *)

Lemma elem_of_eligibleWorkers pool clk id :
  id ∈ eligibleWorkers pool clk ↔
  ∃ wk, pool !! id = Some wk ∧ recentUploadFailure wk + Hour < clk id.
Proof.
  unfold eligibleWorkers. rewrite list_elem_of_bind. split.
  - intros [[id' wk] [Hin Hpool]]. apply elem_of_map_to_list in Hpool.
    destruct (Z.ltb_spec (recentUploadFailure wk + Hour) (clk id')) as [Hlt|Hge].
    + apply list_elem_of_singleton in Hin as ->. eauto.
    + by apply not_elem_of_nil in Hin.
  - intros (wk & Hpool & Hlt). exists (id, wk). split.
    + apply Z.ltb_lt in Hlt. rewrite Hlt. by apply list_elem_of_singleton.
    + by apply elem_of_map_to_list.
Qed.

Lemma startOfEpoch_workers e pool s :
  startOfEpoch e pool = Some s →
  availableWorkers s = eligibleWorkers pool (clock e)
  ∧ activeWorkers s = eligibleWorkers pool (clock e)
  ∧ retiredWorkers s = []
  ∧ workerPool s = pool
  ∧ createRepairMatrix (buildOrder e) (rFiles e) (rTracking e) (eligibleWorkers pool (clock e)) =
      Some (repairMatrix s, gapCounts s).
Proof.
  unfold startOfEpoch. cbv zeta.
  destruct (createRepairMatrix _ _ _) as [[m h]|]; simpl; [|done].
  by intros [= <-].
Qed.

(** C8.  The clock reads later than one hour past the zero time.  Then the
    epoch's initial available set holds exactly the workers of the pool
    whose last upload failure is unset (the zero time) or more than one
    hour before the clock reading; a worker whose failure lies within the
    last hour is left out. *)
Theorem C8_eligible_at_epoch_start e pool s id :
  (∀ id', Hour < clock e id') →
  startOfEpoch e pool = Some s →
  (id ∈ availableWorkers s ↔
     ∃ wk, pool !! id = Some wk ∧
           (recentUploadFailure wk = 0 ∨ recentUploadFailure wk + Hour < clock e id))
  ∧ (∀ wk, pool !! id = Some wk →
           recentUploadFailure wk ≤ clock e id →
           clock e id - Hour ≤ recentUploadFailure wk →
           id ∉ availableWorkers s).
Proof.
  intros Hclock (-> & _)%startOfEpoch_workers. split.
  - rewrite elem_of_eligibleWorkers. split.
    + intros (wk & Hwk & Hlt). eauto.
    + intros (wk & Hwk & [H0|Hlt]); exists wk; split; try done.
      rewrite H0. apply Hclock.
  - intros wk Hwk _ Hrecent (wk' & Hwk' & Hlt)%elem_of_eligibleWorkers.
    rewrite Hwk in Hwk'. injection Hwk' as <-. lia.
Qed.

Lemma C8_eligible_at_epoch_start_witness :
  ∃ s, startOfEpoch Sample2.epoch0 Sample2.poolFailed3 = Some s
       ∧ 1%N ∈ availableWorkers s ∧ 3%N ∉ availableWorkers s.
Proof.
  destruct (startOfEpoch Sample2.epoch0 Sample2.poolFailed3)
    as [s|] eqn:Hs; [|vm_compute in Hs; discriminate Hs].
  exists s. split; [reflexivity|].
  split.
  - apply (C8_eligible_at_epoch_start Sample2.epoch0 Sample2.poolFailed3 s 1%N); [|exact Hs|].
    + intros id'. vm_compute. reflexivity.
    + exists (Worker 0). split; [vm_compute; reflexivity|]. left. reflexivity.
  - apply (C8_eligible_at_epoch_start Sample2.epoch0 Sample2.poolFailed3 s 3%N) with (wk := Worker (Hour + 5));
      [|exact Hs| | |].
    + intros id'. vm_compute. reflexivity.
    + vm_compute. reflexivity.
    + vm_compute. discriminate.
    + vm_compute. discriminate.
Defined.

(** ** Results of uploads *)

Lemma waitForWorkers_cons id err now events s need :
  waitForWorkers (Finished id err now :: events) s need =
  if len (availableWorkers s) <? need
  then let '(s', need') := handleResult s need id err now in
       waitForWorkers events s' need'
  else (WaitDone, s, need).
Proof. reflexivity. Qed.

Lemma waitForWorkers_enough events s need :
  (len (availableWorkers s) <? need) = false →
  waitForWorkers events s need = (WaitDone, s, need).
Proof. intros E. destruct events; simpl; by rewrite E. Qed.

(** C10.  A failure result whose worker identity is not in the worker
    pool changes nothing: the scheduler state (failure timestamps, the
    retired list, Active, Available) and need are what they were, and the
    wait goes on as if the result had not arrived. *)
Theorem C10_failure_of_unknown_worker s need id now events :
  workerPool s !! id = None →
  handleResult s need id true now = (s, need)
  ∧ waitForWorkers (Finished id true now :: events) s need =
    waitForWorkers events s need.
Proof.
  intros Hnone.
  assert (handleResult s need id true now = (s, need)) as Hh.
  { unfold handleResult. by rewrite Hnone. }
  split; [done|]. rewrite waitForWorkers_cons, Hh.
  destruct (len (availableWorkers s) <? need) eqn:E; [done|].
  by rewrite waitForWorkers_enough.
Qed.

Lemma C10_failure_of_unknown_worker_witness :
  handleResult Sample2.midEpoch 4 9%N true 77 = (Sample2.midEpoch, 4)
  ∧ waitForWorkers [Finished 9 true 77; Finished 5 false 0] Sample2.midEpoch 4 =
    waitForWorkers [Finished 5 false 0] Sample2.midEpoch 4.
Proof.
  apply (C10_failure_of_unknown_worker Sample2.midEpoch 4 9%N 77 [Finished 5 false 0]).
  vm_compute. reflexivity.
Defined.

(** ** The repair matrix and the histogram as maps *)

Lemma lookup_store_eq cid g (m : list (chunkID * chunkGaps)) :
  Matrix.lookup cid (Matrix.store cid g m) = Some g.
Proof.
  induction m as [|[k v] m IH]; simpl.
  - by rewrite decide_True.
  - destruct (decide (k = cid)); simpl; [by rewrite decide_True|].
    by rewrite decide_False.
Qed.

Lemma lookup_store_ne cid cid' g (m : list (chunkID * chunkGaps)) :
  cid ≠ cid' → Matrix.lookup cid' (Matrix.store cid g m) = Matrix.lookup cid' m.
Proof.
  intros Hne. induction m as [|[k v] m IH]; simpl.
  - by rewrite decide_False.
  - destruct (decide (k = cid)) as [->|]; simpl.
    + by rewrite !decide_False.
    + by rewrite IH.
Qed.

Lemma store_same cid g (m : list (chunkID * chunkGaps)) :
  Matrix.lookup cid m = Some g → Matrix.store cid g m = m.
Proof.
  induction m as [|[k v] m IH]; simpl; [done|].
  destruct (decide (k = cid)); [by intros [= ->]|].
  intros H. by rewrite IH.
Qed.

Lemma store_keys_subset cid g (m : list (chunkID * chunkGaps)) k :
  k ∈ (Matrix.store cid g m).*1 ↔ k = cid ∨ k ∈ m.*1.
Proof.
  induction m as [|[k' v] m IH]; simpl.
  - rewrite list_elem_of_singleton. split; [tauto|intros [?|?%not_elem_of_nil]; done].
  - destruct (decide (k' = cid)) as [->|]; simpl; rewrite !elem_of_cons; [tauto|].
    rewrite IH. tauto.
Qed.

Lemma storeAll_cons m k g es :
  storeAll m ((k, g) :: es) = storeAll (Matrix.store k g m) es.
Proof. reflexivity. Qed.

Lemma bumpAll_cons h k g es :
  bumpAll h ((k, g) :: es) = bumpAll (Hist.bump (numGaps g) 1 h) es.
Proof. reflexivity. Qed.

Lemma lookup_storeAll_notin es m cid :
  cid ∉ es.*1 → Matrix.lookup cid (storeAll m es) = Matrix.lookup cid m.
Proof.
  revert m. induction es as [|[k g] es IH]; intros m Hnotin; [done|].
  simpl in Hnotin. apply not_elem_of_cons in Hnotin as [Hne Hnotin].
  rewrite storeAll_cons, IH by done. by apply lookup_store_ne.
Qed.

Lemma lookup_storeAll_in es m cid g :
  NoDup es.*1 → (cid, g) ∈ es → Matrix.lookup cid (storeAll m es) = Some g.
Proof.
  revert m. induction es as [|[k g'] es IH]; intros m Hnd Hin.
  - by apply not_elem_of_nil in Hin.
  - simpl in Hnd. apply NoDup_cons in Hnd as [Hk Hnd]. rewrite storeAll_cons.
    apply elem_of_cons in Hin as [[= -> ->]|Hin].
    + rewrite lookup_storeAll_notin by done. apply lookup_store_eq.
    + by apply IH.
Qed.

Lemma storeAll_same es m :
  (∀ cid g, (cid, g) ∈ es → Matrix.lookup cid m = Some g) → storeAll m es = m.
Proof.
  induction es as [|[k g] es IH]; intros Hall; [done|].
  rewrite storeAll_cons, store_same by (apply Hall; left).
  apply IH. intros cid g' Hin. apply Hall. by right.
Qed.

Lemma get_bump k d h k' :
  Hist.get (Hist.bump k d h) k' = if decide (k = k') then Hist.get h k + d else Hist.get h k'.
Proof.
  unfold Hist.bump, Hist.get at 1. rewrite lookup_insert. by case_decide.
Qed.

Lemma get_bumpAll es h k :
  Hist.get (bumpAll h es) k = Hist.get h k + gapCountOf es k.
Proof.
  revert h. induction es as [|[cid g] es IH]; intros h.
  - unfold gapCountOf, len, bumpAll. simpl. lia.
  - rewrite bumpAll_cons, IH, get_bump. unfold gapCountOf.
    rewrite filter_cons. simpl.
    destruct (decide (numGaps g = k)) as [->|]; unfold len; simpl length; lia.
Qed.

(** ** The builder, run once and run again *)

Lemma foldl_addChunk_None {order} f W l : foldl (addChunk order f W) None l = None.
Proof. induction l; simpl; done. Qed.

(** A run stores the fresh entries, one after the other, and counts each
    of them in the histogram. *)
Lemma addFile_stores {order} f W l m h :
  foldl (addChunk order f W) (Some (m, h)) l =
  es ← freshEntries order f W l; Some (storeAll m es, bumpAll h es).
Proof.
  revert m h. induction l as [|i l IH]; intros m h; simpl; [done|].
  destruct (incomplete f i); simpl; [|apply IH].
  destruct (chunkGapsOf order f W i) as [g|]; simpl; [|apply foldl_addChunk_None].
  rewrite IH. destruct (freshEntries order f W l); simpl; [|done].
  by rewrite storeAll_cons, bumpAll_cons.
Qed.

Lemma chunkRange_NoDup f : NoDup (chunkRange f).
Proof.
  unfold chunkRange. apply NoDup_fmap_2; [|apply NoDup_seq].
  intros x y. apply Nat2N.inj.
Qed.

Lemma freshEntries_keys {order} f W l es :
  freshEntries order f W l = Some es →
  ∀ cid, cid ∈ es.*1 → ∃ i, i ∈ l ∧ incomplete f i = true ∧ cid = ChunkID i (name f).
Proof.
  revert es. induction l as [|i l IH]; intros es; simpl.
  - intros [= <-] cid Hin. by apply not_elem_of_nil in Hin.
  - destruct (incomplete f i) eqn:Hinc.
    + destruct (chunkGapsOf order f W i) as [g|]; simpl; [|done].
      destruct (freshEntries order f W l) as [es'|]; simpl; [|done].
      intros [= <-] cid. simpl. intros [->|Hin]%elem_of_cons.
      * exists i. split; [left|done].
      * destruct (IH es' eq_refl cid Hin) as (j & Hj & Hrest).
        exists j. split; [by right|done].
    + intros Hes cid Hin. destruct (IH es Hes cid Hin) as (j & Hj & Hrest).
      exists j. split; [by right|done].
Qed.

Lemma freshEntries_NoDup {order} f W l es :
  NoDup l → freshEntries order f W l = Some es → NoDup es.*1.
Proof.
  intros Hl. revert es. induction Hl as [|i l Hi Hl IH]; intros es; simpl.
  - intros [= <-]. constructor.
  - destruct (incomplete f i); [|apply IH].
    destruct (chunkGapsOf order f W i) as [g|]; simpl; [|done].
    destruct (freshEntries order f W l) as [es'|] eqn:Hes; simpl; [|done].
    intros [= <-]. simpl. constructor; [|by apply IH].
    intros Hin. destruct (freshEntries_keys f W l es' Hes _ Hin) as (j & Hj & _ & [= ->]).
    done.
Qed.

Lemma freshEntries_complete {order} f W l es i :
  freshEntries order f W l = Some es → i ∈ l → incomplete f i = true →
  ∃ gaps, chunkGapsOf order f W i = Some gaps ∧ (ChunkID i (name f), gaps) ∈ es.
Proof.
  revert es. induction l as [|j l IH]; intros es; simpl.
  - intros _ Hin. by apply not_elem_of_nil in Hin.
  - intros Hes Hin Hinc. destruct (decide (i = j)) as [->|Hne].
    + rewrite Hinc in Hes. destruct (chunkGapsOf order f W j) as [g|]; simpl in *; [|done].
      destruct (freshEntries order f W l) as [es'|]; simpl in *; [|done].
      injection Hes as <-. exists g. split; [done|left].
    + apply elem_of_cons in Hin as [?|Hin]; [done|].
      destruct (incomplete f j).
      * destruct (chunkGapsOf order f W j) as [g|]; simpl in *; [|done].
        destruct (freshEntries order f W l) as [es'|]; simpl in *; [|done].
        injection Hes as <-. destruct (IH es' eq_refl Hin Hinc) as (gaps & Hg & Hin').
        exists gaps. split; [done|by right].
      * by apply IH.
Qed.

(** *** A second run, whose ranges may take another order *)

Lemma sameGaps_refl g : sameGaps g g.
Proof. by split_and!. Qed.

Lemma sameMatrix_refl m : sameMatrix m m.
Proof. induction m; constructor; [split; [done|apply sameGaps_refl]|done]. Qed.

Lemma sameMatrix_keys m m' : sameMatrix m m' → m'.*1 = m.*1.
Proof.
  induction 1 as [|e e' m m' [He _] _ IH]; [done|].
  rewrite !fmap_cons. by rewrite He, IH.
Qed.

Lemma sameGaps_numGaps g g' : sameGaps g g' → numGaps g' = numGaps g.
Proof.
  intros (Hc & Hp & _). rewrite !numGaps_min. unfold len.
  apply Permutation_length in Hc. by rewrite Hc, Hp.
Qed.

Lemma gapCountOf_sameMatrix es es' k :
  sameMatrix es es' → gapCountOf es' k = gapCountOf es k.
Proof.
  unfold gapCountOf, len.
  induction 1 as [|e e' es es' [_ Hg%sameGaps_numGaps] _ IH]; [done|].
  rewrite !filter_cons, Hg. case_decide; simpl length; lia.
Qed.

Lemma store_sameMatrix cid g g' m m' :
  sameGaps g g' → sameMatrix m m' →
  sameMatrix (Matrix.store cid g m) (Matrix.store cid g' m').
Proof.
  intros Hg. unfold sameMatrix.
  induction 1 as [|[k v] [k' v'] m m' [Hk Hv] Hm IH]; simpl in *.
  - constructor; [by split|constructor].
  - subst k'. case_decide; constructor; done.
Qed.

Lemma storeAll_sameMatrix es es' m m' :
  sameMatrix es es' → sameMatrix m m' → sameMatrix (storeAll m es) (storeAll m' es').
Proof.
  intros Hes. revert m m'.
  induction Hes as [|[k g] [k' g'] es es' [Hk Hg] _ IH]; intros m m' Hm; [done|].
  simpl in Hk. subst k'. rewrite !storeAll_cons. apply IH. by apply store_sameMatrix.
Qed.

(** The order of the range shows in the order of the contracts only:
    whether the builder panics, which pieces are missing and which
    contracts are missing do not depend on it. *)
Lemma chunkGapsOf_any_order o1 o2 f W i g :
  chunkGapsOf o1 f W i = Some g →
  ∃ g', chunkGapsOf o2 f W i = Some g' ∧ sameGaps g g'.
Proof.
  unfold chunkGapsOf. cbv zeta.
  destruct (markPieces _ _) as [potential|]; simpl; [|done].
  intros [= <-]. eexists. split; [done|]. split_and!; simpl; [|done|done].
  rewrite !visit_Permutation; [done|..];
    apply NoDup_foldl_del, NoDup_foldl_add; constructor.
Qed.

Lemma freshEntries_any_order o1 o2 f W l es :
  freshEntries o1 f W l = Some es →
  ∃ es', freshEntries o2 f W l = Some es' ∧ sameMatrix es es'.
Proof.
  revert es. induction l as [|i l IH]; intros es; simpl.
  - intros [= <-]. exists []. split; [done|constructor].
  - destruct (incomplete f i); [|apply IH].
    destruct (chunkGapsOf o1 f W i) as [g|] eqn:Hg; simpl; [|done].
    destruct (freshEntries o1 f W l) as [es1|]; simpl; [|done].
    intros [= <-].
    destruct (chunkGapsOf_any_order o1 o2 f W i g Hg) as (g' & -> & Hsame).
    destruct (IH es1 eq_refl) as (es' & -> & Hes). simpl.
    eexists. split; [done|]. by constructor.
Qed.

(** Ranges that take the same order on the chunks of the file compute
    the same entries. *)
Lemma freshEntries_same_order o1 o2 f W l :
  (∀ i, i ∈ l → o2 (ChunkID i (name f)) = o1 (ChunkID i (name f))) →
  freshEntries o2 f W l = freshEntries o1 f W l.
Proof.
  induction l as [|i l IH]; intros Hsame; simpl; [done|].
  rewrite IH by (intros j Hj; apply Hsame; by right).
  destruct (incomplete f i); [|done].
  unfold chunkGapsOf. cbv zeta. by rewrite Hsame by left.
Qed.

(** C3 as amended.  A run of the builder that does not panic overwrites
    the entry of every under-redundant chunk of the file with the record
    it has just computed, whatever the matrix held for that chunk, and
    leaves the other entries alone.  Run a second time over the same file
    and worker set, with ranges that may visit the missing contracts in
    any other order [o2], it does not panic either and returns a repair
    matrix with the same chunk keys in the same order (no key twice) and,
    for every chunk, the same missing pieces and the same missing
    contracts up to their order: the entries of the file's
    under-redundant chunks are rewritten with the newly computed records,
    the others are left alone, and when both runs range in the same order
    the matrix is the same.  The histogram is not left as it is: the
    second run increments the bucket of every under-redundant chunk once
    more. *)
Theorem C3_second_run_recounts o1 o2 f W m h m1 h1 :
  addFileToRepairMatrix o1 f W m h = Some (m1, h1) →
  ∃ es m2 h2,
    freshEntries o1 f W (chunkRange f) = Some es
    ∧ (∀ i, i ∈ chunkRange f → incomplete f i = true →
         ∃ gaps, chunkGapsOf o1 f W i = Some gaps
                 ∧ Matrix.lookup (ChunkID i (name f)) m1 = Some gaps)
    ∧ (∀ cid, cid ∉ es.*1 → Matrix.lookup cid m1 = Matrix.lookup cid m)
    ∧ addFileToRepairMatrix o2 f W m1 h1 = Some (m2, h2)
    ∧ sameMatrix m1 m2
    ∧ (∀ i, i ∈ chunkRange f → incomplete f i = true →
         ∃ gaps, chunkGapsOf o2 f W i = Some gaps
                 ∧ Matrix.lookup (ChunkID i (name f)) m2 = Some gaps)
    ∧ (∀ cid, cid ∉ es.*1 → Matrix.lookup cid m2 = Matrix.lookup cid m1)
    ∧ ((∀ i, i ∈ chunkRange f → o2 (ChunkID i (name f)) = o1 (ChunkID i (name f))) →
       m2 = m1)
    ∧ (∀ k, Hist.get h1 k = Hist.get h k + gapCountOf es k)
    ∧ (∀ k, Hist.get h2 k = Hist.get h1 k + gapCountOf es k).
Proof.
  unfold addFileToRepairMatrix. rewrite addFile_stores.
  destruct (freshEntries o1 f W (chunkRange f)) as [es|] eqn:Hes; simpl; [|done].
  intros [= <- <-].
  destruct (freshEntries_any_order o1 o2 f W _ es Hes) as (es' & Hes' & Hsame).
  exists es, (storeAll (storeAll m es) es'), (bumpAll (bumpAll h es) es').
  pose proof (freshEntries_NoDup f W _ es (chunkRange_NoDup f) Hes) as Hnd.
  pose proof (freshEntries_NoDup f W _ es' (chunkRange_NoDup f) Hes') as Hnd'.
  assert (storeAll (storeAll m es) es = storeAll m es) as Hagain.
  { apply storeAll_same. intros cid g Hin. by apply lookup_storeAll_in. }
  split_and!.
  - done.
  - intros i Hi Hinc.
    destruct (freshEntries_complete f W _ es i Hes Hi Hinc) as (gaps & Hg & Hin).
    exists gaps. split; [done|]. by apply lookup_storeAll_in.
  - intros cid Hcid. by apply lookup_storeAll_notin.
  - rewrite addFile_stores, Hes'. done.
  - rewrite <- Hagain at 1. apply storeAll_sameMatrix; [done|apply sameMatrix_refl].
  - intros i Hi Hinc.
    destruct (freshEntries_complete f W _ es' i Hes' Hi Hinc) as (gaps & Hg & Hin).
    exists gaps. split; [done|]. by apply lookup_storeAll_in.
  - intros cid Hcid. apply lookup_storeAll_notin.
    by rewrite (sameMatrix_keys es es' Hsame).
  - intros Hord. rewrite (freshEntries_same_order o1 o2 f W _ Hord), Hes in Hes'.
    injection Hes' as <-. exact Hagain.
  - intros k. apply get_bumpAll.
  - intros k. rewrite get_bumpAll. f_equal. by apply gapCountOf_sameMatrix.
Qed.

Lemma C3_second_run_recounts_witness :
  ∃ m1 h1 m2 h2,
    addFileToRepairMatrix Sample.asInserted Sample.fileF [1; 2; 3; 4; 5]%N [] ∅
      = Some (m1, h1)
    ∧ addFileToRepairMatrix Sample.descending Sample.fileF [1; 2; 3; 4; 5]%N m1 h1
      = Some (m2, h2)
    ∧ sameMatrix m1 m2
    ∧ Hist.get h1 5 = 2 ∧ Hist.get h2 5 = 4.
Proof.
  destruct (addFileToRepairMatrix Sample.asInserted Sample.fileF [1; 2; 3; 4; 5]%N [] ∅)
    as [[m1 h1]|] eqn:Hrun; [|vm_compute in Hrun; discriminate Hrun].
  destruct (C3_second_run_recounts Sample.asInserted Sample.descending
              Sample.fileF [1; 2; 3; 4; 5]%N [] ∅ m1 h1 Hrun)
    as (es & m2 & h2 & Hes & _ & _ & Hagain & Hsame & _ & _ & _ & Hh1 & Hh2).
  exists m1, h1, m2, h2. split; [reflexivity|]. split; [exact Hagain|].
  split; [exact Hsame|].
  vm_compute in Hes. injection Hes as <-.
  split.
  - rewrite Hh1. vm_compute. reflexivity.
  - rewrite Hh2, Hh1. vm_compute. reflexivity.
Defined.

(** The claim C3 as it stands fails: on a file of two chunks with no
    piece uploaded and five available workers, the second run of the
    builder raises bucket 5 of the histogram from 2 to 4, also when its
    ranges take the order of the first run; when they take another order,
    the records it writes over the existing ones list the contracts in
    that order; and run over a matrix in which chunk 0 has been repaired
    in the meantime, it replaces that entry with the full gap record
    again. *)
Lemma C3_counterexample :
  (∃ m1 h1 m2 h2,
     addFileToRepairMatrix Sample.asInserted Sample.fileF [1; 2; 3; 4; 5]%N [] ∅
       = Some (m1, h1)
     ∧ addFileToRepairMatrix Sample.asInserted Sample.fileF [1; 2; 3; 4; 5]%N m1 h1
       = Some (m2, h2)
     ∧ Hist.get h1 5 = 2 ∧ Hist.get h2 5 = 4 ∧ h2 ≠ h1)
  ∧ (∃ m1 h1 m2 h2,
       addFileToRepairMatrix Sample.asInserted Sample.fileF [1; 2; 3; 4; 5]%N [] ∅
         = Some (m1, h1)
       ∧ addFileToRepairMatrix Sample.descending Sample.fileF [1; 2; 3; 4; 5]%N m1 h1
         = Some (m2, h2)
       ∧ Matrix.lookup Sample.chunk0 m1 = Some Sample.gaps5
       ∧ Matrix.lookup Sample.chunk0 m2
         = Some (ChunkGaps [5; 4; 3; 2; 1]%N [0; 1; 2; 3; 4]%N 0)
       ∧ m2 ≠ m1)
  ∧ (∃ m2 h2,
       addFileToRepairMatrix Sample.asInserted Sample.fileF [1; 2; 3; 4; 5]%N
         [(Sample.chunk0, ChunkGaps [] [] 0); (Sample.chunk1, Sample.gaps5)]
         {[0 := 1; 5 := 1]} = Some (m2, h2)
       ∧ Matrix.lookup Sample.chunk0 m2 = Some Sample.gaps5
       ∧ Hist.get h2 5 = 3).
Proof.
  split_and!.
  - eexists _, _, _, _. split; [vm_compute; reflexivity|].
    split; [vm_compute; reflexivity|].
    split; [vm_compute; reflexivity|].
    split; [vm_compute; reflexivity|].
    intros E. apply (f_equal (λ h, Hist.get h 5)) in E. vm_compute in E. discriminate E.
  - eexists _, _, _, _. split; [vm_compute; reflexivity|].
    split; [vm_compute; reflexivity|].
    split; [vm_compute; reflexivity|].
    split; [vm_compute; reflexivity|].
    vm_compute. discriminate.
  - eexists _, _. split; [vm_compute; reflexivity|].
    split; vm_compute; reflexivity.
Qed.

(** ** The stop check at the top of the loop *)

(** Both cases of the first select complete normally, so a turn does not
    depend on whether the stop signal has fired when it starts. *)
Lemma iteration_ignores_initial_stop w stop stopAt since res pending order s :
  iteration (IterEnv w stop stopAt since res pending order) s =
  iteration (IterEnv w false stopAt since res pending order) s.
Proof. unfold iteration. simpl. by destruct stop. Qed.

(** C1.  The code does not do what the claim says: with the stop signal
    fired before the turn starts, the turn still scans the repair matrix.
    On [Sample2.midEpoch] it purges the retired worker 3 from the missing
    contracts of chunk 1 and returns only when the waiting select sees the
    stop signal; on [Sample3.freshEpoch], where each send finds its worker
    ready, it hands out five work items and empties Available. *)
Theorem C1_stop_before_turn_is_ignored :
  stopAtStart Sample3.stoppedTurn = true
  ∧ iteration Sample3.stoppedTurn Sample2.midEpoch =
    Outcome Stopped
      {| repairMatrix := [(Sample.chunk1, ChunkGaps [1; 2; 4; 5]%N [0; 1; 2; 3; 4]%N 0)];
         gapCounts := {[5 := 1]};
         availableWorkers := [1; 2; 4]%N;
         activeWorkers := [1; 2; 4; 5]%N;
         retiredWorkers := [3%N];
         workerPool := Sample.pool5 |}
      []
  ∧ repairMatrix (oState (iteration Sample3.stoppedTurn Sample2.midEpoch)) ≠
    repairMatrix Sample2.midEpoch
  ∧ stopAtStart Sample3.stoppedTurnSending = true
  ∧ oStatus (iteration Sample3.stoppedTurnSending Sample3.freshEpoch) = Stopped
  ∧ (oSent (iteration Sample3.stoppedTurnSending Sample3.freshEpoch)).*1 = [1; 2; 3; 4; 5]%N
  ∧ availableWorkers (oState (iteration Sample3.stoppedTurnSending Sample3.freshEpoch)) = [].
Proof.
  split_and!; try (vm_compute; reflexivity).
  vm_compute. discriminate.
Qed.

(** ** The histogram after a turn *)

Lemma histogramMatches_midEpoch : histogramMatches Sample2.midEpoch.
Proof.
  intros k. unfold Sample2.midEpoch, gapCountOf. simpl.
  rewrite filter_cons, filter_nil. simpl.
  destruct (decide (numGaps Sample.gaps5 = k)) as [<-|Hne].
  - vm_compute. reflexivity.
  - unfold Hist.get. rewrite lookup_singleton_ne; [done|]. exact Hne.
Qed.

(** C2.  The code breaks the invariant.  [Sample2.midEpoch] satisfies it
    (one chunk with gap count 5, bucket 5 holds 1).  One turn later the
    retired worker 3 has been purged from the chunk's missing contracts,
    so its gap count is 4, while the histogram still holds 1 in bucket 5
    and nothing in bucket 4.  The same state is reached by a whole epoch
    that starts from five idle workers and a file of two empty chunks. *)
Theorem C2_histogram_stale_after_purge :
  histogramMatches Sample2.midEpoch
  ∧ (∃ s' cg,
       iteration Sample2.earlyTurn Sample2.midEpoch = Outcome Continue s' []
       ∧ Matrix.lookup Sample.chunk1 (repairMatrix s') = Some cg
       ∧ numGaps cg = 4
       ∧ Hist.get (gapCounts s') 4 = 0
       ∧ Hist.get (gapCounts s') 5 = 1
       ∧ ¬ histogramMatches s')
  ∧ (∃ o cg,
       managedRepairIteration Sample3.epoch Sample.pool5 = Some o
       ∧ Matrix.lookup Sample.chunk1 (repairMatrix (oState o)) = Some cg
       ∧ numGaps cg = 4
       ∧ Hist.get (gapCounts (oState o)) 4 = 0
       ∧ ¬ histogramMatches (oState o)).
Proof.
  split; [apply histogramMatches_midEpoch|]. split.
  - eexists _, _. split; [vm_compute; reflexivity|].
    split; [vm_compute; reflexivity|].
    split; [vm_compute; reflexivity|].
    split; [vm_compute; reflexivity|].
    split; [vm_compute; reflexivity|].
    intros H. specialize (H 4). vm_compute in H. discriminate H.
  - eexists _, _. split; [vm_compute; reflexivity|].
    split; [vm_compute; reflexivity|].
    split; [vm_compute; reflexivity|].
    split; [vm_compute; reflexivity|].
    intros H. specialize (H 4). vm_compute in H. discriminate H.
Qed.

(** ** The histogram after a dispatch and after a skipped chunk *)

Lemma sample_epoch_start :
  startOfEpoch Sample3.epoch Sample.pool5 =
  Some (Sched [(Sample.chunk0, ChunkGaps [4; 2; 5; 3; 1]%N [0; 1; 2; 3; 4]%N 0);
               (Sample.chunk1, ChunkGaps [4; 2; 5; 3; 1]%N [0; 1; 2; 3; 4]%N 0)]
              {[5 := 2]} [4; 2; 5; 3; 1]%N [4; 2; 5; 3; 1]%N [] Sample.pool5).
Proof. vm_compute. reflexivity. Qed.

Lemma histogramMatches_epoch_start s0 :
  startOfEpoch Sample3.epoch Sample.pool5 = Some s0 → histogramMatches s0.
Proof.
  rewrite sample_epoch_start. intros [= <-] k. unfold gapCountOf. simpl.
  rewrite !filter_cons, filter_nil. simpl.
  destruct (decide (5 = k)) as [<-|Hne].
  - vm_compute. reflexivity.
  - rewrite !decide_False by (vm_compute; congruence).
    unfold Hist.get. rewrite lookup_singleton_ne; [done|]. exact Hne.
Qed.

(** C4.  The code does not update the histogram bucket of the chunk it
    dispatched to.  The epoch [Sample3.epoch] starts from the state the
    builder makes for five idle workers and a file of two chunks with no
    piece uploaded: both chunks have gap count 5, bucket 5 holds 2, and
    the histogram agrees with the matrix.  The first turn sends the five
    missing pieces of chunk 0, the i-th to the i-th useful worker, takes
    the five workers out of Available and out of the chunk's missing
    contracts and drops the five pieces, so the gap count of chunk 0 is
    now 0; chunk 1 is not dispatched to.  The histogram, though, reads in
    every bucket what it read before: bucket 5 still holds 2 with one
    chunk of gap count 5 left, bucket 0 holds 0 with one chunk of gap
    count 0.  The bucket the code decrements is that of the count stored
    in the record, which the builder never sets.  In the next turn
    (workers 1, 2, 4 and 5 have answered, worker 3 has not) chunk 1 gets
    four work items and its gap count becomes 1: bucket 1 gains one, but
    bucket 0 drops to -1 and bucket 5 still holds 2 although no chunk has
    five gaps any more. *)
Theorem C4_dispatch_leaves_bucket_stale :
  ∃ s0 s1,
    startOfEpoch Sample3.epoch Sample.pool5 = Some s0
    ∧ histogramMatches s0
    ∧ Matrix.lookup Sample.chunk0 (repairMatrix s0)
      = Some (ChunkGaps [4; 2; 5; 3; 1]%N [0; 1; 2; 3; 4]%N 0)
    ∧ (let r := scanMatrix Sample3.busyTurn1 s0 in
       srEnd r = LoopDone
       ∧ srSent r = [(4%N, UploadWork 0 "f" 0 Ciphertext);
                     (2%N, UploadWork 0 "f" 1 Ciphertext);
                     (5%N, UploadWork 0 "f" 2 Ciphertext);
                     (3%N, UploadWork 0 "f" 3 Ciphertext);
                     (1%N, UploadWork 0 "f" 4 Ciphertext)]
       ∧ srAvailable r = []
       ∧ srMatrix r = [(Sample.chunk0, ChunkGaps [] [] 0);
                       (Sample.chunk1, ChunkGaps [4; 2; 5; 3; 1]%N [0; 1; 2; 3; 4]%N 0)]
       ∧ gapCountOf (srMatrix r) 5 = 1 ∧ Hist.get (srGapCounts r) 5 = 2
       ∧ gapCountOf (srMatrix r) 0 = 1 ∧ Hist.get (srGapCounts r) 0 = 0
       ∧ (∀ k, Hist.get (srGapCounts r) k = Hist.get (gapCounts s0) k)
       ∧ ¬ histogramMatches (afterScan s0 r))
    ∧ iteration Sample3.busyTurn1 s0
      = Outcome Continue s1 (srSent (scanMatrix Sample3.busyTurn1 s0))
    ∧ (let r := scanMatrix Sample3.busyTurn2 s1 in
       srEnd r = LoopDone
       ∧ (srSent r).*1 = [1; 2; 4; 5]%N
       ∧ srMatrix r = [(Sample.chunk0, ChunkGaps [] [] 0);
                       (Sample.chunk1, ChunkGaps [3%N] [4%N] 1)]
       ∧ gapCountOf (srMatrix r) 5 = 0 ∧ Hist.get (srGapCounts r) 5 = 2
       ∧ gapCountOf (srMatrix r) 1 = 1 ∧ Hist.get (srGapCounts r) 1 = 1
       ∧ gapCountOf (srMatrix r) 0 = 1 ∧ Hist.get (srGapCounts r) 0 = -1).
Proof.
  eexists _, _. split; [apply sample_epoch_start|].
  split; [apply histogramMatches_epoch_start, sample_epoch_start|].
  split; [vm_compute; reflexivity|].
  split; [|split; [vm_compute; reflexivity|]].
  - cbv zeta. split_and!; try (vm_compute; reflexivity).
    + intros k.
      assert (srGapCounts (scanMatrix Sample3.busyTurn1
                (Sched [(Sample.chunk0, ChunkGaps [4; 2; 5; 3; 1]%N [0; 1; 2; 3; 4]%N 0);
                        (Sample.chunk1, ChunkGaps [4; 2; 5; 3; 1]%N [0; 1; 2; 3; 4]%N 0)]
                       {[5 := 2]} [4; 2; 5; 3; 1]%N [4; 2; 5; 3; 1]%N [] Sample.pool5))
              = Hist.bump 0 1 (Hist.bump 0 (-1) {[5 := 2]})) as ->
        by (vm_compute; reflexivity).
      rewrite !get_bump. simpl gapCounts. repeat case_decide; subst; lia.
    + intros H. specialize (H 5). vm_compute in H. discriminate H.
  - cbv zeta. split_and!; vm_compute; reflexivity.
Qed.

(** C5.  The code applies the purge to the skipped chunk, but not the
    update of the gap count and of the histogram that the claim (and the
    comments of the branch) say follows from it.  In the epoch
    [Sample3.epoch] the first turn hands the five pieces of chunk 0 to
    the five workers; worker 3 fails and is retired, workers 1, 2 and 4
    succeed.  The second turn finds maxGaps = 5; chunk 0 has no useful
    worker and chunk 1 has three (1, 2 and 4), so both are skipped,
    nothing is sent and Available is as before.  Chunk 1 has lost the
    retired worker 3 from its missing contracts, which lowers its gap
    count from 5 to 4; the count stored in its record and every bucket of
    the histogram are what they were: bucket 5 still holds 2, bucket 4 is
    empty. *)
Theorem C5_skipped_chunk_keeps_old_bucket :
  ∃ s0 s1 sent1,
    startOfEpoch Sample3.epoch Sample.pool5 = Some s0
    ∧ iteration Sample3.turn1 s0 = Outcome Continue s1 sent1
    ∧ retiredWorkers s1 = [3%N]
    ∧ availableWorkers s1 = [1; 2; 4]%N
    ∧ Hist.maxGaps (gapCounts s1) = 5
    ∧ repairMatrix s1 = [(Sample.chunk0, ChunkGaps [] [] 0);
                         (Sample.chunk1, ChunkGaps [4; 2; 5; 3; 1]%N [0; 1; 2; 3; 4]%N 0)]
    ∧ usefulWorkers (availableWorkers s1) [4; 2; 5; 3; 1]%N = [1; 2; 4]%N
    ∧ numGaps (ChunkGaps [4; 2; 5; 3; 1]%N [0; 1; 2; 3; 4]%N 0) = 5
    ∧ (let r := scanMatrix Sample3.turn2 s1 in
       srEnd r = LoopDone
       ∧ srSent r = []
       ∧ srAvailable r = availableWorkers s1
       ∧ srMatrix r = [(Sample.chunk0, ChunkGaps [] [] 0);
                       (Sample.chunk1, ChunkGaps [4; 2; 5; 1]%N [0; 1; 2; 3; 4]%N 0)]
       ∧ numGaps (ChunkGaps [4; 2; 5; 1]%N [0; 1; 2; 3; 4]%N 0) = 4
       ∧ srGapCounts r = gapCounts s1
       ∧ Hist.get (srGapCounts r) 5 = 2
       ∧ Hist.get (srGapCounts r) 4 = 0
       ∧ gapCountOf (srMatrix r) 5 = 0
       ∧ gapCountOf (srMatrix r) 4 = 1).
Proof.
  eexists _, _, _. split; [apply sample_epoch_start|].
  split; [vm_compute; reflexivity|].
  cbv zeta. split_and!; vm_compute; reflexivity.
Qed.

(** ** A failing encryption *)

(** C7.  The code does not skip the chunk: with [EncryptBytes] failing on
    every piece, the turn on [Sample3.smallRepair] still hands pieces 3
    and 4 of chunk 0 to workers 1 and 2, each carrying what the failed
    encryption returned, removes both workers from Available and empties
    the chunk's gap record. *)
Theorem C7_encryption_failure_still_dispatches :
  encryptBytes (theWorld Sample3.badKeyTurn) Sample.chunk0 3 = false
  ∧ iteration Sample3.badKeyTurn Sample3.smallRepair =
    Outcome Blocked
      {| repairMatrix := [(Sample.chunk0, ChunkGaps [] [] 0)];
         gapCounts := {[2 := 0; 0 := 1]};
         availableWorkers := [3%N];
         activeWorkers := [1; 2; 3]%N;
         retiredWorkers := [];
         workerPool := Sample.pool5 |}
      [(1%N, UploadWork 0 "f" 3 FailedEncryption);
       (2%N, UploadWork 0 "f" 4 FailedEncryption)].
Proof. split; vm_compute; reflexivity. Qed.

(** ** The worker sets during an epoch *)

Lemma NoDup_eligibleWorkers pool clk : NoDup (eligibleWorkers pool clk).
Proof.
  unfold eligibleWorkers.
  apply (sublist_NoDup _ (map_to_list pool).*1); [apply NoDup_fst_map_to_list|].
  induction (map_to_list pool) as [|[id wk] l IH]; simpl; [done|].
  destruct (_ <? _); simpl; [by apply sublist_skip|by apply sublist_cons].
Qed.

Lemma freshEntries_contracts_NoDup {order} f W l es :
  freshEntries order f W l = Some es → Forall (λ e, NoDup (contracts e.2)) es.
Proof.
  revert es. induction l as [|i l IH]; intros es; simpl.
  - intros [= <-]. constructor.
  - destruct (incomplete f i); [|apply IH].
    destruct (chunkGapsOf order f W i) as [g|] eqn:Hg; simpl; [|done].
    destruct (freshEntries order f W l) as [es'|]; simpl; [|done].
    intros [= <-]. constructor; [|by apply IH].
    simpl. by eapply chunkGapsOf_NoDup.
Qed.

Lemma Forall_store (P : chunkID * chunkGaps → Prop) cid g m :
  (∀ k, P (k, g)) → Forall P m → Forall P (Matrix.store cid g m).
Proof.
  intros Hg. induction 1 as [|[k v] m Hkv Hm IH]; simpl.
  - constructor; [apply Hg|constructor].
  - destruct (decide (k = cid)); constructor; auto.
Qed.

Lemma Forall_storeAll es m :
  Forall (λ e, NoDup (contracts e.2)) es →
  Forall (λ e, NoDup (contracts e.2)) m →
  Forall (λ e, NoDup (contracts e.2)) (storeAll m es).
Proof.
  intros Hes. revert m. induction Hes as [|[k g] es Hg Hes IH]; intros m Hm; [done|].
  rewrite storeAll_cons. apply IH. by apply Forall_store.
Qed.

Lemma addFile_contracts_NoDup {order} f W m h m' h' :
  addFileToRepairMatrix order f W m h = Some (m', h') →
  Forall (λ e, NoDup (contracts e.2)) m →
  Forall (λ e, NoDup (contracts e.2)) m'.
Proof.
  unfold addFileToRepairMatrix. rewrite addFile_stores.
  destruct (freshEntries order f W (chunkRange f)) as [es|] eqn:Hes; simpl; [|done].
  intros [= <- <-] Hm. apply Forall_storeAll; [|done].
  by eapply freshEntries_contracts_NoDup.
Qed.

Lemma createRepairMatrix_contracts_NoDup {order} fs trk W m h :
  createRepairMatrix order fs trk W = Some (m, h) →
  Forall (λ e, NoDup (contracts e.2)) m.
Proof.
  unfold createRepairMatrix.
  assert (∀ acc, (∀ m h, acc = Some (m, h) → Forall (λ e, NoDup (contracts e.2)) m) →
            ∀ m h,
              foldl (λ acc '(k, f), '(repairMatrix, gapCounts) ← acc;
                       if trk (name f)
                       then addFileToRepairMatrix (order k) f W repairMatrix gapCounts
                       else Some (repairMatrix, gapCounts)) acc (imap pair fs)
              = Some (m, h) →
              Forall (λ e, NoDup (contracts e.2)) m) as Hgen.
  { generalize (imap pair fs). intros calls.
    induction calls as [|[k f] calls IH]; intros acc Hacc m' h'; simpl; [apply Hacc|].
    apply IH. intros m1 h1. destruct acc as [[m0 h0]|]; simpl; [|done].
    destruct (trk (name f)); [|apply Hacc].
    intros Hadd. eapply addFile_contracts_NoDup; [exact Hadd|]. by eapply Hacc. }
  apply Hgen. intros m0 h0 [= <- <-]. constructor.
Qed.

Lemma NoDup_purgeRetired retired cs : NoDup cs → NoDup (purgeRetired retired cs).
Proof. apply NoDup_foldl_removeFirst. Qed.

(** What one chunk of the scan can do to Available and to the chunk. *)
Lemma scanChunk_shape w stopAt pool maxGaps retired available h cid cg :
  NoDup available → NoDup (contracts cg) →
  match scanChunk w stopAt pool maxGaps retired available h cid cg with
  | Skipped cg' _ => NoDup (contracts cg')
  | Dispatched cg' _ available' sent
  | SendStopped cg' available' sent
  | Panicked cg' available' sent =>
      NoDup (contracts cg') ∧ NoDup sent.*1 ∧ sent.*1 ⊆ available
      ∧ available' = foldl (λ a id, GoSet.del id a) available sent.*1
  end.
Proof.
  intros Ha Hc. unfold scanChunk; cbv zeta.
  destruct (_ && _).
  { rewrite deprioritize_purges. simpl. by apply NoDup_purgeRetired. }
  repeat (match goal with |- context [if negb ?b then _ else _] => destruct b; simpl end;
          [|done]).
  destruct (encode w cid) as [nEncoded|]; [|done].
  set (useful := usefulWorkers available (contracts cg)).
  destruct (dispatch_shrinks w stopAt pool cid nEncoded (zip useful (pieces cg))
              0%nat available (contracts cg) []) as (done & Hpre & Hav & Hcs & Hsent).
  simpl in Hsent.
  assert (NoDup done.*1 ∧ done.*1 ⊆ available) as [Hnd Hsub].
  { assert (done.*1 `sublist_of` useful) as Hsl.
    { destruct Hpre as [rest Hrest].
      pose proof (fst_zip_take useful (pieces cg)) as Hzip.
      rewrite Hrest, fmap_app in Hzip.
      transitivity (take (length (pieces cg)) useful); [|apply sublist_take].
      rewrite <- Hzip. by apply sublist_inserts_r. }
    split.
    - eapply sublist_NoDup; [|exact Hsl]. by apply NoDup_usefulWorkers.
    - intros x Hx. apply (elem_of_sublist _ _ _ Hx) in Hsl.
      by apply elem_of_usefulWorkers in Hsl as [? _]. }
  destruct (drEnd _) eqn:Hend; simpl;
    rewrite Hsent, Hcs, Hav; split_and!; try done; by apply NoDup_foldl_removeFirst.
Qed.

Lemma scan_shape w stopAt pool maxGaps retired available h todo :
  NoDup available →
  Forall (λ e, NoDup (contracts e.2)) todo →
  let r := scan w stopAt pool maxGaps retired available h todo in
  Forall (λ e, NoDup (contracts e.2)) (srMatrix r)
  ∧ NoDup (srSent r).*1
  ∧ (srSent r).*1 ⊆ available
  ∧ srAvailable r = foldl (λ a id, GoSet.del id a) available (srSent r).*1.
Proof.
  intros Ha Htodo. revert h. induction Htodo as [|[cid cg] todo Hcg Htodo IH]; intros h; simpl.
  - split_and!; [apply Forall_nil_2|apply NoDup_nil_2| |done].
    by intros x ?%not_elem_of_nil.
  - pose proof (scanChunk_shape w stopAt pool maxGaps retired available h cid cg Ha Hcg) as Hsh.
    destruct (scanChunk w stopAt pool maxGaps retired available h cid cg)
      as [cg' h'|cg' h' available' sent|cg' available' sent|cg' available' sent]; simpl.
    + destruct (IH h') as (Hm & Hnd & Hsub & Hav). split_and!; try done.
      by constructor.
    + destruct Hsh as (Hc' & Hnd & Hsub & Hav). split_and!; try done. by constructor.
    + destruct Hsh as (Hc' & Hnd & Hsub & Hav). split_and!; try done. by constructor.
    + destruct Hsh as (Hc' & Hnd & Hsub & Hav). split_and!; try done. by constructor.
Qed.

Lemma epochInv_start e pool s :
  startOfEpoch e pool = Some s →
  epochInv (eligibleWorkers pool (clock e)) s [].
Proof.
  intros (Hav & Hac & _ & _ & Hm)%startOfEpoch_workers.
  constructor; rewrite ?Hav, ?Hac.
  - apply NoDup_eligibleWorkers.
  - done.
  - done.
  - constructor.
  - by intros x ?%not_elem_of_nil.
  - by intros x ?%not_elem_of_nil.
  - by eapply createRepairMatrix_contracts_NoDup.
Qed.

Lemma epochInv_step eligible s inFlight s' inFlight' :
  epochStep (s, inFlight) (s', inFlight') →
  epochInv eligible s inFlight → epochInv eligible s' inFlight'.
Proof.
  inversion 1 as [env s0 fl Hend|s0 fl need id err now Hid|order s0 fl f m h Hadd
                 |s0 fl m available active Hm Hav Hac]; subst; intros [I1 I2 I3 I4 I5 I6 I7].
  - (* scan *)
    destruct (scan_shape (theWorld env) (stopAtSend env) (workerPool s)
                (Hist.maxGaps (gapCounts s)) (retiredWorkers s) (availableWorkers s)
                (gapCounts s) (repairMatrix s) I1 I7) as (Hm & Hnd & Hsub & Hav).
    fold (scanMatrix env s) in Hm, Hnd, Hsub, Hav.
    constructor; simpl; rewrite ?Hav.
    + by apply NoDup_foldl_del.
    + intros x [Hx _]%elem_of_foldl_del. by apply I2.
    + done.
    + apply NoDup_app. split_and!; [done| |done].
      intros x Hx Hx'. apply (I6 x Hx). by apply Hsub.
    + intros x [Hx|Hx]%elem_of_app; [by apply I5|]. by apply I2, Hsub.
    + intros x [Hx|Hx]%elem_of_app; rewrite elem_of_foldl_del.
      * intros [Hx' _]. by apply (I6 x).
      * intros [_ Hx']. done.
    + done.
  - (* a result *)
    unfold handleResult. destruct err; [destruct (workerPool s !! id)|];
      constructor; simpl; try done.
    + intros x Hx. apply elem_of_del. split; [by apply I2|].
      intros ->. by apply (I6 id).
    + intros x [Hx _]%elem_of_del. by apply I3.
    + by apply NoDup_removeFirst.
    + intros x Hx. apply elem_of_del. split.
      * by apply I5, (elem_of_removeFirst x id).
      * intros ->. by apply (not_elem_of_removeFirst id inFlight).
    + intros x Hx%elem_of_removeFirst. by apply I6.
    + by apply NoDup_removeFirst.
    + intros x Hx%elem_of_removeFirst. by apply I5.
    + intros x Hx%elem_of_removeFirst. by apply I6.
    + by apply NoDup_add.
    + intros x [->|Hx]%elem_of_add; [by apply I5|by apply I2].
    + by apply NoDup_removeFirst.
    + intros x Hx%elem_of_removeFirst. by apply I5.
    + intros x Hx [->|Hx']%elem_of_add.
      * by apply (not_elem_of_removeFirst id inFlight).
      * apply elem_of_removeFirst in Hx. by apply (I6 x).
  - (* a new file *)
    constructor; simpl; try done. by eapply addFile_contracts_NoDup.
  - (* another range order *)
    constructor; simpl.
    + by rewrite Hav.
    + by rewrite Hav, Hac.
    + by rewrite Hac.
    + done.
    + by rewrite Hac.
    + intros x Hx. rewrite Hav. by apply I6.
    + by rewrite Hm.
Qed.

Lemma epochInv_steps eligible (x y : sched * list FileContractID) :
  rtc epochStep x y →
  epochInv eligible x.1 x.2 → epochInv eligible y.1 y.2.
Proof.
  induction 1 as [x|[s fl] [s' fl'] z Hstep _ IH]; [done|].
  intros Hinv. apply IH. by eapply epochInv_step.
Qed.

(** A turn of the loop is a sequence of such steps, as long as every
    result it receives answers a work item in flight. *)
Lemma wait_steps events :
  ∀ s need inFlight,
    answers inFlight events →
    ∃ inFlight', rtc epochStep (s, inFlight) ((waitForWorkers events s need).1.2, inFlight').
Proof.
  induction events as [|[id err now|] events IH]; intros s need inFlight Hans.
  - exists inFlight. simpl. by destruct (_ <? _).
  - rewrite waitForWorkers_cons. destruct (_ <? _); [|by exists inFlight].
    destruct Hans as [Hid Hans].
    pose proof (StepResult s inFlight need id err now Hid) as Hstep.
    destruct (handleResult s need id err now) as [s' need'].
    destruct (IH s' need' _ Hans) as [inFlight' Hrest].
    exists inFlight'. by eapply rtc_l.
  - exists inFlight. simpl. by destruct (_ <? _).
Qed.

Lemma withMatrix_same s : withMatrix s (repairMatrix s) (gapCounts s) = s.
Proof. by destruct s. Qed.

Lemma drain_steps {order} pending s s' inFlight :
  drainNewFiles order pending s = Some s' → rtc epochStep (s, inFlight) (s', inFlight).
Proof.
  unfold drainNewFiles.
  assert (∀ m h m' h',
            foldl (λ acc '(k, f), '(m, h) ← acc;
                     addFileToRepairMatrix (order k) f (activeWorkers s) m h)
                  (Some (m, h)) (imap pair pending) = Some (m', h') →
            rtc epochStep (withMatrix s m h, inFlight) (withMatrix s m' h', inFlight)) as Hgen.
  { generalize (imap pair pending). intros calls.
    induction calls as [|[k f] calls IH]; intros m h m' h'; simpl.
    - by intros [= <- <-].
    - destruct (addFileToRepairMatrix (order k) f (activeWorkers s) m h)
        as [[m1 h1]|] eqn:Hadd.
      + intros Hrest. eapply rtc_l; [|by apply IH].
        apply (StepNewFile (order k) (withMatrix s m h) inFlight f m1 h1 Hadd).
      + intros Hnone. exfalso. revert Hnone. clear.
        induction calls as [|[??] ?]; simpl; done. }
  destruct (foldl _ _ (imap pair pending)) as [[m' h']|] eqn:Hfold; simpl; [|done].
  intros [= <-]. rewrite <- (withMatrix_same s) at 1. by apply Hgen.
Qed.

Lemma iteration_steps env s inFlight :
  oStatus (iteration env s) ≠ Panic →
  answers (inFlight ++ (srSent (scanMatrix env s)).*1) (results env) →
  ∃ inFlight', rtc epochStep (s, inFlight) (oState (iteration env s), inFlight').
Proof.
  unfold iteration. destruct (stopCheck _); [|by exists inFlight].
  destruct (_ =? 0); [by exists inFlight|]. cbv zeta.
  destruct (srEnd (scanMatrix env s)) eqn:Hend; simpl; [| |done].
  - intros Hstatus Hans.
    assert (epochStep (s, inFlight)
              (afterScan s (scanMatrix env s), inFlight ++ (srSent (scanMatrix env s)).*1))
      as Hscan by (apply StepScan; by rewrite Hend).
    destruct (needOf env _ _) as [need newMatrix].
    destruct (wait_steps (results env) (afterScan s (scanMatrix env s)) need _ Hans)
      as [inFlight1 Hwait].
    destruct (waitForWorkers _ _ _) as [[[| |] s2] need']; simpl in *.
    + destruct newMatrix; simpl in *.
      * exists inFlight1. by eapply rtc_l.
      * destruct (drainNewFiles (rangeOrder env) (newFiles env) s2) as [s3|] eqn:Hdrain; simpl in *; [|done].
        exists inFlight1. eapply rtc_l; [exact Hscan|].
        etransitivity; [exact Hwait|]. by apply (drain_steps (order:=rangeOrder env) (newFiles env)).
    + exists inFlight1. by eapply rtc_l.
    + exists inFlight1. by eapply rtc_l.
  - intros _ _. eexists. apply rtc_once, StepScan. by rewrite Hend.
Qed.

(** A turn of the loop keeps the worker sets nested. *)
Lemma iteration_keeps_worker_sets eligible env s inFlight :
  epochInv eligible s inFlight →
  oStatus (iteration env s) ≠ Panic →
  answers (inFlight ++ (srSent (scanMatrix env s)).*1) (results env) →
  availableWorkers (oState (iteration env s)) ⊆ activeWorkers (oState (iteration env s))
  ∧ activeWorkers (oState (iteration env s)) ⊆ eligible.
Proof.
  intros Hinv Hstatus Hans.
  destruct (iteration_steps env s inFlight Hstatus Hans) as [inFlight' Hsteps].
  by destruct (epochInv_steps eligible _ _ Hsteps Hinv) as [_ H1 H2 _ _ _ _].
Qed.

(** C9.  From the start of an epoch on, after any number of scheduler
    steps (a scan with its dispatch, a result taken from the result
    channel, a new file folded into the matrix), every available worker is
    active and every active worker belongs to the eligible set computed
    when the epoch started. *)
Theorem C9_available_active_eligible e pool s0 s inFlight :
  startOfEpoch e pool = Some s0 →
  rtc epochStep (s0, []) (s, inFlight) →
  availableWorkers s ⊆ activeWorkers s
  ∧ activeWorkers s ⊆ eligibleWorkers pool (clock e).
Proof.
  intros Hstart Hsteps.
  assert (epochInv (eligibleWorkers pool (clock e)) s inFlight) as [_ H1 H2 _ _ _ _];
    [|done].
  apply (epochInv_steps _ (s0, []) (s, inFlight) Hsteps).
  by apply epochInv_start.
Qed.

Lemma C9_available_active_eligible_witness :
  ∃ s0 s inFlight,
    startOfEpoch Sample3.epoch Sample.pool5 = Some s0
    ∧ rtc epochStep (s0, []) (s, inFlight)
    ∧ length inFlight = 4%nat
    ∧ availableWorkers s ⊆ activeWorkers s
    ∧ activeWorkers s ⊆ eligibleWorkers Sample.pool5 (clock Sample3.epoch).
Proof.
  destruct (startOfEpoch Sample3.epoch Sample.pool5) as [s0|] eqn:Hstart;
    [|vm_compute in Hstart; discriminate Hstart].
  assert (s0 = Sched [(Sample.chunk0, ChunkGaps [4; 2; 5; 3; 1]%N [0; 1; 2; 3; 4]%N 0);
                      (Sample.chunk1, ChunkGaps [4; 2; 5; 3; 1]%N [0; 1; 2; 3; 4]%N 0)]
                     {[5 := 2]} [4; 2; 5; 3; 1]%N [4; 2; 5; 3; 1]%N [] Sample.pool5) as Hs0.
  { vm_compute in Hstart. injection Hstart as <-. vm_compute. reflexivity. }
  assert (rtc epochStep (s0, [])
            ((handleResult (afterScan s0 (scanMatrix Sample3.turn1 s0)) 4 3%N true 100).1,
             removeFirst 3%N ([] ++ (srSent (scanMatrix Sample3.turn1 s0)).*1))) as Hsteps.
  { eapply rtc_l; [apply StepScan|apply rtc_once, StepResult].
    - rewrite Hs0. vm_compute. discriminate.
    - rewrite Hs0. vm_compute. do 3 right. left. }
  eexists s0, _, _. split; [reflexivity|]. split; [exact Hsteps|].
  split; [rewrite Hs0; vm_compute; reflexivity|].
  exact (C9_available_active_eligible Sample3.epoch Sample.pool5 s0 _ _ Hstart Hsteps).
Defined.

(** * Further properties of the builder and of the scheduler *)

(** ** The per-chunk lists of the builder *)

Lemma default_lookup_appendAt {A} (k : N) (x : A) (m : gmap N (list A)) (j : N) :
  default [] (appendAt k x m !! j) =
  if decide (k = j) then default [] (m !! j) ++ [x] else default [] (m !! j).
Proof.
  unfold appendAt. rewrite lookup_insert. case_decide; [by subst|done].
Qed.

Lemma default_lookup_appendAll {A} (g : pieceData → A) (ps : list pieceData) :
  ∀ (m : gmap N (list A)) (i : N),
    default [] (foldl (λ m p, appendAt (Chunk p) (g p) m) m ps !! i) =
    default [] (m !! i) ++ (g <$> filter (λ p, Chunk p = i) ps).
Proof.
  induction ps as [|p ps IH]; intros m i; simpl.
  - by rewrite app_nil_r.
  - rewrite IH, default_lookup_appendAt, filter_cons.
    destruct (decide (Chunk p = i)); simpl; [by rewrite <- app_assoc|done].
Qed.

Lemma default_lookup_chunkLists {A} (g : fileContract → pieceData → A)
    (cs : list fileContract) :
  ∀ (m : gmap N (list A)) (i : N),
    default [] (foldl (λ m c, foldl (λ m p, appendAt (Chunk p) (g c p) m) m (Pieces c))
                      m cs !! i) =
    default [] (m !! i) ++ (cs ≫= λ c, g c <$> filter (λ p, Chunk p = i) (Pieces c)).
Proof.
  induction cs as [|c cs IH]; intros m i; simpl.
  - by rewrite app_nil_r.
  - rewrite IH, (default_lookup_appendAll (g c)). by rewrite <- app_assoc.
Qed.

Lemma default_lookup_emptyLists {A} (l : list N) :
  ∀ (m : gmap N (list A)) (i : N),
    default [] (m !! i) = [] →
    default [] (foldl (λ m i, <[i := []]> m) m l !! i) = [].
Proof.
  induction l as [|j l IH]; intros m i Hm; simpl; [done|].
  apply IH. rewrite lookup_insert. by case_decide.
Qed.

Lemma pieceMap_lookup f i :
  default [] (pieceMap f !! i) =
  fileContracts f ≫= λ c, Piece <$> filter (λ p, Chunk p = i) (Pieces c).
Proof.
  unfold pieceMap.
  rewrite (default_lookup_chunkLists (λ _ p, Piece p)).
  by rewrite default_lookup_emptyLists.
Qed.

Lemma contractMap_lookup f i :
  default [] (contractMap f !! i) =
  fileContracts f ≫= λ c, (λ _, ID c) <$> filter (λ p, Chunk p = i) (Pieces c).
Proof.
  unfold contractMap.
  rewrite (default_lookup_chunkLists (λ c _, ID c)).
  by rewrite default_lookup_emptyLists.
Qed.

Lemma elem_of_pieceMap f i p :
  p ∈ default [] (pieceMap f !! i) ↔ storedPiece f i p.
Proof.
  rewrite pieceMap_lookup, list_elem_of_bind. unfold storedPiece. split.
  - intros (c & Hin & Hc). apply list_elem_of_fmap in Hin as (pd & -> & Hpd).
    apply list_elem_of_filter in Hpd as [Hchunk Hpd]. eauto 10.
  - intros (c & pd & Hc & Hpd & Hchunk & <-). exists c. split; [|done].
    apply list_elem_of_fmap. exists pd. split; [done|].
    by apply list_elem_of_filter.
Qed.

Lemma elem_of_contractMap f i id :
  id ∈ default [] (contractMap f !! i) ↔ holdsChunk f i id.
Proof.
  rewrite contractMap_lookup, list_elem_of_bind. unfold holdsChunk. split.
  - intros (c & Hin & Hc). apply list_elem_of_fmap in Hin as (pd & -> & Hpd).
    apply list_elem_of_filter in Hpd as [Hchunk Hpd]. eauto 10.
  - intros (c & pd & Hc & Hpd & Hchunk & <-). exists c. split; [|done].
    apply list_elem_of_fmap. exists pd. split; [done|].
    by apply list_elem_of_filter.
Qed.

(** ** Marking the stored pieces *)

Lemma markPieces_Some v ps v' :
  markPieces v ps = Some v' →
  length v' = length v
  ∧ (∀ p, p ∈ ps → (N.to_nat p < length v)%nat)
  ∧ (∀ j, v' !! j = Some false ↔ v !! j = Some false ∧ N.of_nat j ∉ ps).
Proof.
  revert v. induction ps as [|p ps IH]; intros v; simpl.
  - intros [= <-]. split_and!; [done|by intros p ?%not_elem_of_nil|].
    intros j. split; [intros ?; split; [done|apply not_elem_of_nil]|tauto].
  - case_decide as Hp; [|done]. intros (Hlen & Hin & Hfalse)%IH.
    rewrite length_insert in Hlen, Hin. split_and!; [done| |].
    + intros q [->|Hq]%elem_of_cons; auto.
    + intros j. rewrite Hfalse, not_elem_of_cons.
      destruct (decide (j = N.to_nat p)) as [->|Hne].
      * rewrite list_lookup_insert_eq by done. rewrite N2Nat.id. split; [|tauto].
        by intros [[=] _].
      * rewrite list_lookup_insert_ne by done. split; [|tauto].
        intros [Hv Hps]. split_and!; [done| |done].
        intros <-. by rewrite Nat2N.id in Hne.
Qed.

Lemma markPieces_None v ps :
  markPieces v ps = None ↔ ∃ p, p ∈ ps ∧ (length v ≤ N.to_nat p)%nat.
Proof.
  revert v. induction ps as [|p ps IH]; intros v; simpl.
  - split; [done|]. by intros (p & ?%not_elem_of_nil & _).
  - case_decide as Hp.
    + rewrite IH, length_insert. split.
      * intros (q & Hq & Hlen). exists q. split; [by right|done].
      * intros (q & [->|Hq]%elem_of_cons & Hlen); [lia|]. eauto.
    + split; [|done]. intros _. exists p. split; [left|lia].
Qed.

Lemma elem_of_unmarked v :
  ∀ j p, p ∈ unmarked j v ↔ ∃ k, v !! k = Some false ∧ p = (j + N.of_nat k)%N.
Proof.
  induction v as [|b v IH]; intros j p; simpl.
  - split; [by intros ?%not_elem_of_nil|]. by intros (k & ? & _).
  - assert ((∃ k, (b :: v) !! k = Some false ∧ p = (j + N.of_nat k)%N) ↔
            (b = false ∧ p = j) ∨ ∃ k, v !! k = Some false ∧ p = (N.succ j + N.of_nat k)%N)
      as ->.
    { split.
      - intros ([|k] & Hk & ->); simpl in Hk.
        + left. split; [congruence|lia].
        + right. exists k. split; [done|lia].
      - intros [[-> ->]|(k & Hk & ->)].
        + exists 0%nat. split; [done|lia].
        + exists (S k). split; [done|lia]. }
    destruct b; rewrite ?elem_of_cons, IH.
    + split; [tauto|]. by intros [[? _]|?].
    + split; [intros [->|?]; tauto|]. intros [[_ ->]|?]; tauto.
Qed.

Lemma NoDup_unmarked v : ∀ j, NoDup (unmarked j v).
Proof.
  induction v as [|b v IH]; intros j; simpl; [constructor|].
  destruct b; [apply IH|]. constructor; [|apply IH].
  intros (k & _ & Hk)%elem_of_unmarked. lia.
Qed.

Lemma elem_of_foldl_add W :
  ∀ acc x, x ∈ foldl (λ s c, GoSet.add c s) acc W ↔ x ∈ acc ∨ x ∈ W.
Proof.
  induction W as [|c W IH]; intros acc x; simpl.
  - split; [tauto|]. by intros [?|?%not_elem_of_nil].
  - rewrite IH, elem_of_add, elem_of_cons. tauto.
Qed.

Lemma repeat_replicate {A} (x : A) n : repeat x n = replicate n x.
Proof. induction n; simpl; by f_equal. Qed.

(** ** The gap record of a chunk *)

(** X1.  The gap record the builder computes for a chunk lists, without
    repetition, exactly the piece indices below NumPieces that no contract
    of the file records for the chunk, and exactly the workers handed to
    the builder whose contract records no piece of the chunk; its stored
    gap count is left at zero. *)
Theorem chunkGapsOf_content {order} f W i gaps :
  chunkGapsOf order f W i = Some gaps →
  (∀ p, p ∈ pieces gaps ↔ (N.to_nat p < NumPieces f)%nat ∧ ¬ storedPiece f i p)
  ∧ (∀ id, id ∈ contracts gaps ↔ id ∈ W ∧ ¬ holdsChunk f i id)
  ∧ NoDup (pieces gaps)
  ∧ NoDup (contracts gaps)
  ∧ numGapsField gaps = 0.
Proof.
  intros Hg. pose proof (chunkGapsOf_NoDup f W i gaps Hg) as Hnd.
  unfold chunkGapsOf in Hg. cbv zeta in Hg.
  destruct (markPieces _ _) as [v'|] eqn:Hmark; simpl in Hg; [|done].
  injection Hg as <-. simpl in *.
  rewrite repeat_replicate in Hmark.
  apply markPieces_Some in Hmark as (Hlen & _ & Hfalse).
  rewrite length_replicate in Hlen.
  split_and!; [| |apply NoDup_unmarked|done|done].
  - intros p. rewrite elem_of_unmarked. rewrite <- elem_of_pieceMap. split.
    + intros (k & Hk & ->). apply Hfalse in Hk as [Hk Hps].
      apply lookup_replicate in Hk as [_ Hk].
      rewrite N.add_0_l, Nat2N.id. done.
    + intros [Hp Hps]. exists (N.to_nat p). rewrite N2Nat.id. split; [|lia].
      apply Hfalse. rewrite N2Nat.id. split; [|done].
      by apply lookup_replicate.
  - intros id.
    rewrite elem_of_visit, elem_of_foldl_del, elem_of_foldl_add, <- elem_of_contractMap.
    split; [intros [[?%not_elem_of_nil|?] ?]; done|tauto].
Qed.

Lemma chunkGapsOf_content_witness :
  ∃ gaps, chunkGapsOf Sample.asInserted Sample4.fileG [7; 8; 9]%N 0 = Some gaps
          ∧ 2%N ∈ pieces gaps ∧ 8%N ∈ contracts gaps.
Proof.
  destruct (chunkGapsOf Sample.asInserted Sample4.fileG [7; 8; 9]%N 0) as [gaps|] eqn:Hg;
    [|vm_compute in Hg; discriminate Hg].
  exists gaps. split; [reflexivity|].
  destruct (chunkGapsOf_content Sample4.fileG [7; 8; 9]%N 0 gaps Hg)
    as (Hp & Hc & _).
  split.
  - apply Hp. split; [vm_compute; lia|].
    intros (c & pd & Hin & Hpd & _ & Hpiece). vm_compute in Hin.
    apply list_elem_of_singleton in Hin as ->.
    apply list_elem_of_singleton in Hpd as ->. discriminate Hpiece.
  - apply Hc. split; [right; left|].
    intros (c & pd & Hin & _ & _ & Hid). vm_compute in Hin.
    apply list_elem_of_singleton in Hin as ->. discriminate Hid.
Defined.

(** ** When the builder panics *)

Lemma elem_of_chunkRange f i : i ∈ chunkRange f ↔ (i < numChunks f)%N.
Proof.
  unfold chunkRange. rewrite list_elem_of_fmap. split.
  - intros (k & -> & Hk). apply elem_of_seq in Hk. lia.
  - intros Hi. exists (N.to_nat i). split; [by rewrite N2Nat.id|].
    apply elem_of_seq. lia.
Qed.

Lemma chunkGapsOf_None {order} f W i :
  chunkGapsOf order f W i = None ↔
  ∃ p, storedPiece f i p ∧ (NumPieces f ≤ N.to_nat p)%nat.
Proof.
  unfold chunkGapsOf. cbv zeta.
  destruct (markPieces _ _) as [v|] eqn:Hmark; simpl.
  - split; [done|]. intros (p & Hp%elem_of_pieceMap & Hle).
    apply markPieces_Some in Hmark as (_ & Hin & _).
    specialize (Hin p Hp). rewrite repeat_length in Hin. lia.
  - split; [|done]. intros _.
    apply markPieces_None in Hmark as (p & Hp & Hle).
    rewrite repeat_length in Hle. exists p. by rewrite <- elem_of_pieceMap.
Qed.

Lemma freshEntries_None {order} f W l :
  freshEntries order f W l = None ↔
  ∃ i, i ∈ l ∧ incomplete f i = true ∧ chunkGapsOf order f W i = None.
Proof.
  induction l as [|i l IH]; simpl.
  - split; [done|]. by intros (i & ?%not_elem_of_nil & _).
  - destruct (incomplete f i) eqn:Hinc.
    + destruct (chunkGapsOf order f W i) as [g|] eqn:Hg; simpl.
      * destruct (freshEntries order f W l) as [es|]; simpl.
        -- split; [done|]. intros (j & [->|Hj]%elem_of_cons & Hj1 & Hj2); [congruence|].
           assert (None = Some es) as Habs; [|done]. symmetry. apply IH. by exists j.
        -- split; [|done]. intros _. destruct (proj1 IH eq_refl) as (j & Hj & Hrest).
           exists j. split; [by right|done].
      * split; [|done]. intros _. exists i. split; [left|done].
    + rewrite IH. split.
      * intros (j & Hj & Hrest). exists j. split; [by right|done].
      * intros (j & [->|Hj]%elem_of_cons & Hj1 & Hj2); [congruence|]. by exists j.
Qed.

(** X2.  [addFileToRepairMatrix] panics exactly when some under-redundant
    chunk of the file has a recorded piece whose index is not below
    NumPieces (the write to potentialPieceGaps is then out of range); the
    matrix and the histogram it is given play no part.  A chunk that counts
    as complete is never examined, whatever its piece indices. *)
Theorem addFileToRepairMatrix_panics_iff {order} f W m h :
  addFileToRepairMatrix order f W m h = None ↔
  ∃ i p, (i < numChunks f)%N ∧ incomplete f i = true
         ∧ storedPiece f i p ∧ (NumPieces f ≤ N.to_nat p)%nat.
Proof.
  unfold addFileToRepairMatrix. rewrite addFile_stores.
  transitivity (freshEntries order f W (chunkRange f) = None).
  { destruct (freshEntries order f W (chunkRange f)); simpl; split; done. }
  rewrite freshEntries_None. split.
  - intros (i & Hi%elem_of_chunkRange & Hinc & (p & Hp & Hle)%chunkGapsOf_None). eauto 10.
  - intros (i & p & Hi & Hinc & Hp & Hle). exists i.
    split_and!; [by apply elem_of_chunkRange|done|].
    apply chunkGapsOf_None. eauto.
Qed.

(** ** The matrix and the histogram at the start of an epoch *)

Lemma store_fresh cid g (m : list (chunkID * chunkGaps)) :
  cid ∉ m.*1 → Matrix.store cid g m = m ++ [(cid, g)].
Proof.
  induction m as [|[k v] m IH]; simpl; [done|].
  intros [Hne Hnotin]%not_elem_of_cons.
  rewrite decide_False by done. by rewrite IH.
Qed.

Lemma storeAll_fresh es (m : list (chunkID * chunkGaps)) :
  NoDup es.*1 → (∀ k, k ∈ es.*1 → k ∉ m.*1) → storeAll m es = m ++ es.
Proof.
  revert m. induction es as [|[k g] es IH]; intros m Hnd Hfresh.
  - unfold storeAll. simpl. by rewrite app_nil_r.
  - simpl in Hnd. apply NoDup_cons in Hnd as [Hk Hnd].
    rewrite storeAll_cons, store_fresh by (apply Hfresh; left).
    rewrite IH, <- app_assoc; [done|done|].
    intros k' Hk'. rewrite fmap_app, elem_of_app. simpl.
    intros [Hin|Hin%list_elem_of_singleton].
    + apply (Hfresh k'); [by right|done].
    + by subst.
Qed.

Lemma gapCountOf_app es1 es2 k :
  gapCountOf (es1 ++ es2) k = gapCountOf es1 k + gapCountOf es2 k.
Proof. unfold gapCountOf, len. rewrite filter_app, length_app. lia. Qed.

Lemma lookup_matrix_elem_of (m : list (chunkID * chunkGaps)) cid g :
  NoDup m.*1 → Matrix.lookup cid m = Some g ↔ (cid, g) ∈ m.
Proof.
  induction m as [|[k v] m IH]; simpl; intros Hnd.
  - split; [done|by intros ?%not_elem_of_nil].
  - apply NoDup_cons in Hnd as [Hk Hnd]. rewrite elem_of_cons.
    destruct (decide (k = cid)) as [->|Hne].
    + split; [intros [= ->]; by left|].
      intros [[= ->]|Hin]; [done|].
      exfalso. apply Hk. apply list_elem_of_fmap. by exists (cid, g).
    + rewrite IH by done. split; [by right|]. intros [[= -> ->]|?]; done.
Qed.

Lemma elem_of_freshEntries {order} f W l es cid g :
  freshEntries order f W l = Some es →
  (cid, g) ∈ es ↔
  ∃ i, i ∈ l ∧ incomplete f i = true ∧ cid = ChunkID i (name f)
       ∧ chunkGapsOf order f W i = Some g.
Proof.
  revert es. induction l as [|i l IH]; intros es; simpl.
  - intros [= <-]. split; [by intros ?%not_elem_of_nil|].
    by intros (i & ?%not_elem_of_nil & _).
  - destruct (incomplete f i) eqn:Hinc.
    + destruct (chunkGapsOf order f W i) as [g'|] eqn:Hg; simpl; [|done].
      destruct (freshEntries order f W l) as [es'|]; simpl; [|done].
      intros [= <-]. rewrite elem_of_cons, (IH es' eq_refl). split.
      * intros [[= -> ->]|(j & Hj & Hrest)].
        -- exists i. split_and!; [left|done|done|done].
        -- exists j. split; [by right|done].
      * intros (j & [->|Hj]%elem_of_cons & Hj1 & -> & Hj3).
        -- left. congruence.
        -- right. by exists j.
    + intros Hes. rewrite (IH es Hes). split.
      * intros (j & Hj & Hrest). exists j. split; [by right|done].
      * intros (j & [->|Hj]%elem_of_cons & Hj1 & Hrest); [congruence|]. by exists j.
Qed.

Lemma imap_pair_snd {A} (l : list A) : (imap pair l).*2 = l.
Proof.
  apply list_eq. intros i. rewrite list_lookup_fmap, list_lookup_imap.
  by destruct (l !! i).
Qed.

Lemma elem_of_imap_pair {A} (l : list A) k x : (k, x) ∈ imap pair l ↔ l !! k = Some x.
Proof.
  rewrite elem_of_lookup_imap. split.
  - by intros (i & y & [= -> ->] & Hl).
  - intros Hl. by exists k, x.
Qed.

(** The loop of [createRepairMatrix], started from any matrix that holds
    no chunk of the tracked files still to come; [calls] pairs each file
    with the number of its call. *)
Lemma createRepairMatrix_appends {order : nat → chunkID → list N}
    (trk : string → bool) (W : list N) (calls : list (nat * file)) :
  ∀ (m0 : list (chunkID * chunkGaps)) (h0 : gmap Z Z) m h,
    foldl (λ acc '(k, f), '(repairMatrix, gapCounts) ← acc;
             if trk (name f)
             then addFileToRepairMatrix (order k) f W repairMatrix gapCounts
             else Some (repairMatrix, gapCounts)) (Some (m0, h0)) calls = Some (m, h) →
    NoDup (name <$> filter (λ f, trk (name f) = true) calls.*2) →
    NoDup m0.*1 →
    (∀ cid f, cid ∈ m0.*1 → f ∈ calls.*2 → trk (name f) = true → filename cid ≠ name f) →
    ∃ es, m = m0 ++ es ∧ h = bumpAll h0 es ∧ NoDup m.*1
          ∧ ∀ cid g, (cid, g) ∈ es ↔
                     ∃ k f, (k, f) ∈ calls ∧ trk (name f) = true
                            ∧ entryOf (order k) f W cid g.
Proof.
  induction calls as [|[k f] calls IH]; intros m0 h0 m h; simpl.
  - intros [= <- <-] _ Hnd _. exists []. rewrite app_nil_r. split_and!; try done.
    intros cid g. split; [by intros ?%not_elem_of_nil|].
    by intros (k & f & ?%not_elem_of_nil & _).
  - rewrite filter_cons. destruct (trk (name f)) eqn:Htrk.
    + rewrite decide_True by done. rewrite fmap_cons.
      intros Hfold [Hname Hnames]%NoDup_cons Hnd0 Hfresh.
      destruct (addFileToRepairMatrix (order k) f W m0 h0) as [[m1 h1]|] eqn:Hadd;
        [|exfalso; revert Hfold; clear; induction calls as [|[??] ?]; simpl; done].
      unfold addFileToRepairMatrix in Hadd. rewrite addFile_stores in Hadd.
      destruct (freshEntries (order k) f W (chunkRange f)) as [es1|] eqn:Hes;
        simpl in Hadd; [|done].
      injection Hadd as <- <-.
      pose proof (freshEntries_NoDup f W _ es1 (chunkRange_NoDup f) Hes) as Hnd1.
      assert (∀ c, c ∈ es1.*1 → filename c = name f) as Hfile.
      { intros c Hc. by destruct (freshEntries_keys f W _ es1 Hes c Hc) as (i & _ & _ & ->). }
      assert (storeAll m0 es1 = m0 ++ es1) as Hstore.
      { apply storeAll_fresh; [done|]. intros c Hc Hin.
        apply (Hfresh c f Hin); [left|done|by apply Hfile]. }
      rewrite Hstore in Hfold.
      destruct (IH (m0 ++ es1) (bumpAll h0 es1) m h Hfold Hnames) as (es & -> & -> & Hnd & Hin).
      * rewrite fmap_app. apply NoDup_app. split_and!; [done| |done].
        intros c Hc0 Hc1. apply (Hfresh c f Hc0); [left|done|by apply Hfile].
      * intros cid f' Hcid Hf' Htrk'. rewrite fmap_app in Hcid.
        apply elem_of_app in Hcid as [Hcid|Hcid].
        -- apply (Hfresh cid f' Hcid); [by right|done].
        -- rewrite (Hfile cid Hcid). intros Heq. apply Hname.
           apply list_elem_of_fmap. exists f'. split; [done|].
           by apply list_elem_of_filter.
      * exists (es1 ++ es). rewrite app_assoc. split_and!; try done.
        { unfold bumpAll. by rewrite foldl_app. }
        intros cid g. rewrite elem_of_app, Hin, (elem_of_freshEntries f W _ es1 cid g Hes).
        split.
        -- intros [(i & Hi%elem_of_chunkRange & Hinc & -> & Hg)|(k' & f' & Hf' & Hrest)].
           ++ exists k, f. split_and!; [left|done|]. by exists i.
           ++ exists k', f'. split; [by right|done].
        -- intros (k' & f' & [[= -> ->]|Hf']%elem_of_cons & Htrk' & Hentry).
           ++ left. destruct Hentry as (i & -> & Hi & Hinc & Hg).
              exists i. split_and!; try done. by apply elem_of_chunkRange.
           ++ right. by exists k', f'.
    + rewrite decide_False by done.
      intros Hfold Hnames Hnd0 Hfresh.
      destruct (IH m0 h0 m h Hfold Hnames Hnd0) as (es & -> & -> & Hnd & Hin).
      * intros cid f' Hcid Hf'. apply (Hfresh cid f' Hcid). by right.
      * exists es. split_and!; try done. intros cid g. rewrite Hin. split.
        -- intros (k' & f' & Hf' & Hrest). exists k', f'. split; [by right|done].
        -- intros (k' & f' & [[= -> ->]|Hf']%elem_of_cons & Htrk' & Hentry); [congruence|].
           by exists k', f'.
Qed.

(** X3.  When the tracked files have pairwise different names,
    [createRepairMatrix] returns a histogram that agrees with the matrix
    it returns: every bucket holds the number of chunks of the matrix
    whose gap count is the bucket's key, and no chunk is listed twice. *)
Theorem createRepairMatrix_histogram {order} fs trk W m h :
  NoDup (name <$> filter (λ f, trk (name f) = true) fs) →
  createRepairMatrix order fs trk W = Some (m, h) →
  NoDup m.*1 ∧ ∀ k, Hist.get h k = gapCountOf m k.
Proof.
  intros Hnames Hcreate. unfold createRepairMatrix in Hcreate.
  destruct (createRepairMatrix_appends trk W (imap pair fs) [] ∅ m h Hcreate)
    as (es & -> & -> & Hnd & _).
  - by rewrite imap_pair_snd.
  - constructor.
  - by intros cid f ?%not_elem_of_nil.
  - split; [done|]. intros k. rewrite get_bumpAll. simpl.
    unfold Hist.get. by rewrite lookup_empty.
Qed.

(** X4.  Under the same condition the matrix returned by
    [createRepairMatrix] holds an entry for a chunk exactly when the chunk
    is an under-redundant chunk of a tracked file, and the entry is the
    gap record computed from that file and the given workers, its
    contracts in the order the range of that call visited them; untracked
    files and complete chunks have no entry. *)
Theorem createRepairMatrix_content {order} fs trk W m h cid gaps :
  NoDup (name <$> filter (λ f, trk (name f) = true) fs) →
  createRepairMatrix order fs trk W = Some (m, h) →
  Matrix.lookup cid m = Some gaps ↔
  ∃ k f, fs !! k = Some f ∧ trk (name f) = true ∧ entryOf (order k) f W cid gaps.
Proof.
  intros Hnames Hcreate. unfold createRepairMatrix in Hcreate.
  destruct (createRepairMatrix_appends trk W (imap pair fs) [] ∅ m h Hcreate)
    as (es & -> & -> & Hnd & Hin).
  - by rewrite imap_pair_snd.
  - constructor.
  - by intros c f ?%not_elem_of_nil.
  - rewrite lookup_matrix_elem_of by done. simpl. rewrite Hin.
    by setoid_rewrite elem_of_imap_pair.
Qed.

(** ** The largest gap count *)

(** X5.  The loop that computes maxGaps returns the largest key of
    [gapCounts] whose counter is positive, whatever order the range visits
    the map in; it returns 0 exactly when no positive key has a positive
    counter, so bucket 0, negative keys and counters that have fallen to
    zero or below never keep the scheduler working. *)
Theorem maxGaps_largest_positive_key (h : gmap Z Z) :
  (∀ k, 0 < Hist.get h k → k ≤ Hist.maxGaps h)
  ∧ (Hist.maxGaps h ≠ 0 → 0 < Hist.maxGaps h ∧ 0 < Hist.get h (Hist.maxGaps h))
  ∧ (Hist.maxGaps h = 0 ↔ ∀ k, 0 < k → Hist.get h k ≤ 0).
Proof.
  destruct (maxGaps_spec h) as (H0 & Hmax & Hpos). split_and!.
  - done.
  - intros Hne. destruct Hpos as [?|Hpos]; [done|]. split; [lia|done].
  - split.
    + intros Hz k Hk. destruct (decide (0 < Hist.get h k)) as [Hgt|]; [|lia].
      apply Hmax in Hgt. lia.
    + intros Hall. destruct Hpos as [?|Hpos]; [done|].
      destruct (decide (0 < Hist.maxGaps h)) as [Hgt|]; [|lia].
      specialize (Hall _ Hgt). lia.
Qed.

Lemma length_foldl_del ids (a : list FileContractID) :
  (length (foldl (λ a id, GoSet.del id a) a ids) ≤ length a)%nat.
Proof.
  revert a. induction ids as [|id ids IH]; intros a; simpl; [done|].
  etransitivity; [apply IH|]. apply length_filter.
Qed.

Lemma length_foldl_add W (acc : list FileContractID) :
  (length (foldl (λ s c, GoSet.add c s) acc W) ≤ length acc + length W)%nat.
Proof.
  revert acc. induction W as [|c W IH]; intros acc; simpl; [lia|].
  etransitivity; [apply IH|]. unfold GoSet.add. case_decide; [lia|].
  rewrite length_app. simpl. lia.
Qed.

Lemma chunkGapsOf_numGaps_le {order} f W i gaps :
  chunkGapsOf order f W i = Some gaps → 0 ≤ numGaps gaps ≤ len W.
Proof.
  intros Hperm%chunkGapsOf_contracts_Permutation. apply Permutation_length in Hperm.
  rewrite numGaps_min.
  pose proof (length_foldl_del (default [] (contractMap f !! i))
                (foldl (λ s c, GoSet.add c s) [] W)) as H1.
  pose proof (length_foldl_add W []) as H2. simpl in H2.
  unfold len. lia.
Qed.

(** Every key that a run of the builder leaves with a positive counter
    had one before or is the gap count of a record the run computed. *)
Lemma addFile_positive_keys {order} (P : Z → Prop) f W m h m' h' :
  addFileToRepairMatrix order f W m h = Some (m', h') →
  (∀ i gaps, (i < numChunks f)%N → incomplete f i = true →
             chunkGapsOf order f W i = Some gaps → P (numGaps gaps)) →
  (∀ k, 0 < Hist.get h k → P k) →
  ∀ k, 0 < Hist.get h' k → P k.
Proof.
  unfold addFileToRepairMatrix. rewrite addFile_stores.
  destruct (freshEntries order f W (chunkRange f)) as [es|] eqn:Hes; simpl; [|done].
  intros [= <- <-] Hnew Hold k. rewrite get_bumpAll.
  destruct (decide (gapCountOf es k = 0)) as [->|Hne]; [rewrite Z.add_0_r; apply Hold|].
  intros _. unfold gapCountOf, len in Hne.
  destruct (filter (λ e, numGaps e.2 = k) es) as [|[cid g] l] eqn:Hf; [done|].
  assert ((cid, g) ∈ filter (λ e : chunkID * chunkGaps, numGaps e.2 = k) es) as Hin
    by (rewrite Hf; left).
  apply list_elem_of_filter in Hin as [<- Hin].
  apply (elem_of_freshEntries f W _ es cid g Hes) in Hin as (i & Hi & Hinc & _ & Hg).
  apply (Hnew i g); [by apply elem_of_chunkRange|done|done].
Qed.

Lemma createRepairMatrix_positive_keys {order} (P : Z → Prop)
    (fs : list file) (trk : string → bool) (W : list FileContractID) m h :
  createRepairMatrix order fs trk W = Some (m, h) →
  (∀ o f i gaps, f ∈ fs → trk (name f) = true → (i < numChunks f)%N →
                 incomplete f i = true → chunkGapsOf o f W i = Some gaps → P (numGaps gaps)) →
  ∀ k, 0 < Hist.get h k → P k.
Proof.
  unfold createRepairMatrix. intros Hfold Hnew.
  assert (∀ o f i gaps, f ∈ (imap pair fs).*2 → trk (name f) = true → (i < numChunks f)%N →
                        incomplete f i = true → chunkGapsOf o f W i = Some gaps →
                        P (numGaps gaps)) as Hnew'
    by (by rewrite imap_pair_snd).
  clear Hnew. revert Hfold Hnew'. generalize (imap pair fs). intros calls.
  assert (∀ k, 0 < Hist.get (∅ : gmap Z Z) k → P k) as H0.
  { intros k. unfold Hist.get. rewrite lookup_empty. simpl. lia. }
  revert H0. generalize (∅ : gmap Z Z). generalize ([] : list (chunkID * chunkGaps)).
  induction calls as [|[k f] calls IH]; intros m0 h0 H0; simpl.
  - by intros [= <- <-].
  - destruct (trk (name f)) eqn:Htrk.
    + destruct (addFileToRepairMatrix (order k) f W m0 h0) as [[m1 h1]|] eqn:Hadd;
        [|intros Hfold; exfalso; revert Hfold; clear;
          induction calls as [|[??] ?]; simpl; done].
      intros Hfold Hnew. apply (IH m1 h1); [|done|].
      * apply (addFile_positive_keys P f W m0 h0 m1 h1 Hadd); [|done].
        intros i g. apply Hnew; [left|done].
      * intros o f' i g Hf'. apply Hnew. by right.
    + intros Hfold Hnew. apply (IH m0 h0); [done|done|].
      intros o f' i g Hf'. apply Hnew. by right.
Qed.

(** X6.  The matrix builder never reports more gaps than it was given
    workers: after [createRepairMatrix], maxGaps is at most the number of
    workers passed in; in particular it is 0 when there are none. *)
Theorem createRepairMatrix_maxGaps_le {order} fs trk W m h :
  createRepairMatrix order fs trk W = Some (m, h) →
  0 ≤ Hist.maxGaps h ≤ len W.
Proof.
  intros Hcreate. destruct (maxGaps_spec h) as (H0 & _ & Hpos).
  split; [done|]. destruct Hpos as [->|Hpos]; [unfold len; lia|].
  apply (createRepairMatrix_positive_keys (λ k, k ≤ len W) fs trk W m h Hcreate);
    [|done].
  intros o f i g _ _ _ _ Hg. by apply chunkGapsOf_numGaps_le in Hg as [_ ?].
Qed.


(** ** How many workers a turn waits for *)

(** X8.  The number of workers a turn waits for never exceeds the number
    of active workers; it exceeds the number of available workers as long
    as some active worker is busy, so the wait then consumes at least one
    result; and with maxGaps at most 4 it is the number of active workers:
    the next turn starts only when every active worker is idle again. *)
Theorem needWorkers_bounds maxGaps nActive nAvailable :
  needWorkers maxGaps nActive nAvailable ≤ nActive
  ∧ (nAvailable < nActive → nAvailable < needWorkers maxGaps nActive nAvailable)
  ∧ (nActive ≤ nAvailable → needWorkers maxGaps nActive nAvailable = nActive)
  ∧ (maxGaps ≤ 4 → needWorkers maxGaps nActive nAvailable = nActive)
  ∧ (4 ≤ maxGaps → nAvailable < nActive - (maxGaps - 4) →
     needWorkers maxGaps nActive nAvailable = nActive - (maxGaps - 4)).
Proof. rewrite needWorkers_spec. split_and!; lia. Qed.

Lemma needWorkers_bounds_witness :
  needWorkers 3 5 2 = 5 ∧ 1 < needWorkers 9 5 1 ∧ needWorkers 6 5 1 = 3.
Proof.
  destruct (needWorkers_bounds 3 5 2) as (_ & _ & _ & H4 & _).
  destruct (needWorkers_bounds 9 5 1) as (_ & Hlt & _).
  destruct (needWorkers_bounds 6 5 1) as (_ & _ & _ & _ & Hex).
  split_and!; [apply H4; lia|apply Hlt; lia|apply Hex; lia].
Defined.

(** ** What the wait does to the scheduler *)

Lemma handleResult_facts s need id err now s' need' :
  handleResult s need id err now = (s', need') →
  repairMatrix s' = repairMatrix s ∧ gapCounts s' = gapCounts s
  ∧ ((err = true ∧ is_Some (workerPool s !! id)
      ∧ retiredWorkers s' = retiredWorkers s ++ [id]
      ∧ activeWorkers s' = GoSet.del id (activeWorkers s)
      ∧ availableWorkers s' = availableWorkers s
      ∧ workerPool s' = <[id := Worker now]> (workerPool s)
      ∧ need' = need - 1)
     ∨ (retiredWorkers s' = retiredWorkers s
        ∧ activeWorkers s' = activeWorkers s
        ∧ workerPool s' = workerPool s
        ∧ need' = need
        ∧ availableWorkers s' =
            if err then availableWorkers s else GoSet.add id (availableWorkers s))).
Proof.
  unfold handleResult. destruct err; [destruct (workerPool s !! id) eqn:Hw|];
    intros [= <- <-]; simpl; (split; [done|]); (split; [done|]).
  - left. split_and!; done.
  - by right.
  - by right.
Qed.

(** X9.  Waiting for workers never touches the repair matrix or the
    histogram.  It ends with WaitDone exactly when Available has reached
    need; the workers it retires are appended to the retired list, each of
    them is removed from Active and is a worker of the pool, need has
    dropped by their number, no worker has left Available, and the worker
    pool differs only at the retired workers. *)
Theorem waitForWorkers_outcome events :
  ∀ s need we s' need',
    waitForWorkers events s need = (we, s', need') →
    repairMatrix s' = repairMatrix s ∧ gapCounts s' = gapCounts s
    ∧ (we = WaitDone ↔ need' ≤ len (availableWorkers s'))
    ∧ (∀ id, id ∈ availableWorkers s → id ∈ availableWorkers s')
    ∧ ∃ retired,
        retiredWorkers s' = retiredWorkers s ++ retired
        ∧ need' = need - len retired
        ∧ (∀ id, id ∈ activeWorkers s' ↔ id ∈ activeWorkers s ∧ id ∉ retired)
        ∧ (∀ id, id ∈ retired → is_Some (workerPool s !! id))
        ∧ (∀ id, id ∉ retired → workerPool s' !! id = workerPool s !! id).
Proof.
  assert (∀ s need, (len (availableWorkers s) <? need) = true →
            ∀ we, we ≠ WaitDone →
              repairMatrix s = repairMatrix s ∧ gapCounts s = gapCounts s
              ∧ (we = WaitDone ↔ need ≤ len (availableWorkers s))
              ∧ (∀ id, id ∈ availableWorkers s → id ∈ availableWorkers s)
              ∧ ∃ retired,
                  retiredWorkers s = retiredWorkers s ++ retired
                  ∧ need = need - len retired
                  ∧ (∀ id, id ∈ activeWorkers s ↔ id ∈ activeWorkers s ∧ id ∉ retired)
                  ∧ (∀ id, id ∈ retired → is_Some (workerPool s !! id))
                  ∧ (∀ id, id ∉ retired → workerPool s !! id = workerPool s !! id))
    as Hstuck.
  { intros s need Hlt%Z.ltb_lt we Hwe. split_and!; try done.
    - split; [done|lia].
    - exists []. rewrite app_nil_r. split_and!; try done.
      + unfold len. simpl. lia.
      + intros id. split; [intros ?; split; [done|apply not_elem_of_nil]|tauto].
      + by intros id ?%not_elem_of_nil. }
  assert (∀ s need, (len (availableWorkers s) <? need) = false →
              repairMatrix s = repairMatrix s ∧ gapCounts s = gapCounts s
              ∧ (WaitDone = WaitDone ↔ need ≤ len (availableWorkers s))
              ∧ (∀ id, id ∈ availableWorkers s → id ∈ availableWorkers s)
              ∧ ∃ retired,
                  retiredWorkers s = retiredWorkers s ++ retired
                  ∧ need = need - len retired
                  ∧ (∀ id, id ∈ activeWorkers s ↔ id ∈ activeWorkers s ∧ id ∉ retired)
                  ∧ (∀ id, id ∈ retired → is_Some (workerPool s !! id))
                  ∧ (∀ id, id ∉ retired → workerPool s !! id = workerPool s !! id))
    as Hdone.
  { intros s need Hge%Z.ltb_ge. split_and!; try done.
    exists []. rewrite app_nil_r. split_and!; try done.
    - unfold len. simpl. lia.
    - intros id. split; [intros ?; split; [done|apply not_elem_of_nil]|tauto].
    - by intros id ?%not_elem_of_nil. }
  induction events as [|[id err now|] events IH]; intros s need we s' need'.
  - simpl. destruct (_ <? _) eqn:E; intros [= <- <- <-]; [by apply Hstuck|by apply Hdone].
  - rewrite waitForWorkers_cons. destruct (_ <? _) eqn:E;
      [|intros [= <- <- <-]; by apply Hdone].
    destruct (handleResult s need id err now) as [s1 need1] eqn:Hh.
    intros Hwait. apply IH in Hwait as (Hm & Hh' & Hwe & Hav & retired & Hret & Hneed & Hact & Hpool & Hother).
    apply handleResult_facts in Hh as (Hm1 & Hh1 & Hcase).
    split_and!; [congruence|congruence|done| |].
    + intros x Hx. apply Hav.
      destruct Hcase as [(_ & _ & _ & _ & -> & _)|(_ & _ & _ & _ & ->)]; [done|].
      destruct err; [done|]. apply elem_of_add. by right.
    + destruct Hcase as [(-> & Hin & Hr1 & Ha1 & _ & Hp1 & ->)|(Hr1 & Ha1 & Hp1 & -> & _)].
      * exists (id :: retired). rewrite Hret, Hr1, <- app_assoc. split_and!; [done| | | |].
        -- unfold len in *. simpl length. lia.
        -- intros x. rewrite Hact, Ha1, elem_of_del, not_elem_of_cons. tauto.
        -- intros x [->|Hx]%elem_of_cons; [done|].
           specialize (Hpool x Hx). rewrite Hp1 in Hpool.
           rewrite lookup_insert in Hpool. case_decide; by subst.
        -- intros x [Hne Hx]%not_elem_of_cons. rewrite (Hother x Hx), Hp1.
           by rewrite lookup_insert_ne.
      * exists retired. rewrite Hret, Hr1. split_and!; [done|done| | |].
        -- intros x. by rewrite Hact, Ha1.
        -- intros x Hx. rewrite <- Hp1. by apply Hpool.
        -- intros x Hx. rewrite <- Hp1. by apply Hother.
  - simpl. destruct (_ <? _) eqn:E; intros [= <- <- <-]; [by apply Hstuck|by apply Hdone].
Qed.

Lemma waitForWorkers_outcome_witness :
  ∃ s' need',
    waitForWorkers [Finished 5 true 100; Finished 9 false 0] Sample2.midEpoch 5 =
      (WaitDone, s', need')
    ∧ need' ≤ len (availableWorkers s')
    ∧ repairMatrix s' = repairMatrix Sample2.midEpoch.
Proof.
  destruct (waitForWorkers [Finished 5 true 100; Finished 9 false 0] Sample2.midEpoch 5)
    as [[we s'] need'] eqn:Hwait.
  assert (we = WaitDone) as -> by (vm_compute in Hwait; by injection Hwait as <- _ _).
  exists s', need'. split; [reflexivity|].
  destruct (waitForWorkers_outcome _ _ _ _ _ _ Hwait) as (Hm & _ & Hdone & _).
  split; [by apply Hdone|exact Hm].
Defined.

(** ** A failed upload and the next epoch *)

(** X10.  When a worker of the pool reports a failed upload at time
    [now], it is appended to the retired list and removed from Active,
    need drops by one, and Available is left as it is (the worker is not
    deleted from it).  With the timestamp recorded, the worker is not in
    the eligible set of any epoch that reads the clock at or before
    [now] plus one hour, while the eligibility of every other worker is
    what it was. *)
Theorem failed_upload_retires_worker s need id now s' need' :
  handleResult s need id true now = (s', need') →
  is_Some (workerPool s !! id) →
  retiredWorkers s' = retiredWorkers s ++ [id]
  ∧ (id ∉ activeWorkers s')
  ∧ (∀ id', id' ≠ id → (id' ∈ activeWorkers s' ↔ id' ∈ activeWorkers s))
  ∧ availableWorkers s' = availableWorkers s
  ∧ need' = need - 1
  ∧ (∀ clk, clk id ≤ now + Hour → id ∉ eligibleWorkers (workerPool s') clk)
  ∧ (∀ clk, now + Hour < clk id → id ∈ eligibleWorkers (workerPool s') clk)
  ∧ (∀ clk id', id' ≠ id →
       (id' ∈ eligibleWorkers (workerPool s') clk ↔ id' ∈ eligibleWorkers (workerPool s) clk)).
Proof.
  intros Hh [wk Hwk]. unfold handleResult in Hh. rewrite Hwk in Hh.
  injection Hh as <- <-. simpl. split_and!; try done.
  - rewrite elem_of_del. tauto.
  - intros id' Hne. rewrite elem_of_del. tauto.
  - intros clk Hclk (wk' & Hwk' & Hlt)%elem_of_eligibleWorkers.
    rewrite lookup_insert_eq in Hwk'. injection Hwk' as <-. simpl in Hlt. lia.
  - intros clk Hclk. apply elem_of_eligibleWorkers. exists (Worker now).
    by rewrite lookup_insert_eq.
  - intros clk id' Hne. rewrite !elem_of_eligibleWorkers.
    by rewrite lookup_insert_ne.
Qed.

Lemma failed_upload_retires_worker_witness :
  ∃ s' need',
    handleResult Sample2.midEpoch 4 5%N true (10 * Hour) = (s', need')
    ∧ need' = 3
    ∧ (5%N ∉ activeWorkers s')
    ∧ 5%N ∉ eligibleWorkers (workerPool s') (λ _, 10 * Hour + 7).
Proof.
  destruct (handleResult Sample2.midEpoch 4 5%N true (10 * Hour)) as [s' need'] eqn:Hh.
  destruct (failed_upload_retires_worker _ _ _ _ _ _ Hh)
    as (_ & Hact & _ & _ & Hneed & Hcool & _).
  - vm_compute. by eexists.
  - exists s', need'. split; [reflexivity|]. split; [exact Hneed|].
    split; [exact Hact|]. apply Hcool. vm_compute. discriminate.
Defined.

(** ** Purging retired workers from a chunk *)

Lemma elem_of_foldl_removeFirst_iff ids :
  ∀ cs x, NoDup cs →
    x ∈ foldl (λ c id, removeFirst id c) cs ids ↔ x ∈ cs ∧ x ∉ ids.
Proof.
  induction ids as [|id ids IH]; intros cs x Hnd; simpl.
  - split; [intros ?; split; [done|apply not_elem_of_nil]|tauto].
  - rewrite IH by (by apply NoDup_removeFirst). rewrite not_elem_of_cons. split.
    + intros [Hx Hids]. split_and!; [by eapply elem_of_removeFirst| |done].
      intros ->. by apply (not_elem_of_removeFirst id cs).
    + intros (Hx & Hne & Hids). split; [by apply elem_of_removeFirst_ne|done].
Qed.

Lemma removeFirst_sublist x l : removeFirst x l `sublist_of` l.
Proof.
  induction l as [|y l IH]; simpl; [done|].
  destruct (decide (y = x)); [by apply sublist_cons|by apply sublist_skip].
Qed.

(** X11.  Purging the retired workers from a chunk's missing contracts
    keeps the remaining contracts in their order and removes, for each
    entry of the retired list, the first contract equal to it.  When the
    contracts are free of repetitions the result holds exactly the
    contracts that are not retired. *)
Theorem purgeRetired_removes_retired retired cs :
  purgeRetired retired cs `sublist_of` cs
  ∧ (NoDup cs →
     NoDup (purgeRetired retired cs)
     ∧ ∀ id, id ∈ purgeRetired retired cs ↔ id ∈ cs ∧ id ∉ retired).
Proof.
  split.
  - unfold purgeRetired. revert cs. induction retired as [|r retired IH]; intros cs; simpl.
    + done.
    + etransitivity; [apply IH|apply removeFirst_sublist].
  - intros Hnd. split; [by apply NoDup_purgeRetired|].
    intros id. by apply elem_of_foldl_removeFirst_iff.
Qed.

Lemma purgeRetired_removes_retired_witness :
  purgeRetired [3; 9]%N [1; 2; 3; 4]%N `sublist_of` [1; 2; 3; 4]%N
  ∧ (3%N ∉ purgeRetired [3; 9]%N [1; 2; 3; 4]%N)
  ∧ 4%N ∈ purgeRetired [3; 9]%N [1; 2; 3; 4]%N.
Proof.
  destruct (purgeRetired_removes_retired [3; 9]%N [1; 2; 3; 4]%N) as [Hsub Hnd].
  destruct Hnd as [_ Hin].
  - repeat (constructor; [vm_compute; intros H; repeat (apply elem_of_cons in H as [H|H]; [discriminate H|]); by apply not_elem_of_nil in H|]).
    constructor.
  - split; [exact Hsub|]. split.
    + intros H%Hin. destruct H as [_ H]. apply H. left.
    + apply Hin. split; [do 3 right; left|].
      intros H. repeat (apply elem_of_cons in H as [H|H]; [discriminate H|]).
      by apply not_elem_of_nil in H.
Defined.

(** ** What the dispatch loop sends *)

Lemma dispatch_sent_items w stopAt pool cid nEncoded work :
  ∀ i available cs sent,
    let r := dispatch w stopAt pool cid nEncoded i work available cs sent in
    ∃ done : list (FileContractID * N),
      done `prefix_of` work
      ∧ drSent r = sent ++ map (λ wp, (wp.1, workItem w cid wp.2)) done
      ∧ Forall (λ wp, is_Some (pool !! wp.1) ∧ (N.to_nat wp.2 < nEncoded)%nat) done
      ∧ drCount r = (i + length done)%nat
      ∧ (drEnd r = LoopDone → done = work)
      ∧ drAvailable r = foldl (λ a id, GoSet.del id a) available done.*1
      ∧ drContracts r = foldl (λ c id, removeFirst id c) cs done.*1.
Proof.
  induction work as [|[id p] work IH]; intros i available cs sent; simpl.
  - exists []. rewrite app_nil_r, Nat.add_0_r. by split_and!.
  - assert (∀ e, e ≠ LoopDone →
              ∃ done : list (FileContractID * N),
                done `prefix_of` (id, p) :: work
                ∧ sent = sent ++ map (λ wp, (wp.1, workItem w cid wp.2)) done
                ∧ Forall (λ wp, is_Some (pool !! wp.1) ∧ (N.to_nat wp.2 < nEncoded)%nat) done
                ∧ i = (i + length done)%nat
                ∧ (e = LoopDone → done = (id, p) :: work)
                ∧ available = foldl (λ a id, GoSet.del id a) available done.*1
                ∧ cs = foldl (λ c id, removeFirst id c) cs done.*1) as Hstop.
    { intros e He. exists []. rewrite app_nil_r, Nat.add_0_r.
      split_and!; try done. apply prefix_nil. }
    case_decide as Hp; [|by apply Hstop].
    destruct (pool !! id) as [wk|] eqn:Hwk; [|by apply Hstop].
    destruct (stopAt i); [by apply Hstop|].
    destruct (IH (S i) (GoSet.del id available) (removeFirst id cs)
                 (sent ++ [(id, workItem w cid p)]))
      as (done & Hpre & Hs & Hok & Hcount & Hend & Ha & Hc).
    exists ((id, p) :: done). split_and!; simpl.
    + by apply prefix_cons.
    + by rewrite Hs, <- app_assoc.
    + constructor; [|done]. simpl. split; [by eexists|done].
    + rewrite Hcount. lia.
    + intros He. by rewrite Hend.
    + done.
    + done.
Qed.

Lemma if_ltb_min a b : (if a <? b then a else b) = Z.min a b.
Proof. destruct (Z.ltb_spec a b); lia. Qed.

(** What is known when a chunk has been dispatched to. *)
Lemma scanChunk_dispatched_inv w stopAt pool maxGaps retired available h cid cg
    cg' h' available' sent :
  scanChunk w stopAt pool maxGaps retired available h cid cg =
    Dispatched cg' h' available' sent →
  let useful := usefulWorkers available (contracts cg) in
  let work := zip useful (pieces cg) in
  ¬ (4 ≤ maxGaps ∧ len useful < 4)
  ∧ files w (filename cid) = true ∧ tracking w (filename cid) = true
  ∧ openRepairPath w (filename cid) = true ∧ readAt w cid = true
  ∧ (∃ nEncoded, encode w cid = Some nEncoded
       ∧ Forall (λ wp, is_Some (pool !! wp.1) ∧ (N.to_nat wp.2 < nEncoded)%nat) work)
  ∧ sent = map (λ wp, (wp.1, workItem w cid wp.2)) work
  ∧ available' = foldl (λ a id, GoSet.del id a) available work.*1
  ∧ contracts cg' = foldl (λ c id, removeFirst id c) (contracts cg) work.*1
  ∧ pieces cg' = drop (length work) (pieces cg)
  ∧ numGapsField cg' = numGaps cg'
  ∧ h' = Hist.bump (numGaps cg') 1 (Hist.bump (numGapsField cg) (-1) h).
Proof.
  unfold scanChunk; cbv zeta.
  destruct (Z.leb_spec 4 maxGaps) as [Hmax|Hmax];
    destruct (Z.ltb_spec (len (usefulWorkers available (contracts cg))) 4) as [Hlen|Hlen];
    simpl; try (rewrite deprioritize_purges; done).
  all: destruct (files w (filename cid)); simpl; [|done].
  all: destruct (tracking w (filename cid)); simpl; [|done].
  all: destruct (openRepairPath w (filename cid)); simpl; [|done].
  all: destruct (readAt w cid); simpl; [|done].
  all: destruct (encode w cid) as [nEncoded|]; [|done].
  all: set (r := dispatch w stopAt pool cid nEncoded 0
                   (zip (usefulWorkers available (contracts cg)) (pieces cg))
                   available (contracts cg) []).
  all: destruct (dispatch_sent_items w stopAt pool cid nEncoded
         (zip (usefulWorkers available (contracts cg)) (pieces cg))
         0%nat available (contracts cg) [])
         as (done & Hpre & Hs & Hok & Hcount & Hend & Ha & Hc).
  all: fold r in Hs, Hcount, Hend, Ha, Hc.
  all: destruct (drEnd r); [|done|done].
  all: rewrite (Hend eq_refl) in *; simpl in *.
  all: intros [= <- <- <- <-]; simpl.
  all: rewrite numGaps_min; simpl.
  all: rewrite Hcount, Hc, Ha, Hs.
  all: rewrite !if_ltb_min.
  all: split_and!; try done; try lia; eauto.
Qed.

(** What is known of the work items a chunk of the scan sends, whether
    the loop ran to its end, was stopped at a send or panicked at one. *)
Lemma scanChunk_sent_inv w stopAt pool maxGaps retired available h cid cg :
  match scanChunk w stopAt pool maxGaps retired available h cid cg with
  | Dispatched _ _ _ sent | SendStopped _ _ sent | Panicked _ _ sent =>
      let useful := usefulWorkers available (contracts cg) in
      ∃ (done : list (FileContractID * N)) nEncoded,
        done `prefix_of` zip useful (pieces cg)
        ∧ sent = map (λ wp, (wp.1, workItem w cid wp.2)) done
        ∧ Forall (λ wp, is_Some (pool !! wp.1) ∧ (N.to_nat wp.2 < nEncoded)%nat) done
        ∧ ¬ (4 ≤ maxGaps ∧ len useful < 4)
        ∧ files w (filename cid) = true ∧ tracking w (filename cid) = true
        ∧ openRepairPath w (filename cid) = true ∧ readAt w cid = true
        ∧ encode w cid = Some nEncoded
  | _ => True
  end.
Proof.
  unfold scanChunk; cbv zeta.
  destruct (Z.leb_spec 4 maxGaps) as [Hmax|Hmax];
    destruct (Z.ltb_spec (len (usefulWorkers available (contracts cg))) 4) as [Hlen|Hlen];
    simpl; try (rewrite deprioritize_purges; done).
  all: destruct (files w (filename cid)); simpl; [|done].
  all: destruct (tracking w (filename cid)); simpl; [|done].
  all: destruct (openRepairPath w (filename cid)); simpl; [|done].
  all: destruct (readAt w cid); simpl; [|done].
  all: destruct (encode w cid) as [nEncoded|]; [|done].
  all: set (r := dispatch w stopAt pool cid nEncoded 0
                   (zip (usefulWorkers available (contracts cg)) (pieces cg))
                   available (contracts cg) []).
  all: destruct (dispatch_sent_items w stopAt pool cid nEncoded
         (zip (usefulWorkers available (contracts cg)) (pieces cg))
         0%nat available (contracts cg) [])
         as (done & Hpre & Hs & Hok & _).
  all: fold r in Hs.
  all: destruct (drEnd r).
  all: exists done, nEncoded; split_and!; try done; lia.
Qed.

(** X12.  Every work item a scan sends, whether the scan runs to its
    end, is stopped at a send or panics at one, goes to a worker that was
    available and is in the worker pool, for a chunk of the repair matrix
    whose file is present, tracked, opened, read and encoded without
    error and which passed the batching gate; the worker's contract is
    one the chunk was missing, and the piece is one of the chunk's missing
    pieces and lies inside the encoded chunk. *)
Theorem scan_sends_only_missing_pieces
    w stopAt pool maxGaps retired available h todo id uw :
  (id, uw) ∈ srSent (scan w stopAt pool maxGaps retired available h todo) →
  id ∈ available ∧ is_Some (pool !! id)
  ∧ ∃ cid cg nEncoded,
      (cid, cg) ∈ todo
      ∧ uwChunkIndex uw = chunkIndex cid ∧ uwFile uw = filename cid
      ∧ id ∈ contracts cg
      ∧ uwPieceIndex uw ∈ pieces cg
      ∧ (N.to_nat (uwPieceIndex uw) < nEncoded)%nat
      ∧ files w (filename cid) = true ∧ tracking w (filename cid) = true
      ∧ openRepairPath w (filename cid) = true ∧ readAt w cid = true
      ∧ encode w cid = Some nEncoded
      ∧ ¬ (4 ≤ maxGaps ∧ len (usefulWorkers available (contracts cg)) < 4).
Proof.
  revert h. induction todo as [|[cid cg] todo IH]; intros h; simpl.
  - by intros ?%not_elem_of_nil.
  - pose proof (scanChunk_sent_inv w stopAt pool maxGaps retired available h cid cg) as Hinv.
    assert (∀ sent,
              (let useful := usefulWorkers available (contracts cg) in
               ∃ (done : list (FileContractID * N)) nEncoded,
                 done `prefix_of` zip useful (pieces cg)
                 ∧ sent = map (λ wp, (wp.1, workItem w cid wp.2)) done
                 ∧ Forall (λ wp, is_Some (pool !! wp.1) ∧ (N.to_nat wp.2 < nEncoded)%nat) done
                 ∧ ¬ (4 ≤ maxGaps ∧ len useful < 4)
                 ∧ files w (filename cid) = true ∧ tracking w (filename cid) = true
                 ∧ openRepairPath w (filename cid) = true ∧ readAt w cid = true
                 ∧ encode w cid = Some nEncoded) →
              (id, uw) ∈ sent →
              id ∈ available ∧ is_Some (pool !! id)
              ∧ ∃ cid0 cg0 nEncoded,
                  (cid0, cg0) ∈ (cid, cg) :: todo
                  ∧ uwChunkIndex uw = chunkIndex cid0 ∧ uwFile uw = filename cid0
                  ∧ id ∈ contracts cg0
                  ∧ uwPieceIndex uw ∈ pieces cg0
                  ∧ (N.to_nat (uwPieceIndex uw) < nEncoded)%nat
                  ∧ files w (filename cid0) = true ∧ tracking w (filename cid0) = true
                  ∧ openRepairPath w (filename cid0) = true ∧ readAt w cid0 = true
                  ∧ encode w cid0 = Some nEncoded
                  ∧ ¬ (4 ≤ maxGaps ∧ len (usefulWorkers available (contracts cg0)) < 4))
      as Hone.
    { intros sent (done & nEncoded & Hpre & -> & Hok & Hgate & Hf & Ht & Ho & Hr & He) Hin.
      apply list_elem_of_fmap in Hin as ([id' p] & [= -> ->] & Hin). simpl.
      pose proof (proj1 (Forall_forall _ _) Hok _ Hin) as [Hpool Hidx]. simpl in *.
      assert ((id', p) ∈ zip (usefulWorkers available (contracts cg)) (pieces cg)) as Hzip.
      { destruct Hpre as [rest ->]. apply elem_of_app. by left. }
      pose proof (elem_of_zip_l _ _ _ _ Hzip) as [Hav Hc]%elem_of_usefulWorkers.
      pose proof (elem_of_zip_r _ _ _ _ Hzip) as Hp.
      split_and!; [done|done|].
      exists cid, cg, nEncoded. split_and!; try done. left. }
    destruct (scanChunk w stopAt pool maxGaps retired available h cid cg)
      as [cg' h'|cg' h' available' sent|cg' available' sent|cg' available' sent]; simpl.
    + intros Hin. destruct (IH h' Hin) as (Hav & Hpool & cid0 & cg0 & n & Hin0 & Hrest).
      split_and!; [done|done|]. exists cid0, cg0, n. split; [by right|done].
    + by apply Hone.
    + by apply Hone.
    + by apply Hone.
Qed.

Lemma snd_zip_take {A B} (l : list A) (k : list B) :
  (zip l k).*2 = take (length l) k.
Proof.
  revert k. induction l as [|x l IH]; intros [|y k]; simpl; try done.
  by rewrite IH.
Qed.

Lemma scan_piece_indices w stopAt pool maxGaps retired available todo :
  Forall (λ e : chunkID * chunkGaps, NoDup (pieces e.2)) todo →
  ∀ h, NoDup ((λ x : FileContractID * uploadWork, uwPieceIndex x.2) <$>
              srSent (scan w stopAt pool maxGaps retired available h todo)).
Proof.
  induction 1 as [|[cid cg] todo Hcg _ IH]; intros h; simpl; [constructor|].
  pose proof (scanChunk_sent_inv w stopAt pool maxGaps retired available h cid cg) as Hinv.
  assert (∀ sent,
            (let useful := usefulWorkers available (contracts cg) in
             ∃ (done : list (FileContractID * N)) nEncoded,
               done `prefix_of` zip useful (pieces cg)
               ∧ sent = map (λ wp, (wp.1, workItem w cid wp.2)) done
               ∧ Forall (λ wp, is_Some (pool !! wp.1) ∧ (N.to_nat wp.2 < nEncoded)%nat) done
               ∧ ¬ (4 ≤ maxGaps ∧ len useful < 4)
               ∧ files w (filename cid) = true ∧ tracking w (filename cid) = true
               ∧ openRepairPath w (filename cid) = true ∧ readAt w cid = true
               ∧ encode w cid = Some nEncoded) →
            NoDup ((λ x : FileContractID * uploadWork, uwPieceIndex x.2) <$> sent)) as Hone.
  { intros sent (done & nEncoded & [rest Hpre] & -> & _).
    assert ((λ x : FileContractID * uploadWork, uwPieceIndex x.2) <$>
              map (λ wp : FileContractID * N, (wp.1, workItem w cid wp.2)) done = done.*2) as ->.
    { clear. induction done as [|[id p] done IH]; [done|]. simpl. f_equal. exact IH. }
    apply (sublist_NoDup _ (pieces cg)); [done|].
    pose proof (snd_zip_take (usefulWorkers available (contracts cg)) (pieces cg)) as Hzip.
    rewrite Hpre, fmap_app in Hzip.
    transitivity (take (length (usefulWorkers available (contracts cg))) (pieces cg));
      [|apply sublist_take].
    rewrite <- Hzip. by apply sublist_inserts_r. }
  destruct (scanChunk w stopAt pool maxGaps retired available h cid cg)
    as [cg' h'|cg' h' available' sent|cg' available' sent|cg' available' sent]; simpl;
    [apply IH|by apply Hone|by apply Hone|by apply Hone].
Qed.

(** X13.  With Available and every chunk's missing contracts and missing
    pieces free of repetitions, a scan hands no worker more than one work
    item and hands out no piece index twice, also when it ends in a stop
    or in a panic. *)
Theorem scan_one_item_per_worker w stopAt pool maxGaps retired available h todo :
  NoDup available →
  Forall (λ e : chunkID * chunkGaps, NoDup (contracts e.2)) todo →
  Forall (λ e : chunkID * chunkGaps, NoDup (pieces e.2)) todo →
  NoDup (srSent (scan w stopAt pool maxGaps retired available h todo)).*1
  ∧ NoDup ((λ x : FileContractID * uploadWork, uwPieceIndex x.2) <$>
           srSent (scan w stopAt pool maxGaps retired available h todo)).
Proof.
  intros Ha Hc Hp. split.
  - by destruct (scan_shape w stopAt pool maxGaps retired available h todo Ha Hc)
      as (_ & Hnd & _).
  - by apply scan_piece_indices.
Qed.

(** ** Chunks that cannot be prepared *)

(** X14.  A chunk that passes the batching gate but whose file is gone
    from the renter, is no longer tracked, cannot be opened or read, or
    fails to encode, is skipped as it is: its gap record and the
    histogram are left untouched, nothing is sent for it, and the scan
    goes on with the next chunk. *)
Theorem scan_skips_unprepared_chunk
    w stopAt pool maxGaps retired available h cid cg todo :
  ¬ (4 ≤ maxGaps ∧ len (usefulWorkers available (contracts cg)) < 4) →
  files w (filename cid) = false ∨ tracking w (filename cid) = false
  ∨ openRepairPath w (filename cid) = false ∨ readAt w cid = false
  ∨ encode w cid = None →
  scanChunk w stopAt pool maxGaps retired available h cid cg = Skipped cg h
  ∧ scan w stopAt pool maxGaps retired available h ((cid, cg) :: todo) =
    let rest := scan w stopAt pool maxGaps retired available h todo in
    ScanResult (srEnd rest) ((cid, cg) :: srMatrix rest)
               (srGapCounts rest) (srAvailable rest) (srSent rest).
Proof.
  intros Hgate Herr.
  assert (scanChunk w stopAt pool maxGaps retired available h cid cg = Skipped cg h) as Hskip.
  { unfold scanChunk; cbv zeta.
    replace ((4 <=? maxGaps) && (len (usefulWorkers available (contracts cg)) <? 4))
      with false; cycle 1.
    { symmetry. apply andb_false_iff.
      destruct (Z.leb_spec 4 maxGaps),
        (Z.ltb_spec (len (usefulWorkers available (contracts cg))) 4); auto.
      exfalso. apply Hgate. lia. }
    destruct (files w (filename cid)); simpl; [|done].
    destruct (tracking w (filename cid)); simpl; [|done].
    destruct (openRepairPath w (filename cid)); simpl; [|done].
    destruct (readAt w cid); simpl; [|done].
    destruct (encode w cid); [|done].
    by destruct Herr as [?|[?|[?|[?|?]]]]. }
  split; [done|]. simpl. by rewrite Hskip.
Qed.

Lemma scan_skips_unprepared_chunk_witness :
  scan (World (λ _, false) (λ _, true) (λ _, true) (λ _, true) (λ _, Some 5%nat) (λ _ _, true))
       Sample.neverStop Sample.pool5 2 [] [1; 2; 3]%N {[2 := 1]}
       [(Sample.chunk0, Sample.gaps2)] =
  ScanResult LoopDone [(Sample.chunk0, Sample.gaps2)] {[2 := 1]} [1; 2; 3]%N [].
Proof.
  destruct (scan_skips_unprepared_chunk
           (World (λ _, false) (λ _, true) (λ _, true) (λ _, true) (λ _, Some 5%nat) (λ _ _, true))
           Sample.neverStop Sample.pool5 2 [] [1; 2; 3]%N {[2 := 1]}
           Sample.chunk0 Sample.gaps2 []) as [_ Hscan].
  - intros [H _]. lia.
  - left. reflexivity.
  - rewrite Hscan. reflexivity.
Defined.

(** X15.  A chunk that passes the batching gate and can be prepared ends
    the scan even when there is nothing to send for it, because none of
    its missing contracts is available or because it misses no piece: no
    work item is sent, Available is unchanged, only the chunk's stored gap
    count and the histogram are rewritten, and the chunks after it are not
    looked at in this turn. *)
Theorem scan_stops_at_chunk_without_work
    w stopAt pool maxGaps retired available h cid cg todo nEncoded :
  ¬ (4 ≤ maxGaps ∧ len (usefulWorkers available (contracts cg)) < 4) →
  usefulWorkers available (contracts cg) = [] ∨ pieces cg = [] →
  files w (filename cid) = true →
  tracking w (filename cid) = true →
  openRepairPath w (filename cid) = true →
  readAt w cid = true →
  encode w cid = Some nEncoded →
  scan w stopAt pool maxGaps retired available h ((cid, cg) :: todo) =
  ScanResult LoopDone
    ((cid, {| contracts := contracts cg; pieces := pieces cg;
              numGapsField := numGaps cg |}) :: todo)
    (Hist.bump (numGaps cg) 1 (Hist.bump (numGapsField cg) (-1) h))
    available [].
Proof.
  intros Hgate Hnone Hf Ht Ho Hr He. simpl. unfold scanChunk; cbv zeta.
  replace ((4 <=? maxGaps) && (len (usefulWorkers available (contracts cg)) <? 4))
    with false; cycle 1.
  { symmetry. apply andb_false_iff.
    destruct (Z.leb_spec 4 maxGaps),
      (Z.ltb_spec (len (usefulWorkers available (contracts cg))) 4); auto.
    exfalso. apply Hgate. lia. }
  rewrite Hf, Ht, Ho, Hr, He. simpl negb. cbv iota.
  assert (zip (usefulWorkers available (contracts cg)) (pieces cg) = []) as ->.
  { destruct Hnone as [-> | ->]; [done|].
    by destruct (usefulWorkers available (contracts cg)). }
  simpl. rewrite drop_0, if_ltb_min, numGaps_min. done.
Qed.

Lemma scan_stops_at_chunk_without_work_witness :
  scan Sample.okWorld Sample.neverStop Sample.pool5 2 [] [3%N] {[2 := 2]}
       [(Sample.chunk0, Sample.gaps2); (Sample.chunk1, ChunkGaps [3%N] [0%N] 1)] =
  ScanResult LoopDone
    [(Sample.chunk0, Sample.gaps2); (Sample.chunk1, ChunkGaps [3%N] [0%N] 1)]
    {[2 := 2]} [3%N] [].
Proof.
  rewrite (scan_stops_at_chunk_without_work
             Sample.okWorld Sample.neverStop Sample.pool5 2 [] [3%N] {[2 := 2]}
             Sample.chunk0 Sample.gaps2 [(Sample.chunk1, ChunkGaps [3%N] [0%N] 1)] 5%nat).
  - vm_compute. reflexivity.
  - intros [H _]. lia.
  - left. vm_compute. reflexivity.
  - reflexivity.
  - reflexivity.
  - reflexivity.
  - reflexivity.
  - reflexivity.
Defined.

(** ** What a dispatch does to the gap count and to the histogram *)

Lemma length_removeFirst x (l : list FileContractID) :
  x ∈ l → S (length (removeFirst x l)) = length l.
Proof.
  induction l as [|y l IH]; simpl; [by intros ?%not_elem_of_nil|].
  destruct (decide (y = x)) as [->|Hne]; [done|].
  intros [?|Hin]%elem_of_cons; [congruence|]. simpl. by rewrite IH.
Qed.

Lemma length_foldl_removeFirst ids :
  ∀ cs, NoDup ids → ids ⊆ cs →
    (length (foldl (λ c id, removeFirst id c) cs ids) + length ids)%nat = length cs.
Proof.
  induction ids as [|id ids IH]; intros cs Hnd Hsub; simpl; [lia|].
  apply NoDup_cons in Hnd as [Hid Hnd].
  assert (id ∈ cs) as Hin by (apply Hsub; left).
  rewrite <- (length_removeFirst id cs Hin), <- (IH (removeFirst id cs) Hnd); [lia|].
  intros x Hx. apply elem_of_removeFirst_ne; [by intros ->|]. apply Hsub. by right.
Qed.

Lemma length_del x (l : list FileContractID) :
  NoDup l → x ∈ l → S (length (GoSet.del x l)) = length l.
Proof.
  unfold GoSet.del. induction 1 as [|y l Hy Hl IH]; [by intros ?%not_elem_of_nil|].
  rewrite filter_cons. intros [->|Hin]%elem_of_cons.
  - rewrite decide_False by (by intros []). simpl. f_equal.
    clear IH Hl. induction l as [|z l IH]; [done|].
    apply not_elem_of_cons in Hy as [Hne Hy].
    rewrite filter_cons, decide_True by done. simpl. f_equal. by apply IH.
  - rewrite decide_True by (by intros ->). simpl. f_equal. by apply IH.
Qed.

Lemma length_foldl_del_exact ids :
  ∀ a, NoDup a → NoDup ids → ids ⊆ a →
    (length (foldl (λ a id, GoSet.del id a) a ids) + length ids)%nat = length a.
Proof.
  induction ids as [|id ids IH]; intros a Ha Hnd Hsub; simpl; [lia|].
  apply NoDup_cons in Hnd as [Hid Hnd].
  assert (id ∈ a) as Hin by (apply Hsub; left).
  rewrite <- (length_del id a Ha Hin), <- (IH (GoSet.del id a)); [lia| |done|].
  - by apply NoDup_del.
  - intros x Hx. apply elem_of_del. split; [apply Hsub; by right|by intros ->].
Qed.

(** X16.  With Available and the chunk's missing contracts free of
    repetitions, a completed dispatch sends min(|usefulWorkers|, |missing
    pieces|) work items and shortens the chunk's missing pieces, its
    missing contracts and Available by exactly that number each, so the
    chunk's gap count drops by the number of items sent. *)
Theorem dispatch_lowers_gap_count
    w stopAt pool maxGaps retired available h cid cg cg' h' available' sent :
  scanChunk w stopAt pool maxGaps retired available h cid cg =
    Dispatched cg' h' available' sent →
  NoDup available →
  NoDup (contracts cg) →
  len sent = Z.min (len (usefulWorkers available (contracts cg))) (len (pieces cg))
  ∧ len (pieces cg') = len (pieces cg) - len sent
  ∧ len (contracts cg') = len (contracts cg) - len sent
  ∧ len available' = len available - len sent
  ∧ numGaps cg' = numGaps cg - len sent.
Proof.
  intros Hsc Ha Hc.
  apply scanChunk_dispatched_inv in Hsc
    as (_ & _ & _ & _ & _ & _ & -> & -> & Hcs & Hps & _ & _).
  set (useful := usefulWorkers available (contracts cg)) in *.
  set (work := zip useful (pieces cg)) in *.
  assert (NoDup work.*1 ∧ work.*1 ⊆ available ∧ work.*1 ⊆ contracts cg) as (Hnd & Hsa & Hsc).
  { assert (work.*1 `sublist_of` useful) as Hsl
      by (unfold work; rewrite fst_zip_take; apply sublist_take).
    split_and!.
    - eapply sublist_NoDup; [|exact Hsl]. by apply NoDup_usefulWorkers.
    - intros x Hx. apply (elem_of_sublist _ _ _ Hx) in Hsl.
      by apply elem_of_usefulWorkers in Hsl as [? _].
    - intros x Hx. apply (elem_of_sublist _ _ _ Hx) in Hsl.
      by apply elem_of_usefulWorkers in Hsl as [_ ?]. }
  pose proof (length_foldl_removeFirst work.*1 (contracts cg) Hnd Hsc) as Hlc.
  pose proof (length_foldl_del_exact work.*1 available Ha Hnd Hsa) as Hla.
  rewrite length_fmap in Hlc, Hla.
  assert (length work = (length useful `min` length (pieces cg))%nat) as Hlw
    by apply length_zip.
  rewrite !numGaps_min, Hcs, Hps. unfold len.
  rewrite length_map, length_drop. lia.
Qed.

(** X17.  After a completed dispatch the chunk's stored gap count is its
    gap count, and the histogram has been changed in two buckets at most:
    the bucket of the gap count stored before has lost one and the bucket
    of the new gap count has gained one. *)
Theorem dispatch_moves_histogram_bucket
    w stopAt pool maxGaps retired available h cid cg cg' h' available' sent :
  scanChunk w stopAt pool maxGaps retired available h cid cg =
    Dispatched cg' h' available' sent →
  numGapsField cg' = numGaps cg'
  ∧ ∀ k, Hist.get h' k =
         Hist.get h k - (if decide (numGapsField cg = k) then 1 else 0)
                      + (if decide (numGaps cg' = k) then 1 else 0).
Proof.
  intros Hsc.
  apply scanChunk_dispatched_inv in Hsc
    as (_ & _ & _ & _ & _ & _ & _ & _ & _ & _ & Hfield & ->).
  split; [done|]. intros k. rewrite !get_bump.
  repeat case_decide; subst; try lia; try congruence.
  match goal with H : numGapsField cg = _ |- _ => rewrite H end. lia.
Qed.

(** ** When the scan cannot panic *)

Lemma dispatch_no_panic w stopAt pool cid nEncoded work :
  Forall (λ wp, is_Some (pool !! wp.1) ∧ (N.to_nat wp.2 < nEncoded)%nat) work →
  ∀ i available cs sent,
    drEnd (dispatch w stopAt pool cid nEncoded i work available cs sent) ≠ LoopPanicked.
Proof.
  induction 1 as [|[id p] work [[wk Hwk] Hp] _ IH]; intros i available cs sent; simpl in *.
  - done.
  - rewrite decide_True, Hwk by done. destruct (stopAt i); [done|apply IH].
Qed.

(** X18.  The scan does not panic when every available worker is in the
    worker pool and every missing piece index of every chunk lies inside
    what that chunk encodes to, whatever the stop signal does and whatever
    else fails. *)
Theorem scan_never_panics w stopAt pool maxGaps retired available h todo :
  (∀ id, id ∈ available → is_Some (pool !! id)) →
  (∀ cid cg nEncoded p,
     (cid, cg) ∈ todo → encode w cid = Some nEncoded → p ∈ pieces cg →
     (N.to_nat p < nEncoded)%nat) →
  srEnd (scan w stopAt pool maxGaps retired available h todo) ≠ LoopPanicked.
Proof.
  intros Hpool. revert h. induction todo as [|[cid cg] todo IH]; intros h Hidx; simpl; [done|].
  assert (∀ cg' available' sent,
            scanChunk w stopAt pool maxGaps retired available h cid cg
            ≠ Panicked cg' available' sent) as Hnp.
  { intros cg' available' sent. unfold scanChunk; cbv zeta.
    destruct (_ && _); [by rewrite deprioritize_purges|].
    repeat (match goal with |- context [if negb ?b then _ else _] => destruct b; simpl end;
            [|done]).
    destruct (encode w cid) as [nEncoded|] eqn:He; [|done].
    pose proof (dispatch_no_panic w stopAt pool cid nEncoded
                  (zip (usefulWorkers available (contracts cg)) (pieces cg))) as Hd.
    destruct (drEnd _) eqn:Hend; [done|done|].
    exfalso. eapply Hd; [|exact Hend].
    apply Forall_forall. intros [id p] Hin. simpl. split.
    - apply Hpool. apply elem_of_zip_l in Hin.
      by apply elem_of_usefulWorkers in Hin as [? _].
    - apply (Hidx cid cg nEncoded p); [left|done|by apply elem_of_zip_r in Hin]. }
  destruct (scanChunk w stopAt pool maxGaps retired available h cid cg)
    as [cg' h'|cg' h' available' sent|cg' available' sent|cg' available' sent] eqn:Hsc;
    simpl; [|done|done|by destruct (Hnp cg' available' sent)].
  apply IH. intros c g n p Hin. apply Hidx. by right.
Qed.

(** ** Who is given work during an epoch *)

Lemma iteration_sent env s id uw :
  (id, uw) ∈ oSent (iteration env s) → (id, uw) ∈ srSent (scanMatrix env s).
Proof.
  unfold iteration. destruct (stopCheck _); [|by intros ?%not_elem_of_nil].
  destruct (_ =? 0); [by intros ?%not_elem_of_nil|]. cbv zeta.
  destruct (srEnd _); simpl; try done.
  destruct (needOf _ _ _) as [need newMatrix].
  destruct (waitForWorkers _ _ _) as [[[| |] s2] need']; simpl; try done.
  destruct newMatrix; simpl; [done|]. by destruct (drainNewFiles _ _).
Qed.

Lemma iteration_sent_available eligible env s inFlight id uw :
  epochInv eligible s inFlight →
  (id, uw) ∈ oSent (iteration env s) →
  id ∈ availableWorkers s.
Proof.
  intros [I1 _ _ _ _ _ I7] Hsent%iteration_sent. unfold scanMatrix in Hsent.
  destruct (scan_shape (theWorld env) (stopAtSend env) (workerPool s)
              (Hist.maxGaps (gapCounts s)) (retiredWorkers s) (availableWorkers s)
              (gapCounts s) (repairMatrix s) I1 I7) as (_ & _ & Hsub & _).
  apply Hsub. apply list_elem_of_fmap. by exists (id, uw).
Qed.

(** X19.  At any point of an epoch, the work items of the next turn,
    those sent before a stop or a panic included, go only to workers that
    were eligible when the epoch started, are still active, and hold no
    unanswered work item. *)
Theorem turn_sends_to_idle_eligible_workers e pool s0 s inFlight env id uw :
  startOfEpoch e pool = Some s0 →
  rtc epochStep (s0, []) (s, inFlight) →
  (id, uw) ∈ oSent (iteration env s) →
  id ∈ eligibleWorkers pool (clock e)
  ∧ id ∈ activeWorkers s
  ∧ id ∈ availableWorkers s
  ∧ id ∉ inFlight.
Proof.
  intros Hstart Hsteps Hsent.
  pose proof (epochInv_steps _ (s0, []) (s, inFlight) Hsteps (epochInv_start e pool s0 Hstart))
    as Hinv. simpl in Hinv.
  pose proof (iteration_sent_available _ env s inFlight id uw Hinv Hsent) as Hav.
  destruct Hinv as [_ H2 H3 _ _ H6 _].
  split_and!; [by apply H3, H2|by apply H2|done|].
  intros Hfl. by apply (H6 id).
Qed.

Lemma retired_not_active_step s inFlight s' inFlight' :
  epochStep (s, inFlight) (s', inFlight') →
  (∀ id, id ∈ retiredWorkers s → id ∉ activeWorkers s) →
  ∀ id, id ∈ retiredWorkers s' → id ∉ activeWorkers s'.
Proof.
  inversion 1 as [env s1 fl Hend|s1 fl need wid err now Hid|order s1 fl f m h Hadd
                 |s1 fl m available active Hm Hav Hac]; subst; intros Hinv id; simpl.
  - apply Hinv.
  - unfold handleResult. destruct err; [destruct (workerPool s !! wid)|]; simpl;
      try apply Hinv.
    rewrite elem_of_app, list_elem_of_singleton, elem_of_del.
    intros [Hin| ->]; [|tauto]. intros [Hact _]. by apply (Hinv id).
  - apply Hinv.
  - rewrite Hac. apply Hinv.
Qed.

Lemma retired_not_active_steps (x y : sched * list FileContractID) :
  rtc epochStep x y →
  (∀ id, id ∈ retiredWorkers x.1 → id ∉ activeWorkers x.1) →
  ∀ id, id ∈ retiredWorkers y.1 → id ∉ activeWorkers y.1.
Proof.
  induction 1 as [x|[s fl] [s' fl'] z Hstep _ IH]; [done|].
  intros Hinv. apply IH. by eapply retired_not_active_step.
Qed.

(** X20.  A worker retired during an epoch stays out for the rest of
    it: at every later point it is neither active nor available, holds
    no unanswered work item, and the next turn sends it nothing. *)
Theorem retired_worker_gets_no_work e pool s0 s inFlight id :
  startOfEpoch e pool = Some s0 →
  rtc epochStep (s0, []) (s, inFlight) →
  id ∈ retiredWorkers s →
  (id ∉ activeWorkers s)
  ∧ (id ∉ availableWorkers s)
  ∧ (id ∉ inFlight)
  ∧ ∀ env uw, (id, uw) ∉ oSent (iteration env s).
Proof.
  intros Hstart Hsteps Hret.
  pose proof (epochInv_steps _ (s0, []) (s, inFlight) Hsteps (epochInv_start e pool s0 Hstart))
    as Hinv. simpl in Hinv.
  pose proof (invAvailableActive _ _ _ Hinv) as H2.
  pose proof (invInFlightActive _ _ _ Hinv) as H5.
  assert (id ∉ activeWorkers s) as Hact.
  { apply (retired_not_active_steps (s0, []) (s, inFlight) Hsteps); [|done].
    simpl. apply startOfEpoch_workers in Hstart as (_ & _ & -> & _).
    by intros x ?%not_elem_of_nil. }
  split_and!; [done| | |].
  - intros Hav. by apply Hact, H2.
  - intros Hfl. by apply Hact, H5.
  - intros env uw Hsent.
    by apply Hact, H2, (iteration_sent_available _ env s inFlight id uw Hinv).
Qed.

(** X21.  A worker whose last upload failure is less than an hour old
    when the epoch reads the clock is sent nothing during that epoch: at
    every point of the epoch it is missing from Available and from Active
    and the next turn has no work item for it. *)
Theorem worker_in_cooldown_gets_no_work e pool s0 s inFlight id wk :
  startOfEpoch e pool = Some s0 →
  rtc epochStep (s0, []) (s, inFlight) →
  pool !! id = Some wk →
  clock e id ≤ recentUploadFailure wk + Hour →
  (id ∉ activeWorkers s)
  ∧ (id ∉ availableWorkers s)
  ∧ ∀ env uw, (id, uw) ∉ oSent (iteration env s).
Proof.
  intros Hstart Hsteps Hwk Hclock.
  assert (id ∉ eligibleWorkers pool (clock e)) as Hel.
  { intros (wk' & Hwk' & Hlt)%elem_of_eligibleWorkers.
    rewrite Hwk in Hwk'. injection Hwk' as <-. lia. }
  pose proof (epochInv_steps _ (s0, []) (s, inFlight) Hsteps (epochInv_start e pool s0 Hstart))
    as Hinv. simpl in Hinv.
  pose proof (invAvailableActive _ _ _ Hinv) as H2.
  pose proof (invActiveEligible _ _ _ Hinv) as H3.
  split_and!.
  - intros Hact. by apply Hel, H3.
  - intros Hav. by apply Hel, H3, H2.
  - intros env uw Hsent.
    by apply Hel, H3, H2, (iteration_sent_available _ env s inFlight id uw Hinv).
Qed.

(** ** Which chunks the builder takes for under-redundant *)

(** X22.  The builder takes a chunk for under-redundant exactly when the
    contracts of the file record fewer than NumPieces pieces for it,
    counting a piece as often as it is recorded: a chunk with NumPieces
    records counts as complete whichever piece indices they carry. *)
Theorem incomplete_counts_piece_records f i :
  incomplete f i = true ↔
  (length (fileContracts f ≫= λ c, filter (λ p, Chunk p = i) (Pieces c)) < NumPieces f)%nat.
Proof.
  unfold incomplete. rewrite pieceMap_lookup. unfold len.
  assert (length (fileContracts f ≫= λ c, Piece <$> filter (λ p, Chunk p = i) (Pieces c)) =
          length (fileContracts f ≫= λ c, filter (λ p, Chunk p = i) (Pieces c))) as ->.
  { induction (fileContracts f) as [|c cs IH]; [done|].
    by rewrite !bind_cons, !length_app, length_fmap, IH. }
  rewrite Z.ltb_lt. lia.
Qed.

(** ** What a run of the builder leaves alone *)

Lemma storeAll_keys es :
  ∀ (m : list (chunkID * chunkGaps)) k, k ∈ (storeAll m es).*1 ↔ k ∈ m.*1 ∨ k ∈ es.*1.
Proof.
  induction es as [|[cid g] es IH]; intros m k.
  - unfold storeAll. simpl. split; [tauto|]. by intros [?|?%not_elem_of_nil].
  - rewrite storeAll_cons, IH, store_keys_subset. simpl. rewrite elem_of_cons. tauto.
Qed.

(** X23.  A run of [addFileToRepairMatrix] removes no entry from the
    repair matrix, and it leaves as it is the entry (or the absence of
    one) of every chunk of another file, of every chunk index past the
    end of the file and of every chunk it takes for complete; the keys it
    adds are under-redundant chunks of the file. *)
Theorem addFileToRepairMatrix_frame {order} f W m h m' h' :
  addFileToRepairMatrix order f W m h = Some (m', h') →
  (∀ cid, cid ∈ m.*1 → cid ∈ m'.*1)
  ∧ (∀ cid, cid ∈ m'.*1 → cid ∉ m.*1 →
       filename cid = name f ∧ (chunkIndex cid < numChunks f)%N
       ∧ incomplete f (chunkIndex cid) = true)
  ∧ (∀ cid, filename cid ≠ name f ∨ (numChunks f ≤ chunkIndex cid)%N
            ∨ incomplete f (chunkIndex cid) = false →
       Matrix.lookup cid m' = Matrix.lookup cid m).
Proof.
  unfold addFileToRepairMatrix. rewrite addFile_stores.
  destruct (freshEntries order f W (chunkRange f)) as [es|] eqn:Hes; simpl; [|done].
  intros [= <- <-].
  assert (∀ cid, cid ∈ es.*1 →
            filename cid = name f ∧ (chunkIndex cid < numChunks f)%N
            ∧ incomplete f (chunkIndex cid) = true) as Hkeys.
  { intros cid Hcid.
    destruct (freshEntries_keys f W _ es Hes cid Hcid) as (i & Hi%elem_of_chunkRange & Hinc & ->).
    done. }
  split_and!.
  - intros cid Hcid. apply storeAll_keys. by left.
  - intros cid [?|Hcid]%storeAll_keys Hnew; [done|]. by apply Hkeys.
  - intros cid Hout. apply lookup_storeAll_notin. intros Hcid.
    destruct (Hkeys cid Hcid) as (Hname & Hidx & Hinc).
    destruct Hout as [?|[?|?]]; [done|lia|congruence].
Qed.

(** ** New files folded into the matrix *)

Lemma chunkGapsOf_contracts_subset {order} f W i gaps id :
  chunkGapsOf order f W i = Some gaps → id ∈ contracts gaps → id ∈ W.
Proof.
  unfold chunkGapsOf. cbv zeta.
  destruct (markPieces _ _); simpl; [|done]. intros [= <-]. simpl.
  rewrite elem_of_visit, elem_of_foldl_del, elem_of_foldl_add.
  by intros [[?%not_elem_of_nil|?] _].
Qed.

Lemma addFile_lookup {order} f W (m : list (chunkID * chunkGaps)) h m' h' cid gaps :
  addFileToRepairMatrix order f W m h = Some (m', h') →
  Matrix.lookup cid m' = Some gaps →
  Matrix.lookup cid m = Some gaps ∨ entryOf order f W cid gaps.
Proof.
  unfold addFileToRepairMatrix. rewrite addFile_stores.
  destruct (freshEntries order f W (chunkRange f)) as [es|] eqn:Hes; simpl; [|done].
  intros [= <- <-] Hlook.
  destruct (decide (cid ∈ es.*1)) as [Hin|Hnotin].
  - right. apply list_elem_of_fmap in Hin as ([cid' g'] & -> & Hin). simpl in *.
    pose proof (freshEntries_NoDup f W _ es (chunkRange_NoDup f) Hes) as Hnd.
    rewrite (lookup_storeAll_in es m cid' g' Hnd Hin) in Hlook. injection Hlook as ->.
    apply (elem_of_freshEntries f W _ es cid' gaps Hes) in Hin
      as (i & Hi%elem_of_chunkRange & Hinc & -> & Hg).
    by exists i.
  - left. by rewrite lookup_storeAll_notin in Hlook.
Qed.

Lemma addFile_keeps_keys {order} f W (m : list (chunkID * chunkGaps)) h m' h' cid :
  addFileToRepairMatrix order f W m h = Some (m', h') → cid ∈ m.*1 → cid ∈ m'.*1.
Proof.
  unfold addFileToRepairMatrix. rewrite addFile_stores.
  destruct (freshEntries order f W (chunkRange f)) as [es|]; simpl; [|done].
  intros [= <- <-] Hin. apply storeAll_keys. by left.
Qed.

Lemma drain_keeps_keys (order : nat → chunkID → list N) W (calls : list (nat * file)) :
  ∀ (m : list (chunkID * chunkGaps)) (h : gmap Z Z) m' h',
    foldl (λ acc '(k, f), '(m, h) ← acc; addFileToRepairMatrix (order k) f W m h)
          (Some (m, h)) calls = Some (m', h') →
    ∀ cid, cid ∈ m.*1 → cid ∈ m'.*1.
Proof.
  induction calls as [|[k f] calls IH]; intros m h m' h'; simpl.
  - by intros [= <- <-].
  - destruct (addFileToRepairMatrix (order k) f W m h) as [[m1 h1]|] eqn:Hadd;
      [|intros Hfold; exfalso; revert Hfold; clear;
        induction calls as [|[??] ?]; simpl; done].
    intros Hfold cid Hcid. apply (IH m1 h1 _ _ Hfold).
    by eapply addFile_keeps_keys.
Qed.

(** X24.  Draining the new files changes neither the worker sets, the
    retired list nor the worker pool, and removes no chunk from the repair
    matrix.  Every entry of the matrix afterwards is an entry it had
    before or the gap record of an under-redundant chunk of one of the
    new files, computed from the active workers: its missing contracts
    are active workers only. *)
Theorem drainNewFiles_adds_active_contracts {order} pending s s' :
  drainNewFiles order pending s = Some s' →
  availableWorkers s' = availableWorkers s
  ∧ activeWorkers s' = activeWorkers s
  ∧ retiredWorkers s' = retiredWorkers s
  ∧ workerPool s' = workerPool s
  ∧ (∀ cid, cid ∈ (repairMatrix s).*1 → cid ∈ (repairMatrix s').*1)
  ∧ ∀ cid gaps,
      Matrix.lookup cid (repairMatrix s') = Some gaps →
      Matrix.lookup cid (repairMatrix s) = Some gaps
      ∨ ((∃ k f, pending !! k = Some f ∧ entryOf (order k) f (activeWorkers s) cid gaps)
         ∧ ∀ id, id ∈ contracts gaps → id ∈ activeWorkers s).
Proof.
  unfold drainNewFiles.
  destruct (foldl _ _ (imap pair pending)) as [[m' h']|] eqn:Hfold; simpl; [|done].
  intros [= <-]. simpl. split_and!; try done.
  - by apply (drain_keeps_keys _ _ _ _ _ _ _ Hfold).
  - setoid_rewrite <- elem_of_imap_pair.
    revert Hfold. generalize (repairMatrix s) (gapCounts s).
    generalize (imap pair pending). intros calls.
    induction calls as [|[k f] calls IH]; intros m h; simpl.
    + intros [= <- <-] cid gaps ?. by left.
    + destruct (addFileToRepairMatrix (order k) f (activeWorkers s) m h)
        as [[m1 h1]|] eqn:Hadd;
        [|intros Hfold; exfalso; revert Hfold; clear;
          induction calls as [|[??] ?]; simpl; done].
      intros Hfold cid gaps Hlook.
      destruct (IH m1 h1 Hfold cid gaps Hlook) as [Hold|[(k' & f' & Hf' & Hentry) Hact]].
      * destruct (addFile_lookup f _ m h m1 h1 cid gaps Hadd Hold) as [?|Hentry];
          [by left|right].
        split; [exists k, f; split; [left|done]|].
        destruct Hentry as (i & _ & _ & _ & Hg). intros id.
        by apply (chunkGapsOf_contracts_subset (order:=order k) f _ i gaps).
      * right. split; [|done]. exists k', f'. split; [by right|done].
Qed.

(** ** Chunks stay in the matrix *)

Lemma scan_keeps_keys w stopAt pool maxGaps retired available todo :
  ∀ h, (srMatrix (scan w stopAt pool maxGaps retired available h todo)).*1 = todo.*1.
Proof.
  induction todo as [|[cid cg] todo IH]; intros h; simpl; [done|].
  destruct (scanChunk w stopAt pool maxGaps retired available h cid cg); simpl;
    try done. by rewrite IH.
Qed.

Lemma waitForWorkers_keeps_matrix events :
  ∀ s need, repairMatrix (waitForWorkers events s need).1.2 = repairMatrix s.
Proof.
  induction events as [|[id err now|] events IH]; intros s need.
  - simpl. by destruct (_ <? _).
  - rewrite waitForWorkers_cons. destruct (_ <? _); [|done].
    destruct (handleResult s need id err now) as [s1 need1] eqn:Hh.
    rewrite IH. unfold handleResult in Hh.
    destruct err; [destruct (workerPool s !! id)|]; by injection Hh as <- _.
  - simpl. by destruct (_ <? _).
Qed.

(** X25.  No chunk is ever taken out of the repair matrix during an
    epoch: the scan of a turn leaves the keys of the matrix as they are,
    in the same order, also for a chunk whose gap count has reached 0, and
    a whole turn (scan, wait, new files) ends with every chunk it started
    with still in the matrix. *)
Theorem turn_keeps_chunks env s :
  (srMatrix (scanMatrix env s)).*1 = (repairMatrix s).*1
  ∧ ∀ cid, cid ∈ (repairMatrix s).*1 →
           cid ∈ (repairMatrix (oState (iteration env s))).*1.
Proof.
  split; [apply scan_keeps_keys|]. intros cid Hcid.
  assert (cid ∈ (repairMatrix (afterScan s (scanMatrix env s))).*1) as Hscan.
  { simpl. unfold scanMatrix. by rewrite scan_keeps_keys. }
  unfold iteration. destruct (stopCheck _); [|done].
  destruct (_ =? 0); [done|]. cbv zeta.
  destruct (srEnd _); simpl; try done.
  destruct (needOf _ _ _) as [need newMatrix].
  pose proof (waitForWorkers_keeps_matrix (results env)
                (afterScan s (scanMatrix env s)) need) as Hwait.
  destruct (waitForWorkers _ _ _) as [[we s2] need']; simpl in Hwait.
  assert (cid ∈ (repairMatrix s2).*1) as Hs2 by (by rewrite Hwait).
  destruct we; simpl; try done.
  destruct newMatrix; simpl; [done|].
  destruct (drainNewFiles (rangeOrder env) (newFiles env) s2) as [s3|] eqn:Hdrain; simpl; [|done].
  unfold drainNewFiles in Hdrain.
  destruct (foldl _ _ (imap pair (newFiles env))) as [[m' h']|] eqn:Hfold;
    simpl in Hdrain; [|done].
  injection Hdrain as <-. simpl.
  by apply (drain_keeps_keys _ _ _ _ _ _ _ Hfold).
Qed.

(** ** The statements above on concrete inputs *)

(** Decidable side conditions of the samples are settled by evaluation. *)
Ltac by_evaluation := apply (bool_decide_unpack _); vm_compute; exact I.

Lemma sample_epoch_after_failure :
  ∃ s0 s inFlight,
    startOfEpoch Sample3.epoch Sample.pool5 = Some s0
    ∧ rtc epochStep (s0, []) (s, inFlight)
    ∧ retiredWorkers s = [3%N]
    ∧ inFlight = [4; 2; 5; 1]%N.
Proof.
  eexists _, _, _. split; [apply sample_epoch_start|]. split.
  - eapply rtc_l; [apply (StepScan Sample3.turn1)|
                   apply rtc_once, (StepResult _ _ 4 3%N true 100)].
    + vm_compute. discriminate.
    + vm_compute. do 3 right. left.
  - split; vm_compute; reflexivity.
Qed.

Lemma createRepairMatrix_histogram_witness :
  ∃ m h,
    createRepairMatrix Sample.allAsInserted [Sample.fileF; Sample4.fileG] (λ _, true) [1; 2; 3; 4; 5]%N = Some (m, h)
    ∧ NoDup m.*1 ∧ Hist.get h 5 = gapCountOf m 5.
Proof.
  destruct (createRepairMatrix Sample.allAsInserted [Sample.fileF; Sample4.fileG] (λ _, true) [1; 2; 3; 4; 5]%N)
    as [[m h]|] eqn:Hc; [|vm_compute in Hc; discriminate Hc].
  exists m, h. split; [reflexivity|].
  destruct (createRepairMatrix_histogram (order:=Sample.allAsInserted)
              [Sample.fileF; Sample4.fileG] (λ _, true) [1; 2; 3; 4; 5]%N m h)
    as [Hnd Hh]; [by_evaluation|exact Hc|].
  split; [exact Hnd|apply Hh].
Defined.

Lemma createRepairMatrix_content_witness :
  ∃ m h k f,
    createRepairMatrix Sample.allAsInserted [Sample.fileF; Sample4.fileG] (λ _, true) [7; 8]%N = Some (m, h)
    ∧ [Sample.fileF; Sample4.fileG] !! k = Some f
    ∧ entryOf (Sample.allAsInserted k) f [7; 8]%N (ChunkID 0 "g") (ChunkGaps [8%N] [0; 2]%N 0).
Proof.
  destruct (createRepairMatrix Sample.allAsInserted [Sample.fileF; Sample4.fileG] (λ _, true) [7; 8]%N)
    as [[m h]|] eqn:Hc; [|vm_compute in Hc; discriminate Hc].
  destruct (proj1 (createRepairMatrix_content
                     [Sample.fileF; Sample4.fileG] (λ _, true) [7; 8]%N m h
                     (ChunkID 0 "g") (ChunkGaps [8%N] [0; 2]%N 0)
                     ltac:(by_evaluation) Hc))
    as (k & f & Hf & _ & Hentry).
  - vm_compute in Hc. injection Hc as <- _. vm_compute. reflexivity.
  - exists m, h, k, f. split; [reflexivity|]. split; [exact Hf|exact Hentry].
Defined.

Lemma createRepairMatrix_maxGaps_le_witness :
  ∃ m h,
    createRepairMatrix Sample.allAsInserted [Sample.fileF] (λ _, true) [7; 8]%N = Some (m, h)
    ∧ 0 ≤ Hist.maxGaps h ≤ 2.
Proof.
  destruct (createRepairMatrix Sample.allAsInserted [Sample.fileF] (λ _, true) [7; 8]%N)
    as [[m h]|] eqn:Hc; [|vm_compute in Hc; discriminate Hc].
  exists m, h. split; [reflexivity|].
  exact (createRepairMatrix_maxGaps_le [Sample.fileF] (λ _, true) [7; 8]%N m h Hc).
Defined.


(** A scan that panics at its fourth send, after three work items have
    gone out. *)
Lemma scan_sends_only_missing_pieces_witness :
  let r := scan Sample4.shortWorld Sample.neverStop Sample.pool5 5 [] [4; 2; 5; 3; 1]%N
                {[5 := 2]} [(Sample.chunk0, Sample.gaps5); (Sample.chunk1, Sample.gaps5)] in
  srEnd r = LoopPanicked
  ∧ (srSent r).*1 = [4; 2; 5]%N
  ∧ srAvailable r = [3; 1]%N
  ∧ 5%N ∈ [4; 2; 5; 3; 1]%N ∧ is_Some (Sample.pool5 !! 5%N)
  ∧ ∃ cid cg, (cid, cg) ∈ [(Sample.chunk0, Sample.gaps5); (Sample.chunk1, Sample.gaps5)]
              ∧ 2%N ∈ pieces cg.
Proof.
  cbv zeta.
  destruct (scan_sends_only_missing_pieces
              Sample4.shortWorld Sample.neverStop Sample.pool5 5 [] [4; 2; 5; 3; 1]%N
              {[5 := 2]} [(Sample.chunk0, Sample.gaps5); (Sample.chunk1, Sample.gaps5)]
              5%N (UploadWork 0 "f" 2 Ciphertext))
    as (Hav & Hpool & cid & cg & n & Hin & _ & _ & _ & Hp & _).
  - vm_compute. do 2 right. left.
  - split; [vm_compute; reflexivity|]. split; [vm_compute; reflexivity|].
    split; [vm_compute; reflexivity|]. split; [exact Hav|]. split; [exact Hpool|].
    exists cid, cg. split; [exact Hin|exact Hp].
Defined.

Lemma scan_one_item_per_worker_witness :
  let r := scan Sample4.shortWorld Sample.neverStop Sample.pool5 5 [] [4; 2; 5; 3; 1]%N
                {[5 := 2]} [(Sample.chunk0, Sample.gaps5)] in
  srEnd r = LoopPanicked ∧ length (srSent r) = 3%nat ∧ NoDup (srSent r).*1.
Proof.
  cbv zeta. split; [vm_compute; reflexivity|]. split; [vm_compute; reflexivity|].
  apply (scan_one_item_per_worker
           Sample4.shortWorld Sample.neverStop Sample.pool5 5 [] [4; 2; 5; 3; 1]%N {[5 := 2]}
           [(Sample.chunk0, Sample.gaps5)]).
  - by_evaluation.
  - constructor; [simpl; by_evaluation|constructor].
  - constructor; [simpl; by_evaluation|constructor].
Defined.

Lemma dispatch_lowers_gap_count_witness :
  ∃ cg' h' available' sent,
    scanChunk Sample.okWorld Sample.neverStop Sample.pool5 2 [] [1; 2; 3]%N {[2 := 1]}
              Sample.chunk0 Sample.gaps2 = Dispatched cg' h' available' sent
    ∧ len sent = 2 ∧ numGaps cg' = 0 ∧ len available' = 1.
Proof.
  destruct (scanChunk Sample.okWorld Sample.neverStop Sample.pool5 2 [] [1; 2; 3]%N
                      {[2 := 1]} Sample.chunk0 Sample.gaps2)
    as [|cg' h' available' sent| |] eqn:Hsc; try (vm_compute in Hsc; discriminate Hsc).
  exists cg', h', available', sent. split; [reflexivity|].
  destruct (dispatch_lowers_gap_count _ _ _ _ _ _ _ _ _ _ _ _ _ Hsc)
    as (Hn & _ & _ & Ha & Hg); [by_evaluation|simpl; by_evaluation|].
  assert (len sent = 2) as Hs by (rewrite Hn; vm_compute; reflexivity).
  split; [exact Hs|]. split.
  - rewrite Hg, Hs. vm_compute. reflexivity.
  - rewrite Ha, Hs. vm_compute. reflexivity.
Defined.

Lemma dispatch_moves_histogram_bucket_witness :
  ∃ cg' h' available' sent,
    scanChunk Sample.okWorld Sample.neverStop Sample.pool5 2 [] [1; 2; 3]%N {[2 := 1]}
              Sample.chunk0 Sample.gaps2 = Dispatched cg' h' available' sent
    ∧ numGapsField cg' = numGaps cg'.
Proof.
  destruct (scanChunk Sample.okWorld Sample.neverStop Sample.pool5 2 [] [1; 2; 3]%N
                      {[2 := 1]} Sample.chunk0 Sample.gaps2)
    as [|cg' h' available' sent| |] eqn:Hsc; try (vm_compute in Hsc; discriminate Hsc).
  exists cg', h', available', sent. split; [reflexivity|].
  exact (proj1 (dispatch_moves_histogram_bucket _ _ _ _ _ _ _ _ _ _ _ _ _ Hsc)).
Defined.

Lemma scan_never_panics_witness :
  srEnd (scan Sample.okWorld Sample.alwaysStop Sample.pool5 2 [] [1; 2]%N {[2 := 1]}
              [(Sample.chunk0, Sample.gaps2)]) ≠ LoopPanicked.
Proof.
  apply scan_never_panics.
  - intros id Hin.
    apply elem_of_cons in Hin as [->|Hin]; [by eexists|].
    apply list_elem_of_singleton in Hin as ->. by eexists.
  - intros cid cg n p Hin He Hp.
    apply list_elem_of_singleton in Hin. injection Hin as -> ->.
    injection He as <-. simpl in Hp.
    apply elem_of_cons in Hp as [->|Hp]; [simpl; lia|].
    apply list_elem_of_singleton in Hp as ->. simpl; lia.
Defined.

(** A first turn that panics at its fourth send. *)
Lemma turn_sends_to_idle_eligible_workers_witness :
  ∃ s0, startOfEpoch Sample3.epoch Sample.pool5 = Some s0
        ∧ oStatus (iteration Sample4.panicTurn s0) = Panic
        ∧ (oSent (iteration Sample4.panicTurn s0)).*1 = [4; 2; 5]%N
        ∧ availableWorkers (oState (iteration Sample4.panicTurn s0)) = [3; 1]%N
        ∧ 5%N ∈ eligibleWorkers Sample.pool5 (clock Sample3.epoch)
        ∧ 5%N ∈ availableWorkers s0.
Proof.
  eexists. split; [apply sample_epoch_start|].
  destruct (turn_sends_to_idle_eligible_workers Sample3.epoch Sample.pool5
              _ _ [] Sample4.panicTurn 5%N (UploadWork 0 "f" 2 Ciphertext)
              sample_epoch_start (rtc_refl _ _)) as (Hel & _ & Hav & _).
  - vm_compute. do 2 right. left.
  - split; [vm_compute; reflexivity|]. split; [vm_compute; reflexivity|].
    split; [vm_compute; reflexivity|]. split; [exact Hel|exact Hav].
Defined.

Lemma retired_worker_gets_no_work_witness :
  ∃ s, retiredWorkers s = [3%N] ∧ 3%N ∉ activeWorkers s.
Proof.
  destruct sample_epoch_after_failure as (s0 & s & inFlight & Hstart & Hsteps & Hret & _).
  exists s. split; [exact Hret|].
  destruct (retired_worker_gets_no_work Sample3.epoch Sample.pool5 s0 s inFlight 3%N
              Hstart Hsteps) as (Hact & _).
  - rewrite Hret. left.
  - exact Hact.
Defined.

Lemma worker_in_cooldown_gets_no_work_witness :
  ∃ s0, startOfEpoch Sample2.epoch0 Sample2.poolFailed3 = Some s0
        ∧ 3%N ∉ availableWorkers s0.
Proof.
  destruct (startOfEpoch Sample2.epoch0 Sample2.poolFailed3) as [s0|] eqn:Hstart;
    [|vm_compute in Hstart; discriminate Hstart].
  exists s0. split; [reflexivity|].
  destruct (worker_in_cooldown_gets_no_work Sample2.epoch0 Sample2.poolFailed3
              s0 s0 [] 3%N (Worker (Hour + 5)) Hstart (rtc_refl _ _))
    as (_ & Hav & _).
  - vm_compute. reflexivity.
  - vm_compute. discriminate.
  - exact Hav.
Defined.

Lemma addFileToRepairMatrix_frame_witness :
  ∃ m' h',
    addFileToRepairMatrix Sample.asInserted Sample4.fileG [7; 8]%N [(Sample.chunk0, Sample.gaps2)] {[2 := 1]} =
      Some (m', h')
    ∧ Matrix.lookup Sample.chunk0 m' = Some Sample.gaps2.
Proof.
  destruct (addFileToRepairMatrix Sample.asInserted Sample4.fileG [7; 8]%N [(Sample.chunk0, Sample.gaps2)]
                                  {[2 := 1]}) as [[m' h']|] eqn:Hadd;
    [|vm_compute in Hadd; discriminate Hadd].
  exists m', h'. split; [reflexivity|].
  destruct (addFileToRepairMatrix_frame _ _ _ _ _ _ Hadd) as (_ & _ & Hframe).
  rewrite (Hframe Sample.chunk0); [vm_compute; reflexivity|].
  left. vm_compute. discriminate.
Defined.

Lemma drainNewFiles_adds_active_contracts_witness :
  ∃ s', drainNewFiles Sample.allAsInserted [Sample4.fileG] Sample2.midEpoch = Some s'
        ∧ activeWorkers s' = [1; 2; 4; 5]%N
        ∧ Sample.chunk1 ∈ (repairMatrix s').*1.
Proof.
  destruct (drainNewFiles Sample.allAsInserted [Sample4.fileG] Sample2.midEpoch) as [s'|] eqn:Hd;
    [|vm_compute in Hd; discriminate Hd].
  exists s'. split; [reflexivity|].
  destruct (drainNewFiles_adds_active_contracts _ _ _ Hd) as (_ & Hact & _ & _ & Hkeys & _).
  split; [exact Hact|]. apply Hkeys. vm_compute. left.
Defined.

Lemma turn_keeps_chunks_witness :
  Sample.chunk1 ∈ (repairMatrix (oState (iteration Sample2.earlyTurn Sample2.midEpoch))).*1.
Proof.
  apply (turn_keeps_chunks Sample2.earlyTurn Sample2.midEpoch). vm_compute. left.
Defined.
